(** * boss: container labels, the reconciler and the monitor life cycle

    A shallow embedding of the Go packages [config] (label parsing in
    [toStrings] / [WithBossConfig]) and [monitor] (the reconcile pass
    [monitor] / [isSameStatus], and the goroutines [Run], [Stop],
    [Shutdown] and [stopContainers]).

    Strings are [string], Go maps from string to string are
    [gmap string string], the answers of the containerd client are data
    (every call that can fail carries its error), a Go panic is an explicit
    outcome, and goroutines are threads of a labelled step function. *)

From Stdlib Require Import ZArith Lia Ascii String List.
From stdpp Require Import gmap strings list.

Local Open Scope string_scope.
Local Open Scope list_scope.

(** ** Shared vocabulary *)

(** A Go [error] value; only its presence matters, the text is kept for
    the log. *)
Definition error := string.

(** A call returning [(A, error)]. *)
Inductive result (A : Type) : Type :=
| Ok (a : A)
| Err (e : error).
Arguments Ok {A} a.
Arguments Err {A} e.

(** What the Go runtime raises when a slice is indexed past its length:
    "index out of range [i] with length n"; and what it raises on the
    second [close] of a channel. *)
Inductive runtime_error : Type :=
| IndexOutOfRange (i n : nat)
| CloseOfClosedChannel.

(** A Go expression that either evaluates or panics. *)
Inductive outcome (A : Type) : Type :=
| Done (a : A)
| Panic (p : runtime_error).
Arguments Done {A} a.
Arguments Panic {A} p.

(** ** Package [config] *)
Module Config.

(** [cut sep s]: the text before and after the first [sep] in [s]. *)
Fixpoint cut (sep : ascii) (s : string) : option (string * string) :=
  match s with
  | EmptyString => None
  | String a rest =>
      if Ascii.eqb a sep then Some (EmptyString, rest)
      else match cut sep rest with
           | Some (k, v) => Some (String a k, v)
           | None => None
           end
  end.

(** [strings.SplitN(s, "=", 2)]: at most two pieces, cut at the first
    separator; a string without separator comes back whole, as the only
    piece. *)
Definition SplitN2 (s : string) : list string :=
  match cut "="%char s with
  | Some (k, v) => [k; v]
  | None => [s]
  end.

(** Slice indexing [parts[i]], with the bounds check of the Go runtime. *)
Definition index (parts : list string) (i : nat) : outcome string :=
  match parts !! i with
  | Some x => Done x
  | None => Panic (IndexOutOfRange i (length parts))
  end.

(** The body of [for _, s := range ss] in [toStrings], threaded through
    the map [m] being filled. Go evaluates the right-hand side
    [parts[1]] of [m[parts[0]] = parts[1]] after the index expression
    [parts[0]]. *)
Fixpoint toStrings_range (ss : list string) (m : gmap string string)
  : outcome (gmap string string) :=
  match ss with
  | [] => Done m
  | s :: rest =>
      let parts := SplitN2 s in
      match index parts 0 with
      | Panic p => Panic p
      | Done k =>
          match index parts 1 with
          | Panic p => Panic p
          | Done v => toStrings_range rest (<[k := v]> m)
          end
      end
  end.

Definition toStrings (ss : list string) : outcome (gmap string string) :=
  toStrings_range ss ∅.

(** The fields of [config.Container] that [WithBossConfig] reads
    itself; the others only feed [specOpt]. *)
Record Container : Type := {
  ID : string;
  Image : string;
  Labels : list string;
}.

(** The result of running a [containerd.NewContainerOpts]: [nil], an
    error, or a panic unwinding through it. *)
Inductive opt_result : Type :=
| Nil
| Failed (e : error)
| Panicked (p : runtime_error).

Section WithBossConfig.
(** The three containerd options [WithBossConfig] chains, each run
    against the client: spec generation, label setting, extension
    saving. [None] is a [nil] error. *)
Variable WithNewSpec : Container -> option error.
Variable WithContainerLabels : gmap string string -> option error.
Variable WithContainerExtension : Container -> option error.

(** The closure returned by [WithBossConfig(config, image)], applied.
    [toStrings(config.Labels)] is evaluated only once the spec step
    has returned [nil]. *)
Definition WithBossConfig (config : Container) : opt_result :=
  match WithNewSpec config with
  | Some e => Failed e
  | None =>
      match toStrings (Labels config) with
      | Panic p => Panicked p
      | Done m =>
          match WithContainerLabels m with
          | Some e => Failed e
          | None =>
              match WithContainerExtension config with
              | Some e => Failed e
              | None => Nil
              end
          end
      end
  end.
End WithBossConfig.

(** The characters of a label, to speak about the ones it contains. *)
Definition chars (s : string) : list ascii := list_ascii_of_string s.

(** No '=' occurs in [s]. *)
Definition sep_free (s : string) : Prop := ~ In "="%char (chars s).

(** The label [k=v]. *)
Definition kv (k v : string) : string := k +:+ String "="%char v.

(** The key of a label: what stands before its first '=' (the whole
    label when there is none). *)
Definition key_of (s : string) : string :=
  match cut "="%char s with
  | Some (k, _) => k
  | None => s
  end.

End Config.

(** ** Package [monitor]: what the containerd client answers *)
Module Runtime.

(** [containerd.ProcessStatus] is a string type. *)
Definition ProcessStatus := string.

Definition StatusLabel : string := "io.boss/restart.status".

(** custom boss status *)
Definition DeleteStatus : ProcessStatus := "delete".

(** Modelled from the spec: the two constants [containerd.Running] and
    [containerd.Stopped] of the containerd library, whose label values
    the specification gives as [running] and [stopped]. *)
Definition Running : ProcessStatus := "running".
Definition Stopped : ProcessStatus := "stopped".

(** Which case of the [select] in a stop unit becomes ready first: the
    exit channel of the task, or the timer. *)
Inductive select_case : Type :=
| TaskExited
| TimerFired.

(** A [containerd.Task], as the answers its methods give. *)
Record Task : Type := {
  Task_Status : result ProcessStatus; (* task.Status(ctx), field Status *)
  Task_Wait : option error;           (* task.Wait(ctx): nil, or the error *)
  Task_Kill : option error;           (* task.Kill(ctx, sig) *)
  Task_select : select_case;          (* <-wait against <-time.After *)
}.

(** [container.Task(ctx, nil)]. *)
Inductive task_load : Type :=
| NotFound                 (* errdefs.IsNotFound(err) *)
| LoadFailed (e : error)
| Loaded (task : Task).

(** A [containerd.Container], as the answers its methods give. *)
Record Container : Type := {
  ID : string;
  Labels : result (gmap string string);
  LoadTask : task_load;
}.

(** A namespace with what [m.client.Containers(ctx, "labels.<StatusLabel>")]
    answers inside it. *)
Record Namespace : Type := {
  Name : string;
  Containers : result (list Container);
}.

(** [m.client.NamespaceService().List(ctx)] and everything below it. *)
Definition Client : Type := result (list Namespace).

End Runtime.

(** ** Package [monitor]: the reconciler *)
Module Reconciler.
Import Runtime.

(** The three implementations of the [change] interface; each carries
    its container (the monitor pointer [m] is the same for all). *)
Inductive change : Type :=
| startChange (container : Container)
| stopChange (container : Container)
| deleteChange (container : Container).

Definition isSameStatus (desired : ProcessStatus) (container : Container) : bool :=
  match LoadTask container with
  | Loaded task =>
      match Task_Status task with
      | Err _ => String.eqb desired Stopped
      | Ok status => String.eqb desired status
      end
  | _ => String.eqb desired Stopped
  end.

(** [labels[StatusLabel]]: a missing key reads as the empty string. *)
Definition label_value (labels : gmap string string) : ProcessStatus :=
  default "" (labels !! StatusLabel).

(** One turn of [for _, c := range containers] in [monitor]. *)
Definition monitor_visit (changes : list change) (c : Container) : list change :=
  match Labels c with
  | Err _ => changes
  | Ok labels =>
      let desiredStatus := label_value labels in
      if isSameStatus desiredStatus c then changes
      else if String.eqb desiredStatus Running then changes ++ [startChange c]
      else if String.eqb desiredStatus Stopped then changes ++ [stopChange c]
      else if String.eqb desiredStatus DeleteStatus then changes ++ [deleteChange c]
      else changes
  end.

Definition monitor (listing : result (list Container)) : result (list change) :=
  match listing with
  | Err e => Err e
  | Ok containers => Ok (fold_left monitor_visit containers [])
  end.

(** The status [isSameStatus] compares the desired one against: the
    state of the task, and [Stopped] when the task or its state cannot
    be had. *)
Definition actualStatus (container : Container) : ProcessStatus :=
  match LoadTask container with
  | Loaded task =>
      match Task_Status task with
      | Ok status => status
      | Err _ => Stopped
      end
  | _ => Stopped
  end.

(** The changes [monitor] appends for one container. *)
Definition changes_of (c : Container) : list change := monitor_visit [] c.

(** A container has no runtime task: loading it fails, with NotFound
    or otherwise. *)
Definition no_task (c : Container) : Prop := forall task, LoadTask c <> Loaded task.

(** A container carries the desired-status label with value [v]. *)
Definition carries (c : Container) (v : ProcessStatus) : Prop :=
  exists labels, Labels c = Ok labels /\ labels !! StatusLabel = Some v.

End Reconciler.

(** ** Package [monitor]: [stopContainers], one goroutine per live task *)
Module StopContainers.
Import Runtime.

(** [time.Duration] counts nanoseconds. *)
Definition Second : Z := 1000000000.

(** The argument of [time.After] in a stop unit. *)
Definition stopTimeout : Z := 10 * Second.

Inductive signal : Type :=
| SIGTERM
| SIGKILL.

(** The calls a stop unit makes, in the order it makes them. *)
Inductive action : Type :=
| Kill (sig : signal) (err : option error)      (* task.Kill(ctx, sig) *)
| Select (timeout : Z) (first : select_case)    (* select: <-wait / <-time.After(timeout) *)
| Delete.                                       (* task.Delete(ctx) *)

(** Where the goroutine [go func() { ... }()] stands. *)
Inductive unit_pc : Type :=
| AtKill
| AtSelect
| AtDelete
| UnitDone.    (* returned; the deferred wg.Done() has run *)

Record worker : Type := {
  w_id : string;          (* c.ID() *)
  w_task : Task;          (* the captured [task] *)
  w_pc : unit_pc;
  w_did : list action;    (* history of its calls *)
}.

Definition spawn (c : Container) (task : Task) : worker :=
  {| w_id := ID c; w_task := task; w_pc := AtKill; w_did := [] |}.

Definition advance (w : worker) (pc : unit_pc) (a : action) : worker :=
  {| w_id := w_id w; w_task := w_task w; w_pc := pc; w_did := w_did w ++ [a] |}.

(** One step of the goroutine body. *)
Definition unit_step (w : worker) : option worker :=
  match w_pc w with
  | AtKill =>
      let err := Task_Kill (w_task w) in
      Some (advance w (match err with Some _ => UnitDone | None => AtSelect end)
                      (Kill SIGTERM err))
  | AtSelect =>
      let first := Task_select (w_task w) in
      Some (advance w (match first with TaskExited => AtDelete | TimerFired => UnitDone end)
                      (Select stopTimeout first))
  | AtDelete => Some (advance w UnitDone Delete)
  | UnitDone => None
  end.

(** Where [stopContainers] itself stands. *)
Inductive stop_pc : Type :=
| AtContainers (listing : result (list Container))  (* m.client.Containers(...) *)
| AtRange (pending : list Container)                (* for _, c := range containers *)
| AtWait                                            (* wg.Wait() *)
| Returned (err : option error).

Record stopping : Type := {
  s_pc : stop_pc;
  s_units : list worker;   (* the goroutines launched so far *)
  s_wg : Z;                (* the counter of the sync.WaitGroup *)
}.

Definition stop_init (listing : result (list Container)) : stopping :=
  {| s_pc := AtContainers listing; s_units := []; s_wg := 0 |}.

Definition goto (st : stopping) (pc : stop_pc) : stopping :=
  {| s_pc := pc; s_units := s_units st; s_wg := s_wg st |}.

(** One step of the function body: the listing, one turn of the loop
    (with [wg.Add(1)] and the [go] statement), or [wg.Wait()], which
    only comes back when the counter is zero. *)
Definition stop_main (st : stopping) : option stopping :=
  match s_pc st with
  | AtContainers (Err e) => Some (goto st (Returned (Some e)))
  | AtContainers (Ok containers) => Some (goto st (AtRange containers))
  | AtRange [] => Some (goto st AtWait)
  | AtRange (c :: rest) =>
      match LoadTask c with
      | Loaded task =>
          match Task_Wait task with
          | Some _ => Some (goto st (AtRange rest))
          | None =>
              Some {| s_pc := AtRange rest;
                      s_units := s_units st ++ [spawn c task];
                      s_wg := s_wg st + 1 |}
          end
      | _ => Some (goto st (AtRange rest))
      end
  | AtWait => if Z.eqb (s_wg st) 0 then Some (goto st (Returned None)) else None
  | Returned _ => None
  end.

(** One step of the [i]-th goroutine; returning runs [wg.Done()]. *)
Definition stop_unit (i : nat) (st : stopping) : option stopping :=
  match s_units st !! i with
  | None => None
  | Some w =>
      match unit_step w with
      | None => None
      | Some w' =>
          Some {| s_pc := s_pc st;
                  s_units := <[i := w']> (s_units st);
                  s_wg := match w_pc w' with
                          | UnitDone => s_wg st - 1
                          | _ => s_wg st
                          end |}
      end
  end.

Inductive stop_thread : Type :=
| Main
| Unit (i : nat).

Definition stop_step (t : stop_thread) (st : stopping) : option stopping :=
  match t with
  | Main => stop_main st
  | Unit i => stop_unit i st
  end.

(** A schedule: the threads that step, in order; every step must be
    enabled. *)
Fixpoint stop_exec (sched : list stop_thread) (st : stopping) : option stopping :=
  match sched with
  | [] => Some st
  | t :: rest =>
      match stop_step t st with
      | Some st' => stop_exec rest st'
      | None => None
      end
  end.

(** The calls of a unit from its launch to its return, as a list:
    SIGTERM, then the select when the signal went through, then the
    Delete when the exit came first. *)
Definition unit_calls (task : Task) : list action :=
  Kill SIGTERM (Task_Kill task) ::
  match Task_Kill task with
  | Some _ => []
  | None =>
      Select stopTimeout (Task_select task) ::
      match Task_select task with
      | TaskExited => [Delete]
      | TimerFired => []
      end
  end.

(** The containers a unit is launched for: the task loads and its exit
    channel is had. *)
Definition live (c : Container) : option worker :=
  match LoadTask c with
  | Loaded task =>
      match Task_Wait task with
      | None => Some (spawn c task)
      | Some _ => None
      end
  | _ => None
  end.

Definition finished (w : worker) : worker :=
  {| w_id := w_id w; w_task := w_task w; w_pc := UnitDone;
     w_did := unit_calls (w_task w) |}.

(** A unit is in flight: launched and not yet returned. *)
Definition in_flight (w : worker) : bool :=
  match w_pc w with
  | UnitDone => false
  | _ => true
  end.

(** Steps a unit still has before it returns, at most. *)
Definition unit_left (w : worker) : nat :=
  match w_pc w with
  | AtKill => 3
  | AtSelect => 2
  | AtDelete => 1
  | UnitDone => 0
  end.

Definition units_left (ws : list worker) : nat :=
  fold_right (fun w n => unit_left w + n) 0%nat ws.

(** Steps [stopContainers] and its units still have before it returns,
    at most. *)
Definition stop_left (st : stopping) : nat :=
  units_left (s_units st) +
  match s_pc st with
  | AtContainers (Err _) => 1
  | AtContainers (Ok cs) => 3 + 4 * length cs
  | AtRange cs => 2 + 4 * length cs
  | AtWait => 1
  | Returned _ => 0
  end.

(** The units launched for a listing, in its order. *)
Definition launched (cs : list Container) : list worker :=
  flat_map (fun c => match live c with Some w => [w] | None => [] end) cs.

(** How many units are in flight. *)
Definition flying (ws : list worker) : nat :=
  fold_right (fun w n => if in_flight w then S n else n) 0%nat ws.

(** The history of a unit agrees with where it stands. *)
Definition unit_ok (w : worker) : Prop :=
  match w_pc w with
  | AtKill => w_did w = []
  | AtSelect => Task_Kill (w_task w) = None /\ w_did w = [Kill SIGTERM None]
  | AtDelete =>
      Task_Kill (w_task w) = None /\ Task_select (w_task w) = TaskExited /\
      w_did w = [Kill SIGTERM None; Select stopTimeout TaskExited]
  | UnitDone => w_did w = unit_calls (w_task w)
  end.

(** What holds of [stopContainers] all along, for a given answer
    [listing] of the client: the histories of the units, the counter
    of the WaitGroup, and which containers have a unit. *)
Definition stop_inv (listing : result (list Container)) (st : stopping) : Prop :=
  Forall unit_ok (s_units st) /\
  s_wg st = Z.of_nat (flying (s_units st)) /\
  match s_pc st with
  | AtContainers l => l = listing /\ s_units st = []
  | AtRange pending =>
      exists seen, listing = Ok (seen ++ pending) /\
                   map finished (s_units st) = map finished (launched seen)
  | AtWait =>
      exists cs, listing = Ok cs /\
                 map finished (s_units st) = map finished (launched cs)
  | Returned None =>
      s_wg st = 0%Z /\
      exists cs, listing = Ok cs /\
                 map finished (s_units st) = map finished (launched cs)
  | Returned (Some e) => listing = Err e /\ s_units st = []
  end.

End StopContainers.

(** ** Package [monitor]: [Run], [Stop] and [Shutdown] on one Monitor *)
Module Lifecycle.
Import Runtime Reconciler StopContainers.

(** [shutdownCh]: nothing is ever sent on it, so all that matters is
    whether it has been closed. *)
Inductive chan : Type :=
| Open
| Closed.

(** Whose [m.mu.Lock()] came back last (the mutex itself only knows
    whether it is locked). *)
Inductive holder : Type :=
| RunLoop
| ShutdownCall.

Inductive func : Type :=
| FStop
| FShutdown.

(** What the caller of the Monitor asks for, one call after the other;
    a [Shutdown] comes with what the client will answer during it. *)
Inductive call : Type :=
| CallStop
| CallShutdown (answers : Client).

Inductive event : Type :=
| Slept (d : Z)                            (* time.Sleep(d) came back *)
| Locked (h : holder)
| Unlocked (h : holder)
| Entered (f : func)                       (* the method was called *)
| Applied (ns : string) (c : change)       (* c.apply(ctx, m.client) *)
| Logged (msg : string)
| Joined (ns : string) (units : list worker)  (* stopContainers returned nil *)
| ChanClosed (f : func).                   (* close(m.shutdownCh) *)

(** Where the goroutine running [Run] stands. *)
Inductive run_pc : Type :=
| AtSleep                             (* time.Sleep(interval) *)
| AtLock                              (* m.mu.Lock() *)
| AtSelectCh                          (* select { case <-m.shutdownCh: ... default: ... } *)
| AtNamespaces                        (* reconcile: NamespaceService().List *)
| AtPass (pending : list Namespace)   (* reconcile: for _, name := range ns *)
| AtUnlock                            (* m.mu.Unlock() *)
| Exited.                             (* return *)

(** Where the goroutine calling [Stop] and [Shutdown] stands. *)
Inductive caller_pc : Type :=
| Idle                                     (* between two calls *)
| ShLock (answers : Client)                (* m.mu.Lock() *)
| ShNamespaces (answers : Client)          (* NamespaceService().List *)
| ShRange (pending : list Namespace)       (* for _, name := range ns *)
| ShStopping (name : string) (st : stopping) (rest : list Namespace)
| ShClose                                  (* close(m.shutdownCh), either one *)
| ShUnlock                                 (* the deferred m.mu.Unlock() *)
| Unwound.                                 (* ended by a panic *)

Record system : Type := {
  shutdownCh : chan;
  mu : option holder;
  crashed : option runtime_error;   (* an unrecovered panic ends the process *)
  run : run_pc;
  tick : nat;                       (* reconcile passes begun *)
  caller : caller_pc;
  todo : list call;
  log : list event;
}.

(** What surrounds the Monitor: the argument of [Run] and what the
    client answers in each reconcile pass. *)
Record world : Type := {
  interval : Z;
  passes : nat -> Client;
}.

(** [if interval == 0 { interval = 10 * time.Second }] *)
Definition effective (iv : Z) : Z :=
  if Z.eqb iv 0 then 10 * Second else iv.

(** After [New]: channel open, mutex free, [Run] started. *)
Definition init (prog : list call) : system :=
  {| shutdownCh := Open; mu := None; crashed := None;
     run := AtSleep; tick := 0;
     caller := Idle; todo := prog; log := [] |}.

Definition with_run (s : system) (pc : run_pc) (evs : list event) : system :=
  {| shutdownCh := shutdownCh s; mu := mu s; crashed := crashed s;
     run := pc; tick := tick s;
     caller := caller s; todo := todo s; log := log s ++ evs |}.

Definition with_caller (s : system) (pc : caller_pc) (evs : list event) : system :=
  {| shutdownCh := shutdownCh s; mu := mu s; crashed := crashed s;
     run := run s; tick := tick s;
     caller := pc; todo := todo s; log := log s ++ evs |}.

Definition with_mu (s : system) (m : option holder) : system :=
  {| shutdownCh := shutdownCh s; mu := m; crashed := crashed s;
     run := run s; tick := tick s;
     caller := caller s; todo := todo s; log := log s |}.

Definition with_tick (s : system) (n : nat) : system :=
  {| shutdownCh := shutdownCh s; mu := mu s; crashed := crashed s;
     run := run s; tick := n;
     caller := caller s; todo := todo s; log := log s |}.

Definition with_todo (s : system) (calls : list call) : system :=
  {| shutdownCh := shutdownCh s; mu := mu s; crashed := crashed s;
     run := run s; tick := tick s;
     caller := caller s; todo := calls; log := log s |}.

(** [close(m.shutdownCh)] by [f]: closing a closed channel panics, and
    the panic, not recovered anywhere, ends the process after the
    deferred calls of the goroutine ([unlock]: whether one of them is
    [m.mu.Unlock()]). *)
Definition close_ch (s : system) (f : func) (unlock : bool) (next : caller_pc) : system :=
  match shutdownCh s with
  | Closed =>
      {| shutdownCh := Closed;
         mu := if unlock then None else mu s;
         crashed := Some CloseOfClosedChannel;
         run := run s; tick := tick s;
         caller := Unwound; todo := todo s; log := log s |}
  | Open =>
      {| shutdownCh := Closed; mu := mu s; crashed := crashed s;
         run := run s; tick := tick s;
         caller := next; todo := todo s; log := log s ++ [ChanClosed f] |}
  end.

(** The events of one namespace in [reconcile]: the changes [monitor]
    returns, applied in order, or the failure of the listing logged. *)
Definition pass_events (n : Namespace) : list event :=
  match monitor (Containers n) with
  | Err _ => [Logged "get changes"]
  | Ok changes => map (Applied (Name n)) changes
  end.

(** One step of [Run]. *)
Definition run_step (w : world) (s : system) : option system :=
  match run s with
  | AtSleep => Some (with_run s AtLock [Slept (effective (interval w))])
  | AtLock =>
      match mu s with
      | None => Some (with_run (with_mu s (Some RunLoop)) AtSelectCh [Locked RunLoop])
      | Some _ => None
      end
  | AtSelectCh =>
      match shutdownCh s with
      | Closed => Some (with_run s Exited [Logged "ending reconcile loop for shutdown"])
      | Open => Some (with_run s AtNamespaces [])
      end
  | AtNamespaces =>
      match passes w (tick s) with
      | Err _ => Some (with_run (with_tick s (S (tick s))) AtUnlock [Logged "reconcile"])
      | Ok ns => Some (with_run (with_tick s (S (tick s))) (AtPass ns) [])
      end
  | AtPass [] => Some (with_run s AtUnlock [])
  | AtPass (n :: rest) => Some (with_run s (AtPass rest) (pass_events n))
  | AtUnlock => Some (with_run (with_mu s None) AtSleep [Unlocked RunLoop])
  | Exited => None
  end.

(** One step of the caller: the next call begins, or the one in
    progress moves on. *)
Definition caller_step (s : system) : option system :=
  match caller s with
  | Idle =>
      match todo s with
      | [] => None
      | CallStop :: rest =>
          Some (close_ch (with_caller (with_todo s rest) Idle [Entered FStop]) FStop false Idle)
      | CallShutdown answers :: rest =>
          Some (with_caller (with_todo s rest) (ShLock answers) [Entered FShutdown])
      end
  | ShLock answers =>
      match mu s with
      | None => Some (with_caller (with_mu s (Some ShutdownCall)) (ShNamespaces answers)
                                  [Locked ShutdownCall])
      | Some _ => None
      end
  | ShNamespaces (Err _) => Some (with_caller s ShClose [Logged "list namespaces"])
  | ShNamespaces (Ok ns) => Some (with_caller s (ShRange ns) [])
  | ShRange [] => Some (with_caller s ShClose [])
  | ShRange (n :: rest) =>
      Some (with_caller s (ShStopping (Name n) (stop_init (Containers n)) rest) [])
  | ShStopping name st rest =>
      match s_pc st with
      | Returned (Some _) => Some (with_caller s (ShRange rest) [Logged "attach task in"])
      | Returned None => Some (with_caller s (ShRange rest) [Joined name (s_units st)])
      | _ =>
          match stop_main st with
          | Some st' => Some (with_caller s (ShStopping name st' rest) [])
          | None => None
          end
      end
  | ShClose => Some (close_ch s FShutdown true ShUnlock)
  | ShUnlock => Some (with_caller (with_mu s None) Idle [Unlocked ShutdownCall])
  | Unwound => None
  end.

(** One step of the [i]-th stop unit of the [stopContainers] in
    progress. *)
Definition unit_turn (i : nat) (s : system) : option system :=
  match caller s with
  | ShStopping name st rest =>
      match stop_unit i st with
      | Some st' => Some (with_caller s (ShStopping name st' rest) [])
      | None => None
      end
  | _ => None
  end.

Inductive thread : Type :=
| TRun
| TCaller
| TUnit (i : nat).

(** One step of the process: the chosen goroutine moves, if it can and
    the process is still alive. *)
Definition step (w : world) (t : thread) (s : system) : option system :=
  match crashed s with
  | Some _ => None
  | None =>
      match t with
      | TRun => run_step w s
      | TCaller => caller_step s
      | TUnit i => unit_turn i s
      end
  end.

Fixpoint exec (w : world) (sched : list thread) (s : system) : option system :=
  match sched with
  | [] => Some s
  | t :: rest =>
      match step w t s with
      | Some s' => exec w rest s'
      | None => None
      end
  end.

(** [Run] is inside its critical section, between [Lock] and [Unlock]. *)
Definition run_inside (pc : run_pc) : bool :=
  match pc with
  | AtSelectCh | AtNamespaces | AtPass _ | AtUnlock | Exited => true
  | AtSleep | AtLock => false
  end.

(** A reconcile pass is being executed. *)
Definition reconciling (s : system) : bool :=
  match run s with
  | AtNamespaces | AtPass _ => true
  | _ => false
  end.

(** The body of [Shutdown] is being executed. *)
Definition shutting_down (s : system) : bool :=
  match caller s with
  | ShNamespaces _ | ShRange _ | ShStopping _ _ _ | ShClose | ShUnlock => true
  | Idle | ShLock _ | Unwound => false
  end.

(** The stop units of the [stopContainers] in progress. *)
Definition units (s : system) : list worker :=
  match caller s with
  | ShStopping _ st _ => s_units st
  | _ => []
  end.

(** The caller has entered [Shutdown]. *)
Definition entered_shutdown (evs : list event) : Prop := In (Entered FShutdown) evs.

(** The mutex is held by whoever is inside its critical section, and
    by nobody else. *)
Definition mu_ok (s : system) : Prop :=
  mu s = (if run_inside (run s) then Some RunLoop
          else if shutting_down s then Some ShutdownCall else None) /\
  (run_inside (run s) && shutting_down s = false).

(** What holds of the process all along. *)
Definition wf (s : system) : Prop :=
  mu_ok s /\
  (run s = Exited -> shutdownCh s = Closed) /\
  (crashed s = None \/ caller s = Unwound) /\
  (forall name st rest, caller s = ShStopping name st rest ->
     exists listing, stop_inv listing st).

(** Steps [Shutdown] and its units still have before it returns, at
    most: per namespace, the call of [stopContainers], its steps and
    its return. *)
Definition range_left (ns : list Namespace) : nat :=
  fold_right (fun n k => 2 + stop_left (stop_init (Containers n)) + k)%nat 0%nat ns.

Definition call_left (pc : caller_pc) : nat :=
  match pc with
  | Idle | Unwound => 0
  | ShUnlock => 1
  | ShClose => 2
  | ShRange ns => 3 + range_left ns
  | ShStopping _ st rest => 4 + stop_left st + range_left rest
  | ShNamespaces (Err _) => 3
  | ShNamespaces (Ok ns) => 4 + range_left ns
  | ShLock (Err _) => 4
  | ShLock (Ok ns) => 5 + range_left ns
  end.

(** The steps of a schedule that are not steps of [Run]. *)
Definition sd_steps (sched : list thread) : nat :=
  fold_right (fun t n => match t with TRun => n | _ => S n end) 0%nat sched.

(** [Shutdown] is in progress and has not reached its [close]. *)
Definition before_close (pc : caller_pc) : bool :=
  match pc with
  | ShLock _ | ShNamespaces _ | ShRange _ | ShStopping _ _ _ | ShClose => true
  | Idle | ShUnlock | Unwound => false
  end.

(** What holds during the [Shutdown] that began with [k] calls left to
    make and the channel open, until the next call begins. *)
Definition call_inv (k : nat) (s : system) : Prop :=
  (length (todo s) < k)%nat \/
  (length (todo s) = k /\ crashed s = None /\
   match caller s with
   | Idle | ShUnlock => shutdownCh s = Closed /\ In (ChanClosed FShutdown) (log s)
   | Unwound => False
   | _ => shutdownCh s = Open
   end).

(** Every call that has got as far as its [close] without a panic has
    closed the channel, and the channel can be closed without a panic
    once. *)
Definition closes_ok (prog : list call) (s : system) : Prop :=
  crashed s = None ->
  (length (todo s) + (match shutdownCh s with Closed => 1 | Open => 0 end) +
   (if before_close (caller s) then 1 else 0) = length prog)%nat.

(** The events of a reconcile pass over what the client answers. *)
Definition reconcile_events (client : Client) : list event :=
  match client with
  | Err _ => [Logged "reconcile"]
  | Ok ns => flat_map pass_events ns
  end.

(** The steps [Run] takes from one [time.Sleep] to the next. *)
Definition iteration_steps (client : Client) : nat :=
  match client with
  | Err _ => 5
  | Ok ns => 6 + length ns
  end.

End Lifecycle.

(** ** Sample containers, clients and schedules *)
Module Samples.
Import Runtime StopContainers Lifecycle.

Definition running_task : Task :=
  {| Task_Status := Ok Running; Task_Wait := None; Task_Kill := None;
     Task_select := TaskExited |}.

(** A task that does not exit within the ten seconds. *)
Definition stubborn_task : Task :=
  {| Task_Status := Ok Running; Task_Wait := None; Task_Kill := None;
     Task_select := TimerFired |}.

Definition web1 : Container :=
  {| ID := "web1"; Labels := Ok {[ StatusLabel := Running ]}; LoadTask := NotFound |}.

Definition web2 : Container :=
  {| ID := "web2"; Labels := Ok {[ StatusLabel := Running ]};
     LoadTask := Loaded running_task |}.

Definition db1 : Container :=
  {| ID := "db1"; Labels := Ok {[ StatusLabel := Running ]};
     LoadTask := Loaded stubborn_task |}.

Definition paused1 : Container :=
  {| ID := "paused1"; Labels := Ok {[ StatusLabel := "paused" ]}; LoadTask := NotFound |}.

Definition default_ns : Namespace :=
  {| Name := "default"; Containers := Ok [web1; web2; db1] |}.

Definition client1 : Client := Ok [default_ns].

Definition world1 : world := {| interval := 0; passes := fun _ => client1 |}.

(** [stopContainers] over [web1; web2; db1]: the listing, the three
    turns of the loop with the unit of [web2] already running between
    them, the end of the loop, the two units, and [wg.Wait()]. *)
Definition stop_sched : list stop_thread :=
  [Main; Main; Main; Unit 0; Main; Unit 1; Unit 0; Main; Unit 1; Unit 0; Main].

(** A whole [Shutdown] from its [m.mu.Lock()] on, [Run] asleep. *)
Definition shutdown_sched : list thread :=
  [TCaller; TCaller; TCaller; TCaller; TCaller; TCaller; TCaller; TUnit 0;
   TUnit 1; TUnit 0; TUnit 1; TUnit 0; TCaller; TCaller; TCaller; TCaller;
   TCaller; TCaller].

(** [Stop], then a [Shutdown] up to its [close]. *)
Definition stop_then_shutdown_sched : list thread :=
  [TCaller; TCaller;
   TCaller; TCaller; TCaller; TCaller; TCaller; TCaller; TCaller; TUnit 0;
   TUnit 1; TUnit 0; TUnit 1; TUnit 0; TCaller; TCaller; TCaller; TCaller].

End Samples.

(** ** Package [config]: the options that edit the OCI spec *)
Module SpecOpts.

Definition Root : string := "/var/lib/boss".

(** The value an int64 holds after an arithmetic operation: the result
    wraps around. *)
Definition int64 (z : Z) : Z := (z + 2 ^ 63) mod 2 ^ 64 - 2 ^ 63.

(** [config.Mount]. *)
Record Mount : Type := {
  Type_ : string;
  Source : string;
  Destination : string;
  Options : list string;
}.

(** [specs.Mount]. *)
Record SpecMount : Type := {
  specs_Destination : string;
  specs_Type : string;
  specs_Source : string;
  specs_Options : list string;
}.

(** The parts of [oci.Spec] the options of this package read or write.
    The spec comes from containerd's default spec, in which [Process],
    [Linux] and [Linux.Resources] are allocated. *)
Record Spec : Type := {
  Hostname : string;
  Mounts : list SpecMount;
  UID : Z;                          (* s.Process.User.UID *)
  GID : Z;                          (* s.Process.User.GID *)
  OOMScoreAdj : option Z;           (* s.Process.OOMScoreAdj *)
  MemoryLimit : option Z;           (* s.Linux.Resources.Memory, its Limit *)
  CPUQuota : option (Z * Z);        (* s.Linux.Resources.CPU: Quota, Period *)
}.

(** [s.Mounts = append(s.Mounts, m)] *)
Definition append_mount (s : Spec) (m : SpecMount) : Spec :=
  {| Hostname := Hostname s; Mounts := Mounts s ++ [m]; UID := UID s; GID := GID s;
     OOMScoreAdj := OOMScoreAdj s; MemoryLimit := MemoryLimit s; CPUQuota := CPUQuota s |}.

Section Float64.
(** The float64 of [Resources.CPU] with the two things done to it: the
    test [r.CPU > 0] and the conversion [int64(r.CPU * 100000.0)]. *)
Variable float64 : Type.
Variable positive : float64 -> bool.
Variable quota : float64 -> Z.

(** [config.Resources]. *)
Record Resources : Type := {
  CPU : float64;
  Memory : Z;      (* int64 *)
  Score : Z;       (* int *)
}.

Definition withResources (r : Resources) (s : Spec) : Spec :=
  let s1 :=
    if Z.ltb 0 (Memory r) then
      let limit := int64 (int64 (Memory r * 1024) * 1024) in
      {| Hostname := Hostname s; Mounts := Mounts s; UID := UID s; GID := GID s;
         OOMScoreAdj := OOMScoreAdj s; MemoryLimit := Some limit;
         CPUQuota := CPUQuota s |}
    else s in
  let s2 :=
    if positive (CPU r) then
      {| Hostname := Hostname s1; Mounts := Mounts s1; UID := UID s1; GID := GID s1;
         OOMScoreAdj := OOMScoreAdj s1; MemoryLimit := MemoryLimit s1;
         CPUQuota := Some (quota (CPU r), 100000%Z) |}
    else s1 in
  if Z.eqb (Score r) 0 then s2
  else
    {| Hostname := Hostname s2; Mounts := Mounts s2; UID := UID s2; GID := GID s2;
       OOMScoreAdj := Some (Score r); MemoryLimit := MemoryLimit s2;
       CPUQuota := CPUQuota s2 |}.
End Float64.

(** What [os.Mkdir] answers. *)
Inductive mkdir_answer : Type :=
| Made
| AlreadyThere                (* an error with os.IsExist(err) *)
| MkdirError (e : error).

(** What the file system answers during one turn of the loop of
    [withMounts]. *)
Record bind_answers : Type := {
  on_MkdirAll : option error;
  on_Mkdir : mkdir_answer;
  on_Chown : option error;
}.

(** The calls made to the file system, with the answer of [os.Mkdir]. *)
Inductive fs_call : Type :=
| CallMkdirAll (path : string)
| CallMkdir (path : string) (answer : mkdir_answer)
| CallChown (path : string) (uid gid : Z).

Definition toSpecMount (cm : Mount) : SpecMount :=
  {| specs_Destination := Destination cm; specs_Type := Type_ cm;
     specs_Source := Source cm; specs_Options := Options cm |}.

Section Paths.
Variable Dir : string -> string.            (* filepath.Dir *)
Variable Join : list string -> string.      (* filepath.Join *)

(** The body of [if cm.Type == "bind"]: create source if it does not
    exist. *)
Definition prepare_bind (cm : Mount) (a : bind_answers) (s : Spec)
  : list fs_call * option error :=
  match on_MkdirAll a with
  | Some e => ([CallMkdirAll (Dir (Source cm))], Some e)
  | None =>
      match on_Mkdir a with
      | MkdirError e =>
          ([CallMkdirAll (Dir (Source cm)); CallMkdir (Source cm) (MkdirError e)], Some e)
      | AlreadyThere =>
          ([CallMkdirAll (Dir (Source cm)); CallMkdir (Source cm) AlreadyThere], None)
      | Made =>
          ([CallMkdirAll (Dir (Source cm)); CallMkdir (Source cm) Made;
            CallChown (Source cm) (UID s) (GID s)],
           on_Chown a)
      end
  end.

(** [for _, cm := range mounts] in [withMounts], from the [i]-th turn
    on; the spec is edited in place, so what was appended before an
    error stays. *)
Fixpoint withMounts_range (mounts : list Mount) (answers : nat -> bind_answers)
  (i : nat) (s : Spec) (calls : list fs_call) : Spec * list fs_call * option error :=
  match mounts with
  | [] => (s, calls, None)
  | cm :: rest =>
      let '(made, err) :=
        if String.eqb (Type_ cm) "bind" then prepare_bind cm (answers i) s
        else ([], None) in
      match err with
      | Some e => (s, calls ++ made, Some e)
      | None =>
          withMounts_range rest answers (S i) (append_mount s (toSpecMount cm))
            (calls ++ made)
      end
  end.

Definition withMounts (mounts : list Mount) (answers : nat -> bind_answers) (s : Spec)
  : Spec * list fs_call * option error :=
  withMounts_range mounts answers 0 s [].

(** What the file system answers to [withContainerHostsFile]. *)
Record hosts_answers : Type := {
  h_MkdirAll : option error;
  h_Create : option error;
  h_Write : nat -> option error;    (* the three f.WriteString, in order *)
}.

Definition newline : string := String (ascii_of_nat 10) EmptyString.

Definition localhost_line : string := "127.0.0.1       localhost" +:+ newline.

(** [fmt.Sprintf("127.0.0.1       %s\n", hostname)] *)
Definition hostname_line (hostname : string) : string :=
  "127.0.0.1       " +:+ hostname +:+ newline.

Definition ip6_line : string := "::1     localhost ip6-localhost ip6-loopback" +:+ newline.

Definition hosts_mount (path : string) : SpecMount :=
  {| specs_Destination := "/etc/hosts"; specs_Type := "bind";
     specs_Source := path; specs_Options := ["rbind"; "ro"] |}.

(** [withContainerHostsFile] for the container [id]: the spec, the
    strings written to the hosts file, and the error. *)
Definition withContainerHostsFile (id : string) (a : hosts_answers) (s : Spec)
  : Spec * list string * option error :=
  match h_MkdirAll a with
  | Some e => (s, [], Some e)
  | None =>
      let hostname := if String.eqb (Hostname s) "" then id else Hostname s in
      let path := Join [Root; id; "hosts"] in
      match h_Create a with
      | Some e => (s, [], Some e)
      | None =>
          match h_Write a 0 with
          | Some e => (s, [], Some e)
          | None =>
              match h_Write a 1 with
              | Some e => (s, [localhost_line], Some e)
              | None =>
                  match h_Write a 2 with
                  | Some e => (s, [localhost_line; hostname_line hostname], Some e)
                  | None =>
                      (append_mount s (hosts_mount path),
                       [localhost_line; hostname_line hostname; ip6_line], None)
                  end
              end
          end
      end
  end.

Definition withBossResolvconf (s : Spec) : Spec :=
  append_mount s
    {| specs_Destination := "/etc/resolv.conf"; specs_Type := "bind";
       specs_Source := Join [Root; "resolv.conf"]; specs_Options := ["rbind"; "ro"] |}.
End Paths.

End SpecOpts.

(** ** Package [monitor]: [Attach] *)
Module Attacher.
Import Runtime.

(** What [Attach] writes to the log. *)
Inductive attach_log : Type :=
| InfoAttach (id : string) (task : Task)         (* Info("attach task"), with pid and id *)
| ErrorLoad (id : string) (e : error)            (* Errorf("load task %s", c.ID()) *)
| ErrorNamespace (name : string) (e : error).    (* Errorf("attach task in %s", name) *)

Section Attach.
(** [c.Task(ctx, cio.NewAttach(cio.WithStdio))]. *)
Variable AttachTask : Container -> task_load.

(** One turn of [for _, c := range containers] in [attachContainers]. *)
Definition attach_visit (logs : list attach_log) (c : Container) : list attach_log :=
  match AttachTask c with
  | NotFound => logs
  | LoadFailed e => logs ++ [ErrorLoad (ID c) e]
  | Loaded task => logs ++ [InfoAttach (ID c) task]
  end.

Definition attachContainers (listing : result (list Container)) (logs : list attach_log)
  : list attach_log * option error :=
  match listing with
  | Err e => (logs, Some e)
  | Ok containers => (fold_left attach_visit containers logs, None)
  end.

(** One turn of [for _, name := range ns] in [Attach]. *)
Definition attach_namespace (logs : list attach_log) (n : Namespace) : list attach_log :=
  match attachContainers (Containers n) logs with
  | (logs', Some e) => logs' ++ [ErrorNamespace (Name n) e]
  | (logs', None) => logs'
  end.

Definition Attach (client : Client) : list attach_log * option error :=
  match client with
  | Err e => ([], Some e)
  | Ok ns => (fold_left attach_namespace ns [], None)
  end.

(** The tasks attached according to a log. *)
Definition attached (logs : list attach_log) : list (string * Task) :=
  flat_map (fun l => match l with InfoAttach id task => [(id, task)] | _ => [] end) logs.

(** The failures reported in a log. *)
Definition failures (logs : list attach_log) : nat :=
  length (flat_map (fun l => match l with InfoAttach _ _ => [] | _ => [l] end) logs).

(** The containers of a client with a task to attach to, namespace by
    namespace in the order of the listings. *)
Definition attachable (ns : list Namespace) : list (string * Task) :=
  flat_map (fun n =>
    match Containers n with
    | Err _ => []
    | Ok cs =>
        flat_map (fun c => match AttachTask c with
                           | Loaded task => [(ID c, task)]
                           | _ => []
                           end) cs
    end) ns.
End Attach.

End Attacher.

(** ** Views of changes and of the loop *)
Module Views.
Import Runtime Reconciler Lifecycle.

(** The container a change is about. *)
Definition container_of (c : change) : Container :=
  match c with
  | startChange container => container
  | stopChange container => container
  | deleteChange container => container
  end.

(** [Run] stands where no reconcile pass is in progress or can begin
    without another look at the channel. *)
Definition before_select (pc : run_pc) : bool :=
  match pc with
  | AtSleep | AtLock | AtSelectCh | Exited => true
  | AtNamespaces | AtPass _ | AtUnlock => false
  end.

(** No change is applied by the events. *)
Definition nothing_applied (evs : list event) : Prop :=
  forall ns c, ~ In (Applied ns c) evs.

End Views.

(** ** Sample specs, mounts and answers of the file system *)
Module SpecSamples.
Import SpecOpts.

Definition spec0 : Spec :=
  {| Hostname := ""; Mounts := []; UID := 1000; GID := 1000; OOMScoreAdj := None;
     MemoryLimit := None; CPUQuota := None |}.

Definition tmp_mount : Mount :=
  {| Type_ := "tmpfs"; Source := "tmpfs"; Destination := "/tmp"; Options := [] |}.

Definition data_mount : Mount :=
  {| Type_ := "bind"; Source := "/srv/data"; Destination := "/data";
     Options := ["rbind"; "rw"] |}.

Definition logs_mount : Mount :=
  {| Type_ := "bind"; Source := "/srv/logs"; Destination := "/logs";
     Options := ["rbind"; "rw"] |}.

(** The directory is new. *)
Definition fresh : bind_answers :=
  {| on_MkdirAll := None; on_Mkdir := Made; on_Chown := None |}.

(** The directory cannot be made. *)
Definition denied : bind_answers :=
  {| on_MkdirAll := None; on_Mkdir := MkdirError "permission denied"; on_Chown := None |}.

(** The first two turns find a new directory, the third is denied. *)
Definition third_denied (i : nat) : bind_answers :=
  match i with
  | 2 => denied
  | _ => fresh
  end.

(** Stand-ins for [filepath.Dir] and [filepath.Join] on the sample
    paths. *)
Definition srv (path : string) : string := "/srv".
Definition slashes (parts : list string) : string := String.concat "/" parts.

Definition half_gib : Resources unit := {| CPU := tt; Memory := 512; Score := -500 |}.

Definition all_written : hosts_answers :=
  {| h_MkdirAll := None; h_Create := None; h_Write := fun _ => None |}.

End SpecSamples.

(** ** More sample containers *)
Module MoreSamples.
Import Runtime Samples.

(** A container whose labels cannot be read. *)
Definition unreadable : Container :=
  {| ID := "broken"; Labels := Err "unavailable"; LoadTask := Loaded running_task |}.

(** A running task whose exit channel cannot be had: [task.Wait]
    fails. *)
Definition unwaitable_task : Task :=
  {| Task_Status := Ok Running; Task_Wait := Some "ttrpc: closed"; Task_Kill := None;
     Task_select := TaskExited |}.

(** A running task that cannot be signalled: [task.Kill] fails. *)
Definition deaf_task : Task :=
  {| Task_Status := Ok Running; Task_Wait := None; Task_Kill := Some "no such process";
     Task_select := TaskExited |}.

Definition cache1 : Container :=
  {| ID := "cache1"; Labels := Ok {[ StatusLabel := Running ]};
     LoadTask := Loaded unwaitable_task |}.

Definition queue1 : Container :=
  {| ID := "queue1"; Labels := Ok {[ StatusLabel := Running ]};
     LoadTask := Loaded deaf_task |}.

Definition jobs_ns : Namespace :=
  {| Name := "jobs"; Containers := Ok [cache1; queue1] |}.

(** One namespace, with [cache1] and [queue1]. *)
Definition client3 : Client := Ok [jobs_ns].




End MoreSamples.

(** ** A pass of [Shutdown] over the namespaces *)
Module ShutdownPass.
Import Runtime StopContainers Lifecycle MoreSamples.

(** The returns of [stopContainers] with nil that a log holds, in
    order: the namespace, and the units of the call as they stood at
    its return. *)
Definition joined (evs : list event) : list (string * list worker) :=
  flat_map (fun e => match e with
                     | Joined ns us => [(ns, us)]
                     | _ => []
                     end) evs.

(** The namespaces [nss] stopped one after the other: for each
    namespace whose containers are listed, one unit for each container
    whose task loads and whose exit channel is had, in the order of the
    listing, each returned after the calls of [unit_calls]. *)
Definition stopped_units (nss : list Namespace) : list (string * list worker) :=
  flat_map (fun n => match Containers n with
                     | Ok cs => [(Name n, map finished (launched cs))]
                     | Err _ => []
                     end) nss.

(** The same for the calls of a program: only a [Shutdown] that gets
    the list of the namespaces stops anything. *)
Definition stopped_by (calls : list call) : list (string * list worker) :=
  flat_map (fun c => match c with
                     | CallShutdown (Ok nss) => stopped_units nss
                     | _ => []
                     end) calls.

(** How far the call [cur] in progress has got, after the calls [past]:
    [j] are the returns of [stopContainers] so far. *)
Definition pass_phase (past cur : list call) (pc : caller_pc)
    (j : list (string * list worker)) : Prop :=
  match pc with
  | Idle => cur = [] /\ j = stopped_by past
  | ShLock a | ShNamespaces a => cur = [CallShutdown a] /\ j = stopped_by past
  | ShRange rest =>
      exists nss done,
        cur = [CallShutdown (Ok nss)] /\ nss = done ++ rest /\
        j = stopped_by past ++ stopped_units done
  | ShStopping name st rest =>
      exists nss done n,
        cur = [CallShutdown (Ok nss)] /\ nss = done ++ n :: rest /\
        name = Name n /\ stop_inv (Containers n) st /\
        j = stopped_by past ++ stopped_units done
  | ShClose | ShUnlock => exists a, cur = [CallShutdown a] /\ j = stopped_by (past ++ cur)
  | Unwound => exists c, cur = [c] /\ j = stopped_by (past ++ cur)
  end.

(** What holds of the calls of [prog] all along: those made, the one in
    progress, those to come. *)
Definition pass_inv (prog : list call) (s : system) : Prop :=
  exists past cur,
    prog = past ++ cur ++ todo s /\
    pass_phase past cur (caller s) (joined (log s)).

(** A whole [Shutdown] over [client3], [Run] asleep. *)
Definition jobs_sched : list thread :=
  [TCaller; TCaller; TCaller; TCaller; TCaller; TCaller; TCaller; TCaller;
   TUnit 0; TCaller; TCaller; TCaller; TCaller; TCaller].


End ShutdownPass.

(** * Properties *)

(** ** Labels *)
Module ConfigFacts.
Import Config.

Lemma cut_none_sep_free (s : string) : cut "="%char s = None <-> sep_free s.
Proof.
  unfold sep_free, chars. induction s as [|a s IH]; simpl.
  - split; [intros _ []|reflexivity].
  - destruct (Ascii.eqb a "="%char) eqn:E.
    + apply Ascii.eqb_eq in E. subst a. split; [discriminate|]. intros H. destruct H. now left.
    + apply Ascii.eqb_neq in E. destruct (cut "="%char s) as [[k v]|].
      * split; [discriminate|]. intros H. exfalso.
        assert (Some (k, v) = None) as X; [|discriminate X].
        apply IH. intros Hin. apply H. now right.
      * split; [|reflexivity]. intros _ [Heq|Hin]; [congruence|].
        destruct IH as [IH _]. now apply IH.
Qed.

Lemma cut_kv (k v : string) : sep_free k -> cut "="%char (kv k v) = Some (k, v).
Proof.
  unfold sep_free, chars, kv. induction k as [|a k IH]; simpl; intros H.
  - reflexivity.
  - destruct (Ascii.eqb a "="%char) eqn:E.
    + apply Ascii.eqb_eq in E. subst a. destruct H. now left.
    + rewrite IH; [reflexivity|]. intros Hin. apply H. now right.
Qed.

Lemma SplitN2_kv (k v : string) : sep_free k -> SplitN2 (kv k v) = [k; v].
Proof. intros H. unfold SplitN2. now rewrite cut_kv. Qed.

Lemma SplitN2_whole (s : string) : sep_free s -> SplitN2 s = [s].
Proof. intros H. unfold SplitN2. apply cut_none_sep_free in H. now rewrite H. Qed.

Lemma key_of_kv (k v : string) : sep_free k -> key_of (kv k v) = k.
Proof. intros H. unfold key_of. now rewrite cut_kv. Qed.

(** One turn of the loop on a label with a separator stores its key
    and value. *)
Lemma toStrings_range_cons_sep (s : string) (rest : list string) (m : gmap string string) k v :
  cut "="%char s = Some (k, v) ->
  toStrings_range (s :: rest) m = toStrings_range rest (<[k := v]> m).
Proof. intros H. simpl. unfold SplitN2. now rewrite H. Qed.

Lemma toStrings_range_cons_whole (s : string) (rest : list string) (m : gmap string string) :
  sep_free s -> toStrings_range (s :: rest) m = Panic (IndexOutOfRange 1 1).
Proof. intros H. simpl. now rewrite (SplitN2_whole s H). Qed.

Lemma toStrings_range_panics (ss : list string) :
  (exists s, In s ss /\ sep_free s) ->
  forall m, toStrings_range ss m = Panic (IndexOutOfRange 1 1).
Proof.
  induction ss as [|s ss IH]; intros [x [Hin Hx]] m.
  - destruct Hin.
  - destruct (cut "="%char s) as [[k v]|] eqn:E.
    + rewrite (toStrings_range_cons_sep _ _ _ _ _ E). apply IH.
      destruct Hin as [->|Hin]; [|eauto].
      apply cut_none_sep_free in Hx. congruence.
    + apply toStrings_range_cons_whole. now apply cut_none_sep_free.
Qed.

(** With a separator in every label the loop ends, and a key whose
    label is not followed by another label of the same key keeps the
    value of that label. *)
Lemma toStrings_range_done (ss : list string) :
  (forall s, In s ss -> ~ sep_free s) ->
  forall m, exists m', toStrings_range ss m = Done m' /\
    (forall k, (forall s, In s ss -> key_of s <> k) -> m' !! k = m !! k) /\
    (forall (pre : list string) k v post, ss = (pre ++ kv k v :: post)%list -> sep_free k ->
       (forall s, In s post -> key_of s <> k) -> m' !! k = Some v).
Proof.
  induction ss as [|s ss IH]; intros Hall m.
  - exists m. split; [reflexivity|]. split; [reflexivity|].
    intros pre k v post E. destruct pre; discriminate E.
  - destruct (cut "="%char s) as [[k0 v0]|] eqn:E.
    2:{ exfalso. apply (Hall s); [now left|]. now apply cut_none_sep_free. }
    rewrite (toStrings_range_cons_sep _ _ _ _ _ E).
    destruct (IH (fun x Hx => Hall x (or_intror Hx)) (<[k0 := v0]> m)) as [m' [Hm' [Hout Hin]]].
    exists m'. split; [exact Hm'|]. split.
    + intros k Hk. rewrite Hout by (intros x Hx; apply Hk; now right).
      apply lookup_insert_ne. specialize (Hk s (or_introl eq_refl)).
      unfold key_of in Hk. rewrite E in Hk. exact Hk.
    + intros pre k v post Hss Hk Hpost. destruct pre as [|p pre]; simpl in Hss.
      * injection Hss as -> ->. rewrite (cut_kv k v Hk) in E. injection E as <- <-.
        rewrite Hout by exact Hpost. apply lookup_insert_eq.
      * injection Hss as -> ->. now apply (Hin pre k v post).
Qed.

(** C10. A label without '=' makes [toStrings], and with it the
    option built by [WithBossConfig] once its spec step has returned
    nil, panic with "index out of range [1] with length 1" instead of
    returning an error; when every label has an '=', [toStrings]
    returns a map in which each label [k=v], cut at its first '=',
    binds [k] to [v] (a later label with the same key overwrites). *)
Theorem toStrings_panics_without_separator (ss : list string) :
  ((exists s, In s ss /\ sep_free s) ->
     toStrings ss = Panic (IndexOutOfRange 1 1) /\
     forall spec labels ext config,
       Labels config = ss -> spec config = None ->
       WithBossConfig spec labels ext config = Panicked (IndexOutOfRange 1 1)) /\
  ((forall s, In s ss -> ~ sep_free s) ->
     exists m, toStrings ss = Done m /\
       forall (pre : list string) k v post,
         ss = (pre ++ kv k v :: post)%list -> sep_free k ->
         (forall s, In s post -> key_of s <> k) ->
         SplitN2 (kv k v) = [k; v] /\ m !! k = Some v).
Proof.
  split.
  - intros H. pose proof (toStrings_range_panics ss H ∅) as P. split; [exact P|].
    intros spec labels ext config Hl Hs. unfold WithBossConfig.
    rewrite Hs, Hl. unfold toStrings. now rewrite P.
  - intros H. destruct (toStrings_range_done ss H ∅) as [m [Hm [_ Hin]]].
    exists m. split; [exact Hm|]. intros pre k v post E Hk Hpost.
    split; [now apply SplitN2_kv|]. now apply (Hin pre k v post).
Qed.

(** The theorem at two label lists: with the labels a=b and oops both
    [toStrings] and the option of [WithBossConfig] panic, and with the
    single label a=b=c the key [a] is bound to [b=c]. *)
Lemma toStrings_panics_without_separator_witness :
  toStrings ["a=b"; "oops"] = Panic (IndexOutOfRange 1 1) /\
  WithBossConfig (fun _ => None) (fun _ => None) (fun _ => None)
    {| ID := "web1"; Image := "nginx"; Labels := ["a=b"; "oops"] |} =
    Panicked (IndexOutOfRange 1 1) /\
  exists m, toStrings ["a=b=c"] = Done m /\ m !! "a" = Some "b=c".
Proof.
  assert (sep_free "oops") as Hfree.
  { unfold sep_free; simpl. intros H.
    repeat (destruct H as [H|H]; [discriminate H|]). exact H. }
  assert (exists s, In s ["a=b"; "oops"] /\ sep_free s) as Hbad.
  { exists "oops". split; [simpl; tauto|exact Hfree]. }
  destruct (proj1 (toStrings_panics_without_separator ["a=b"; "oops"]) Hbad) as [Hp Hopt].
  split; [exact Hp|]. split.
  - apply Hopt; reflexivity.
  - destruct (proj2 (toStrings_panics_without_separator ["a=b=c"])) as [m [Hm Hk]].
    + intros s [<-|[]]. unfold sep_free; simpl. tauto.
    + exists m. split; [exact Hm|].
      apply (Hk [] "a" "b=c" []); [reflexivity| |intros s []].
      unfold sep_free; simpl. intros H.
      repeat (destruct H as [H|H]; [discriminate H|]). exact H.
Defined.

End ConfigFacts.

(** ** The reconcile pass *)
Module ReconcilerFacts.
Import Runtime Reconciler Samples.

Lemma isSameStatus_actual (desired : ProcessStatus) (c : Container) :
  isSameStatus desired c = String.eqb desired (actualStatus c).
Proof.
  unfold isSameStatus, actualStatus.
  destruct (LoadTask c) as [| |task]; try reflexivity.
  destruct (Task_Status task); reflexivity.
Qed.

(** A turn of the loop only appends. *)
Lemma monitor_visit_appends (changes : list change) (c : Container) :
  monitor_visit changes c = changes ++ changes_of c.
Proof.
  unfold changes_of, monitor_visit.
  destruct (Labels c) as [labels|]; [|now rewrite app_nil_r].
  cbv zeta.
  repeat match goal with
         | |- context [if ?b then _ else _] => destruct b
         end; simpl; try reflexivity; now rewrite app_nil_r.
Qed.

Lemma monitor_fold (cs : list Container) (acc : list change) :
  fold_left monitor_visit cs acc = acc ++ flat_map changes_of cs.
Proof.
  revert acc. induction cs as [|c cs IH]; intros acc; simpl.
  - now rewrite app_nil_r.
  - rewrite IH, monitor_visit_appends. now rewrite <- app_assoc.
Qed.

Lemma monitor_Ok (cs : list Container) : monitor (Ok cs) = Ok (flat_map changes_of cs).
Proof. unfold monitor. now rewrite monitor_fold. Qed.

(** The changes around one container of the listing. *)
Lemma monitor_split (pre post : list Container) (c : Container) :
  monitor (Ok (pre ++ c :: post)) =
  Ok (flat_map changes_of pre ++ changes_of c ++ flat_map changes_of post).
Proof. rewrite monitor_Ok, flat_map_app. reflexivity. Qed.

(** The changes of a container whose labels can be read, by cases on
    the label value. *)
Lemma changes_of_cases (c : Container) (labels : gmap string string) :
  Labels c = Ok labels ->
  changes_of c =
    if String.eqb (label_value labels) (actualStatus c) then []
    else if String.eqb (label_value labels) Running then [startChange c]
    else if String.eqb (label_value labels) Stopped then [stopChange c]
    else if String.eqb (label_value labels) DeleteStatus then [deleteChange c]
    else [].
Proof.
  intros H. unfold changes_of, monitor_visit. rewrite H. cbv zeta.
  rewrite isSameStatus_actual. reflexivity.
Qed.

Lemma carries_value (c : Container) (v : ProcessStatus) :
  carries c v -> exists labels, Labels c = Ok labels /\ label_value labels = v.
Proof.
  intros [labels [H1 H2]]. exists labels. split; [exact H1|].
  unfold label_value, ProcessStatus in *. now rewrite H2.
Qed.

(** C4. For a container that carries the desired-status label with
    value [v]: when [v] differs from the actual status, [monitor]
    returns, at the place of the container, exactly a Start change for
    [running], a Stop change for [stopped], a Delete change for
    [delete]; for any other value it returns no change for it. *)
Theorem monitor_builds_matching_change
  (pre post : list Container) (c : Container) (v : ProcessStatus) :
  carries c v ->
  exists before after,
    monitor (Ok pre) = Ok before /\ monitor (Ok post) = Ok after /\
    (v <> actualStatus c ->
       (v = Running -> monitor (Ok (pre ++ c :: post)) = Ok (before ++ startChange c :: after)) /\
       (v = Stopped -> monitor (Ok (pre ++ c :: post)) = Ok (before ++ stopChange c :: after)) /\
       (v = DeleteStatus -> monitor (Ok (pre ++ c :: post)) = Ok (before ++ deleteChange c :: after))) /\
    (v <> Running -> v <> Stopped -> v <> DeleteStatus ->
       monitor (Ok (pre ++ c :: post)) = Ok (before ++ after)).
Proof.
  intros Hc. destruct (carries_value c v Hc) as [labels [HL Hv]].
  exists (flat_map changes_of pre), (flat_map changes_of post).
  split; [apply monitor_Ok|]. split; [apply monitor_Ok|].
  rewrite monitor_split, (changes_of_cases c labels HL), Hv.
  split.
  - intros Hne. apply String.eqb_neq in Hne. rewrite Hne.
    repeat split; intros ->; reflexivity.
  - intros H1 H2 H3.
    apply String.eqb_neq in H1, H2, H3. rewrite H1, H2, H3.
    destruct (String.eqb v (actualStatus c)); reflexivity.
Qed.

(** The theorem at [web1], labelled [running] and without a task. *)
Lemma monitor_builds_matching_change_witness :
  carries web1 Running /\
  monitor (Ok ([] ++ web1 :: [])) = Ok [startChange web1].
Proof.
  assert (carries web1 Running) as Hc.
  { exists {[ StatusLabel := Running ]}. split; [reflexivity|]. apply lookup_singleton_eq. }
  split; [exact Hc|].
  destruct (monitor_builds_matching_change [] [] web1 Running Hc)
    as [before [after [Hb [Ha [Hd _]]]]].
  injection Hb as <-. injection Ha as <-.
  apply Hd; [discriminate|reflexivity].
Defined.

(** C5. A container whose label value, read in this pass, equals its
    actual status, computed in this pass, is the same to
    [isSameStatus] and adds nothing to the changes [monitor] returns. *)
Theorem monitor_skips_settled_container
  (pre post : list Container) (c : Container) (labels : gmap string string) :
  Labels c = Ok labels ->
  label_value labels = actualStatus c ->
  isSameStatus (label_value labels) c = true /\
  changes_of c = [] /\
  monitor (Ok (pre ++ c :: post)) = monitor (Ok (pre ++ post)).
Proof.
  intros HL Heq.
  assert (changes_of c = []) as Hnone.
  { rewrite (changes_of_cases c labels HL), Heq, String.eqb_refl. reflexivity. }
  split; [|split; [exact Hnone|]].
  - rewrite isSameStatus_actual, Heq. apply String.eqb_refl.
  - rewrite monitor_split, Hnone, monitor_Ok, flat_map_app. reflexivity.
Qed.

(** The theorem at [web2], labelled [running] with a running task. *)
Lemma monitor_skips_settled_container_witness :
  changes_of web2 = [] /\ monitor (Ok ([web1] ++ web2 :: [])) = monitor (Ok ([web1] ++ [])).
Proof.
  apply (monitor_skips_settled_container [web1] [] web2 {[ StatusLabel := Running ]}).
  - reflexivity.
  - unfold label_value. rewrite lookup_singleton_eq. reflexivity.
Defined.

(** C6, as stated, fails at [paused1]: no task, the label reads
    [paused], which is not [stopped], and still no change is produced. *)
Lemma no_change_without_stopped :
  no_task paused1 /\
  carries paused1 "paused" /\
  "paused" <> Stopped /\
  monitor (Ok [paused1]) = Ok [].
Proof.
  split; [intros task; discriminate|].
  split.
  { exists {[ StatusLabel := "paused" ]}. split; [reflexivity|]. apply lookup_singleton_eq. }
  split; [discriminate|].
  rewrite monitor_Ok. simpl. rewrite app_nil_r.
  rewrite (changes_of_cases paused1 {[ StatusLabel := "paused" ]} eq_refl).
  unfold label_value. rewrite lookup_singleton_eq. reflexivity.
Qed.

(** C6, amended. For a container with no runtime task the status
    compared against is Stopped: [isSameStatus] holds exactly for the
    desired status [stopped], never for [running]; and such a container
    produces no change exactly when its label value is neither
    [running] nor [delete], that is [stopped] or an unrecognised
    value. *)
Theorem taskless_container_counts_as_stopped (c : Container) :
  no_task c ->
  actualStatus c = Stopped /\
  (forall desired, isSameStatus desired c = true <-> desired = Stopped) /\
  isSameStatus Running c = false /\
  (forall labels, Labels c = Ok labels ->
     (label_value labels = Stopped -> changes_of c = []) /\
     (label_value labels = Running -> changes_of c = [startChange c]) /\
     (label_value labels = DeleteStatus -> changes_of c = [deleteChange c]) /\
     (changes_of c = [] <->
        label_value labels <> Running /\ label_value labels <> DeleteStatus)).
Proof.
  intros Hno.
  assert (actualStatus c = Stopped) as Ha.
  { unfold actualStatus. destruct (LoadTask c) as [| |task] eqn:E; try reflexivity.
    now destruct (Hno task). }
  split; [exact Ha|]. split; [|split].
  - intros desired. rewrite isSameStatus_actual, Ha. apply String.eqb_eq.
  - rewrite isSameStatus_actual, Ha. reflexivity.
  - intros labels HL. rewrite (changes_of_cases c labels HL), Ha.
    split; [intros ->; reflexivity|].
    split; [intros ->; reflexivity|].
    split; [intros ->; reflexivity|].
    destruct (String.eqb (label_value labels) Stopped) eqn:E1.
    { apply String.eqb_eq in E1. rewrite E1. split; [|reflexivity].
      intros _. split; discriminate. }
    destruct (String.eqb (label_value labels) Running) eqn:E2.
    { apply String.eqb_eq in E2. split; [discriminate|]. intros [H _]. now destruct H. }
    destruct (String.eqb (label_value labels) DeleteStatus) eqn:E3.
    { apply String.eqb_eq in E3. split; [discriminate|]. intros [_ H]. now destruct H. }
    apply String.eqb_neq in E2, E3. split; [|reflexivity]. intros _. now split.
Qed.

(** The theorem at [web1], which has no task. *)
Lemma taskless_container_counts_as_stopped_witness :
  no_task web1 /\ actualStatus web1 = Stopped /\ isSameStatus Running web1 = false.
Proof.
  assert (no_task web1) as H by (intros task; discriminate).
  split; [exact H|].
  destruct (taskless_container_counts_as_stopped web1 H) as [Ha [_ [Hr _]]].
  split; [exact Ha|exact Hr].
Defined.

End ReconcilerFacts.

(** ** [stopContainers] *)
Module StopFacts.
Import Runtime StopContainers Samples.

Lemma finished_advance (w : worker) (pc : unit_pc) (a : action) :
  finished (advance w pc a) = finished w.
Proof. reflexivity. Qed.

Lemma unit_step_finished (w w' : worker) : unit_step w = Some w' -> finished w' = finished w.
Proof.
  unfold unit_step. destruct (w_pc w); intros H; inversion H; apply finished_advance.
Qed.

(** A step of a unit extends its history as [unit_calls] says. *)
Lemma unit_step_ok (w w' : worker) : unit_ok w -> unit_step w = Some w' -> unit_ok w'.
Proof.
  unfold unit_step, unit_ok. destruct w as [id task pc did]; simpl.
  destruct pc; simpl; intros Hok H; inversion H; subst; clear H; simpl.
  - unfold unit_calls. destruct (Task_Kill task) eqn:E; simpl; [reflexivity|].
    split; reflexivity.
  - destruct Hok as [Hk ->]. unfold unit_calls. rewrite Hk.
    destruct (Task_select task) eqn:E; simpl; [|reflexivity].
    repeat split; reflexivity.
  - destruct Hok as [Hk [Hs ->]]. unfold unit_calls. rewrite Hk, Hs. reflexivity.
Qed.

Lemma unit_done_finished (w : worker) : unit_ok w -> w_pc w = UnitDone -> w = finished w.
Proof.
  destruct w as [id task pc did]. unfold unit_ok, finished. simpl.
  intros H ->. now rewrite H.
Qed.

Lemma unit_step_in_flight (w : worker) : in_flight w = true -> exists w', unit_step w = Some w'.
Proof.
  unfold in_flight, unit_step. destruct (w_pc w); intros H; try discriminate H; eauto.
Qed.

Lemma unit_step_left (w w' : worker) :
  unit_step w = Some w' -> (unit_left w' < unit_left w)%nat /\ in_flight w = true.
Proof.
  unfold unit_step, unit_left, in_flight. destruct w as [id task pc did]; simpl.
  destruct pc; intros H; inversion H; subst; simpl.
  - destruct (Task_Kill task); simpl; split; (lia || reflexivity).
  - destruct (Task_select task); simpl; split; (lia || reflexivity).
  - split; (lia || reflexivity).
Qed.

Lemma flying_app (ws vs : list worker) : flying (ws ++ vs) = (flying ws + flying vs)%nat.
Proof.
  induction ws as [|w ws IH]; simpl; [reflexivity|].
  rewrite IH. destruct (in_flight w); reflexivity.
Qed.

Lemma units_left_app (ws vs : list worker) :
  units_left (ws ++ vs) = (units_left ws + units_left vs)%nat.
Proof. induction ws as [|w ws IH]; simpl; [reflexivity|]. rewrite IH. lia. Qed.

Lemma flying_insert (ws : list worker) (i : nat) (w w' : worker) :
  ws !! i = Some w ->
  (flying (<[i := w']> ws) + (if in_flight w then 1 else 0) =
   flying ws + (if in_flight w' then 1 else 0))%nat.
Proof.
  revert i. induction ws as [|x ws IH]; intros [|i] H; simpl in *; try discriminate H.
  - injection H as ->. destruct (in_flight w), (in_flight w'); lia.
  - specialize (IH i H). destruct (in_flight x); lia.
Qed.

Lemma units_left_insert (ws : list worker) (i : nat) (w w' : worker) :
  ws !! i = Some w ->
  (units_left (<[i := w']> ws) + unit_left w = units_left ws + unit_left w')%nat.
Proof.
  revert i. induction ws as [|x ws IH]; intros [|i] H; simpl in *; try discriminate H.
  - injection H as ->. lia.
  - specialize (IH i H). lia.
Qed.

Lemma map_finished_insert (ws : list worker) (i : nat) (w w' : worker) :
  ws !! i = Some w -> finished w' = finished w ->
  map finished (<[i := w']> ws) = map finished ws.
Proof.
  revert i. induction ws as [|x ws IH]; intros [|i] H E; simpl in *; try discriminate H.
  - injection H as ->. now rewrite E.
  - now rewrite (IH i H E).
Qed.

(** With units in flight, one of them can step. *)
Lemma flying_pos_lookup (ws : list worker) :
  (0 < flying ws)%nat -> exists i w, ws !! i = Some w /\ in_flight w = true.
Proof.
  induction ws as [|x ws IH]; simpl; [lia|].
  destruct (in_flight x) eqn:E.
  - intros _. exists 0%nat, x. now split.
  - intros H. destruct (IH H) as [i [w [Hi Hw]]]. exists (S i), w. now split.
Qed.

Lemma flying_zero_done (ws : list worker) :
  flying ws = 0%nat -> Forall (fun w => w_pc w = UnitDone) ws.
Proof.
  induction ws as [|x ws IH]; simpl; intros H; [constructor|].
  destruct (in_flight x) eqn:E; [discriminate H|].
  constructor; [|now apply IH].
  unfold in_flight in E. destruct (w_pc x); (reflexivity || discriminate E).
Qed.

Lemma all_done_finished (ws : list worker) :
  Forall unit_ok ws -> Forall (fun w => w_pc w = UnitDone) ws -> ws = map finished ws.
Proof.
  induction ws as [|x ws IH]; intros Hok Hd; [reflexivity|].
  inversion Hok; inversion Hd; subst. simpl.
  rewrite <- (unit_done_finished x), <- IH; auto.
Qed.

Lemma launched_app (cs ds : list Container) : launched (cs ++ ds) = launched cs ++ launched ds.
Proof. apply flat_map_app. Qed.

Lemma stop_inv_init (listing : result (list Container)) : stop_inv listing (stop_init listing).
Proof. repeat split; constructor. Qed.

Lemma stop_main_inv listing (st st' : stopping) :
  stop_inv listing st -> stop_main st = Some st' -> stop_inv listing st'.
Proof.
  unfold stop_inv, stop_main. destruct st as [pc ws wg]; simpl.
  intros [Hok [Hwg Hpc]] H. destruct pc as [[cs|e]|[|c rest]| |err].
  - inversion H; subst; simpl. destruct Hpc as [<- ->].
    repeat split; auto. exists []. split; reflexivity.
  - inversion H; subst; simpl. destruct Hpc as [<- ->]. repeat split; auto.
  - inversion H; subst; simpl. destruct Hpc as [seen [-> Hm]].
    repeat split; auto. exists seen. rewrite app_nil_r. now split.
  - destruct Hpc as [seen [-> Hm]].
    assert (exists seen', Ok (seen ++ c :: rest) = Ok (seen' ++ rest) /\
                          launched seen' = launched seen ++ launched [c]) as Hseen.
    { exists (seen ++ [c]). rewrite <- app_assoc. split; [reflexivity|apply launched_app]. }
    destruct Hseen as [seen' [Hl Hs]].
    unfold launched at 3 in Hs. simpl in Hs. unfold live in Hs.
    destruct (LoadTask c) as [| |task] eqn:E.
    + inversion H; subst; simpl. repeat split; auto. exists seen'.
      split; [exact Hl|]. rewrite Hs, app_nil_r. exact Hm.
    + inversion H; subst; simpl. repeat split; auto. exists seen'.
      split; [exact Hl|]. rewrite Hs, app_nil_r. exact Hm.
    + destruct (Task_Wait task) eqn:Ew.
      * inversion H; subst; simpl. repeat split; auto. exists seen'.
        split; [exact Hl|]. rewrite Hs, app_nil_r. exact Hm.
      * inversion H; subst; simpl. split; [|split].
        -- apply Forall_app. split; [exact Hok|]. repeat constructor.
        -- rewrite flying_app. simpl. lia.
        -- exists seen'. split; [exact Hl|]. rewrite Hs, !map_app, Hm. reflexivity.
  - destruct (Z.eqb wg 0) eqn:E; inversion H; subst; simpl.
    apply Z.eqb_eq in E. repeat split; auto.
  - discriminate H.
Qed.

Lemma stop_unit_inv listing (i : nat) (st st' : stopping) :
  stop_inv listing st -> stop_unit i st = Some st' -> stop_inv listing st'.
Proof.
  unfold stop_inv, stop_unit. destruct st as [pc ws wg]; simpl.
  intros [Hok [Hwg Hpc]] H.
  destruct (ws !! i) as [w|] eqn:Hi; [|discriminate H].
  destruct (unit_step w) as [w'|] eqn:Hs; [|discriminate H].
  inversion H; subst; clear H; simpl.
  assert (unit_ok w) as Hw.
  { exact (Forall_lookup_1 _ _ _ _ Hok Hi). }
  pose proof (unit_step_ok w w' Hw Hs) as Hw'.
  pose proof (unit_step_finished w w' Hs) as Hf.
  pose proof (map_finished_insert ws i w w' Hi Hf) as Hm.
  pose proof (flying_insert ws i w w' Hi) as Hfl.
  destruct (unit_step_left w w' Hs) as [_ Hin]. rewrite Hin in Hfl.
  split; [|split].
  - now apply Forall_insert.
  - unfold in_flight in Hfl. destruct (w_pc w'); lia.
  - destruct pc as [l|pending| |[e|]]; rewrite ?Hm; auto.
    + destruct Hpc as [_ ->]. discriminate Hi.
    + destruct Hpc as [_ ->]. discriminate Hi.
    + destruct Hpc as [Hz Hcs]. exfalso.
      assert (0 < flying ws)%nat; [|lia].
      clear -Hi Hin. revert i Hi. induction ws as [|x ws IH]; intros [|i] Hi;
        simpl in *; try discriminate Hi.
      * injection Hi as ->. rewrite Hin. lia.
      * specialize (IH i Hi). destruct (in_flight x); lia.
Qed.

Lemma stop_step_inv listing (t : stop_thread) (st st' : stopping) :
  stop_inv listing st -> stop_step t st = Some st' -> stop_inv listing st'.
Proof. destruct t; [apply stop_main_inv|apply stop_unit_inv]. Qed.

Lemma stop_exec_inv listing (sched : list stop_thread) :
  forall st st', stop_inv listing st -> stop_exec sched st = Some st' -> stop_inv listing st'.
Proof.
  induction sched as [|t sched IH]; simpl; intros st st' Hinv H.
  - now inversion H; subst.
  - destruct (stop_step t st) as [st1|] eqn:E; [|discriminate H].
    apply (IH st1); [|exact H]. now apply (stop_step_inv listing t st).
Qed.

(** Every step brings the return nearer. *)
Lemma stop_step_left (t : stop_thread) (st st' : stopping) :
  stop_step t st = Some st' -> (stop_left st' < stop_left st)%nat.
Proof.
  destruct t as [|i]; simpl.
  - unfold stop_main, stop_left. destruct st as [pc ws wg]; simpl.
    destruct pc as [[cs|e]|[|c rest]| |err]; intros H; try discriminate H.
    + inversion H; subst; simpl. lia.
    + inversion H; subst; simpl. lia.
    + inversion H; subst; simpl. lia.
    + destruct (LoadTask c) as [| |task]; [| |destruct (Task_Wait task)];
        inversion H; subst; simpl; rewrite ?units_left_app; simpl; lia.
    + destruct (Z.eqb wg 0); inversion H; subst; simpl. lia.
  - unfold stop_unit, stop_left. destruct st as [pc ws wg]; simpl.
    destruct (ws !! i) as [w|] eqn:Hi; [|discriminate].
    destruct (unit_step w) as [w'|] eqn:Hs; [|discriminate].
    intros H. inversion H; subst; simpl.
    pose proof (units_left_insert ws i w w' Hi).
    destruct (unit_step_left w w' Hs). lia.
Qed.

(** Until it has returned, [stopContainers] or one of its units can
    step: [wg.Wait()] never blocks for good. *)
Lemma stop_progress listing (st : stopping) :
  stop_inv listing st ->
  (forall err, s_pc st <> Returned err) ->
  exists t st', stop_step t st = Some st'.
Proof.
  intros [Hok [Hwg Hpc]] Hnot. destruct st as [pc ws wg]; simpl in *.
  destruct pc as [[cs|e]|[|c rest]| |err].
  - exists Main. simpl. unfold stop_main. simpl. eauto.
  - exists Main. simpl. unfold stop_main. simpl. eauto.
  - exists Main. simpl. unfold stop_main. simpl. eauto.
  - exists Main. simpl. unfold stop_main. simpl.
    destruct (LoadTask c) as [| |task]; [| |destruct (Task_Wait task)]; eauto.
  - destruct (flying ws) as [|n] eqn:E.
    + exists Main. simpl. unfold stop_main. simpl. subst wg. simpl. eauto.
    + destruct (flying_pos_lookup ws) as [i [w [Hi Hw]]]; [lia|].
      destruct (unit_step_in_flight w Hw) as [w' Hs].
      exists (Unit i). simpl. unfold stop_unit. simpl. rewrite Hi, Hs. eauto.
  - now destruct (Hnot err).
Qed.

(** A unit never sends another signal than SIGTERM. *)
Lemma unit_ok_sigterm (w : worker) (sig : signal) (err : option error) :
  unit_ok w -> In (Kill sig err) (w_did w) -> sig = SIGTERM.
Proof.
  unfold unit_ok, unit_calls. destruct (w_pc w).
  - intros ->. intros [].
  - intros [_ ->]. simpl. intros [H|[]]. now inversion H.
  - intros [_ [_ ->]]. simpl. intros [H|[H|[]]]; now inversion H.
  - intros ->. destruct (Task_Kill (w_task w)); [|destruct (Task_select (w_task w))];
      simpl; intuition (try discriminate); match goal with H : Kill _ _ = Kill _ _ |- _ => now inversion H end.
Qed.

Lemma launched_In (cs : list Container) (c : Container) (task : Task) :
  In c cs -> LoadTask c = Loaded task -> Task_Wait task = None ->
  In (spawn c task) (launched cs).
Proof.
  intros Hin Hl Hw. unfold launched. apply in_flat_map. exists c. split; [exact Hin|].
  unfold live. rewrite Hl, Hw. now left.
Qed.

End StopFacts.

(** ** [Run], [Stop] and [Shutdown] *)
Module LifecycleFacts.
Import Runtime Reconciler StopContainers Lifecycle Samples StopFacts.

Section World.
Variable w : world.

Lemma exec_app (a b : list thread) (s : system) :
  exec w (a ++ b) s = match exec w a s with Some s' => exec w b s' | None => None end.
Proof.
  revert s. induction a as [|t a IH]; intros s; simpl; [reflexivity|].
  destruct (step w t s); [apply IH|reflexivity].
Qed.

Lemma exec_cons (t : thread) (sched : list thread) (s s1 : system) (r : option system) :
  step w t s = Some s1 -> exec w sched s1 = r -> exec w (t :: sched) s = r.
Proof. intros H1 H2. simpl. now rewrite H1. Qed.

Lemma exec_invariant (P : system -> Prop) :
  (forall t s s', P s -> step w t s = Some s' -> P s') ->
  forall sched s s', P s -> exec w sched s = Some s' -> P s'.
Proof.
  intros Hstep. induction sched as [|t sched IH]; simpl; intros s s' HP H.
  - now inversion H; subst.
  - destruct (step w t s) as [s1|] eqn:E; [|discriminate H].
    apply (IH s1); [|exact H]. now apply (Hstep t s).
Qed.

(** Splits a step into the cases of the step function. *)
Ltac step_cases H :=
  unfold step, run_step, caller_step, unit_turn, close_ch in H; simpl in H;
  repeat match type of H with
         | context [match ?x with _ => _ end] => destruct x eqn:?; simpl in H
         end;
  try discriminate H; inversion H; subst; clear H; simpl in *.

(** Evaluates the steps in the goal. *)
Ltac run_steps :=
  repeat (unfold step, run_step, caller_step, unit_turn, close_ch,
            with_run, with_caller, with_mu, with_tick, with_todo; simpl).

Lemma wf_init (prog : list call) : wf (init prog).
Proof.
  unfold wf, mu_ok, init; simpl. repeat split; auto; discriminate.
Qed.

Lemma wf_step (t : thread) (s s' : system) : wf s -> step w t s = Some s' -> wf s'.
Proof.
  intros [[Hmu Hex] [Hexit [Hcr Hst]]] H.
  destruct s as [ch m cr rpc tk cpc td lg]; simpl in *.
  unfold wf, mu_ok, shutting_down in *; simpl in *.
  destruct t as [| |i].
  - step_cases H; subst;
      repeat split; auto; try discriminate; try congruence;
      destruct cpc; simpl in *; congruence.
  - step_cases H; subst;
      repeat split; auto; try discriminate; try congruence;
      try (destruct rpc; simpl in *; congruence);
      intros name0 st0 rest0 E; inversion E; subst;
      first [ eexists; apply stop_inv_init
            | destruct (Hst _ _ _ eq_refl) as [lst Hinv]; exists lst;
              eapply stop_main_inv; eassumption ].
  - step_cases H; subst;
      repeat split; auto; try discriminate; try congruence;
      try (destruct rpc; simpl in *; congruence).
    intros name0 st0 rest0 E; inversion E; subst.
    destruct (Hst _ _ _ eq_refl) as [lst Hinv]. exists lst.
    eapply stop_unit_inv; eassumption.
Qed.

Lemma wf_exec (sched : list thread) (s s' : system) :
  wf s -> exec w sched s = Some s' -> wf s'.
Proof. apply (exec_invariant wf). intros t a b. apply wf_step. Qed.

Lemma wf_reachable (prog : list call) (sched : list thread) (s : system) :
  exec w sched (init prog) = Some s -> wf s.
Proof. apply wf_exec, wf_init. Qed.

(** *** The steps of [Run] alone *)

Lemma repeat_add (n m : nat) : repeat TRun (n + m) = repeat TRun n ++ repeat TRun m.
Proof. apply repeat_app. Qed.

(** From inside the loop over the namespaces to the next sleep. *)
Lemma run_pass_rest (ns : list Namespace) (s : system) :
  run s = AtPass ns -> crashed s = None ->
  exec w (repeat TRun (2 + length ns)) s =
  Some {| shutdownCh := shutdownCh s; mu := None; crashed := None;
          run := AtSleep; tick := tick s; caller := caller s; todo := todo s;
          log := log s ++ flat_map pass_events ns ++ [Unlocked RunLoop] |}.
Proof.
  revert s. induction ns as [|n ns IH]; intros s Hrun Hcr.
  - destruct s as [ch m cr rpc tk cpc td lg]; simpl in *. subst.
    run_steps. now rewrite app_nil_r.
  - change (repeat TRun (2 + length (n :: ns))) with (TRun :: repeat TRun (2 + length ns)).
    cbn [exec]. destruct s as [ch m cr rpc tk cpc td lg]; simpl in Hrun, Hcr. subst.
    unfold step at 1, run_step, with_run; cbn [crashed run].
    rewrite IH by reflexivity. cbn. now rewrite <- !app_assoc.
Qed.

(** A whole iteration with the channel open. *)
Lemma run_iteration_open (s : system) :
  run s = AtSleep -> mu s = None -> crashed s = None -> shutdownCh s = Open ->
  exec w (repeat TRun (iteration_steps (passes w (tick s)))) s =
  Some {| shutdownCh := Open; mu := None; crashed := None;
          run := AtSleep; tick := S (tick s); caller := caller s; todo := todo s;
          log := log s ++ [Slept (effective (interval w)); Locked RunLoop] ++
                 reconcile_events (passes w (tick s)) ++ [Unlocked RunLoop] |}.
Proof.
  intros Hrun Hmu Hcr Hch.
  destruct s as [ch m cr rpc tk cpc td lg]; simpl in *. subst.
  unfold iteration_steps, reconcile_events. destruct (passes w tk) as [ns|e] eqn:E.
  - change (6 + length ns)%nat with (4 + (2 + length ns))%nat.
    rewrite repeat_add, exec_app.
    match goal with
    | |- match exec w _ ?s0 with _ => _ end = _ =>
        assert (exec w (repeat TRun 4) s0 =
                Some {| shutdownCh := Open; mu := Some RunLoop; crashed := None;
                        run := AtPass ns; tick := S tk; caller := cpc; todo := td;
                        log := lg ++ [Slept (effective (interval w)); Locked RunLoop] |})
          as ->
    end.
    { run_steps. rewrite E. run_steps. rewrite !app_nil_r, <- !app_assoc. reflexivity. }
    rewrite run_pass_rest by reflexivity. cbn. rewrite <- !app_assoc. reflexivity.
  - run_steps. rewrite E. run_steps. rewrite <- !app_assoc. reflexivity.
Qed.

(** The iteration that finds the channel closed. *)
Lemma run_iteration_closed (s : system) :
  run s = AtSleep -> mu s = None -> crashed s = None -> shutdownCh s = Closed ->
  exec w [TRun; TRun; TRun] s =
  Some {| shutdownCh := Closed; mu := Some RunLoop; crashed := None;
          run := Exited; tick := tick s; caller := caller s; todo := todo s;
          log := log s ++ [Slept (effective (interval w)); Locked RunLoop;
                           Logged "ending reconcile loop for shutdown"] |}.
Proof.
  intros Hrun Hmu Hcr Hch.
  destruct s as [ch m cr rpc tk cpc td lg]; simpl in *. subst.
  run_steps. rewrite <- !app_assoc. reflexivity.
Qed.

(** Once [Run] has returned it stays so, whatever else steps. *)
Lemma exited_step (t : thread) (s s' : system) :
  run s = Exited -> step w t s = Some s' -> run s' = Exited.
Proof.
  intros Hrun H. destruct s as [ch m cr rpc tk cpc td lg]; simpl in *. subst.
  destruct t; step_cases H; reflexivity.
Qed.

Lemma exited_exec (sched : list thread) (s s' : system) :
  run s = Exited -> exec w sched s = Some s' -> run s' = Exited.
Proof. apply (exec_invariant (fun s => run s = Exited)). intros t a b. apply exited_step. Qed.

(** C1, amended. An iteration of [Run] that wakes with the mutex free:
    when the channel has been closed it takes the mutex and returns for
    good, having entered neither [Shutdown] nor a reconcile pass; when
    the channel is open it takes the mutex, makes one reconcile pass
    (the changes of each namespace applied in order), releases the
    mutex and is back at its sleep, which lasts the interval, ten
    seconds when the interval is zero. *)
Theorem run_iteration (s : system) :
  run s = AtSleep -> mu s = None -> crashed s = None ->
  (shutdownCh s = Closed ->
     exists s' evs,
       exec w [TRun; TRun; TRun] s = Some s' /\
       run s' = Exited /\
       log s' = log s ++ evs /\ In (Locked RunLoop) evs /\
       ~ entered_shutdown evs /\ (forall ns c, ~ In (Applied ns c) evs) /\
       tick s' = tick s /\ caller s' = caller s /\ todo s' = todo s /\
       forall sched s'', exec w sched s' = Some s'' -> run s'' = Exited) /\
  (shutdownCh s = Open ->
     exists s',
       exec w (repeat TRun (iteration_steps (passes w (tick s)))) s = Some s' /\
       run s' = AtSleep /\ mu s' = None /\ tick s' = S (tick s) /\
       log s' = log s ++ [Slept (effective (interval w)); Locked RunLoop] ++
                reconcile_events (passes w (tick s)) ++ [Unlocked RunLoop]) /\
  (interval w = 0%Z -> effective (interval w) = (10 * 1000000000)%Z).
Proof.
  intros Hrun Hmu Hcr. split; [|split].
  - intros Hch. eexists. eexists.
    split; [now apply run_iteration_closed|]. cbn.
    split; [reflexivity|]. split; [reflexivity|].
    split; [now right; left|].
    split.
    { unfold entered_shutdown. simpl. intros [H|[H|[H|[]]]]; discriminate H. }
    split.
    { intros ns c. simpl. intros [H|[H|[H|[]]]]; discriminate H. }
    repeat split. intros sched s''. now apply exited_exec.
  - intros Hch. eexists. split; [now apply run_iteration_open|].
    cbn. repeat split.
  - intros ->. reflexivity.
Qed.

(** C8. When [Run] finds the channel closed at its select it returns
    with the mutex still locked; and once [Run] has returned the mutex
    stays locked by it in every later state, so that a [Shutdown]
    waiting in [m.mu.Lock()] can never step and waits there for ever. *)
Theorem run_returns_holding_the_mutex
  (prog : list call) (sched : list thread) (s : system) :
  exec w sched (init prog) = Some s ->
  (run s = AtSelectCh -> shutdownCh s = Closed -> crashed s = None ->
     exists s', step w TRun s = Some s' /\ run s' = Exited /\ mu s' = Some RunLoop) /\
  (run s = Exited ->
     mu s = Some RunLoop /\
     forall sched' s', exec w sched' s = Some s' ->
       run s' = Exited /\ mu s' = Some RunLoop /\
       (forall answers, caller s' = ShLock answers -> step w TCaller s' = None) /\
       (forall answers, caller s = ShLock answers -> caller s' = ShLock answers)).
Proof.
  intros Hreach. pose proof (wf_reachable prog sched s Hreach) as Hwf.
  assert (forall x, wf x -> run x = Exited -> mu x = Some RunLoop) as Hheld.
  { intros x [[Hm _] _] E. rewrite Hm, E. reflexivity. }
  split.
  - intros Hrun Hch Hcr. destruct Hwf as [[Hm _] _].
    destruct s as [ch m cr rpc tk cpc td lg]; simpl in *. subst.
    simpl in Hm. eexists. split; [run_steps; reflexivity|]. split; [reflexivity|exact Hm].
  - intros Hrun. split; [now apply Hheld|].
    intros sched' s' Hexec.
    pose proof (exited_exec sched' s s' Hrun Hexec) as Hrun'.
    pose proof (Hheld s' (wf_exec sched' s s' Hwf Hexec) Hrun') as Hmu'.
    split; [exact Hrun'|]. split; [exact Hmu'|]. split.
    + intros answers Hc. destruct s' as [ch m cr rpc tk cpc td lg]; simpl in *. subst.
      unfold step; simpl. now destruct cr.
    + intros answers Hc.
      apply (exec_invariant
               (fun x => run x = Exited /\ wf x /\ caller x = ShLock answers))
        with (s := s) (s' := s') (sched := sched'); [|cbv beta; auto|exact Hexec].
      intros t a b [Ha [Hwfa Hca]] Hstep.
      split; [now apply (exited_step t a)|]. split; [now apply (wf_step t a)|].
      pose proof (Hheld a Hwfa Ha) as Hma.
      destruct a as [ch m cr rpc tk cpc td lg]; simpl in *. subst.
      destruct t; step_cases Hstep; reflexivity.
Qed.


(** *** The steps of [Shutdown] and its units *)

(** A step of [Run] leaves the caller alone. *)
Lemma run_step_frame (s s' : system) :
  step w TRun s = Some s' ->
  caller s' = caller s /\ todo s' = todo s /\ shutdownCh s' = shutdownCh s /\
  crashed s' = crashed s /\ (forall e, In e (log s) -> In e (log s')).
Proof.
  intros H. destruct s as [ch m cr rpc tk cpc td lg]; simpl in *.
  step_cases H; repeat split; auto; intros ev Hev; apply in_or_app; now left.
Qed.

(** The calls still to make only shrink, and only when a call begins. *)
Lemma todo_step (t : thread) (s s' : system) :
  step w t s = Some s' ->
  (caller s = Idle /\ t = TCaller /\ length (todo s') < length (todo s))%nat \/
  (caller s <> Idle \/ t = TRun) /\ todo s' = todo s.
Proof.
  intros H. destruct s as [ch m cr rpc tk cpc td lg]; simpl in *.
  destruct t; step_cases H;
    try (right; split; [|reflexivity]; try (now right); left; discriminate);
    left; repeat split; simpl; lia.
Qed.

Lemma todo_exec (sched : list thread) :
  forall s s', exec w sched s = Some s' -> (length (todo s') <= length (todo s))%nat.
Proof.
  induction sched as [|t sched IH]; simpl; intros s s' H.
  - inversion H; subst. lia.
  - destruct (step w t s) as [s1|] eqn:E; [|discriminate H].
    specialize (IH s1 s' H).
    destruct (todo_step t s s1 E) as [[_ [_ Hlt]]|[_ Heq]]; [lia|]. rewrite <- Heq. exact IH.
Qed.

(** Every step of the caller inside [Shutdown], and every step of a
    unit, brings the end of the call nearer. *)
Lemma call_left_step (t : thread) (s s' : system) :
  step w t s = Some s' -> t <> TRun -> caller s <> Idle ->
  (call_left (caller s') < call_left (caller s))%nat.
Proof.
  intros H Ht Hc. destruct s as [ch m cr rpc tk cpc td lg]; simpl in *.
  destruct t as [| |i]; [now destruct Ht| |].
  - unfold step, caller_step, close_ch in H; simpl in H.
    destruct cr; [discriminate H|].
    destruct cpc as [|a|[ns|e]|[|n rest]|name st rest| | |]; simpl in H;
      try (now destruct Hc); try discriminate H.
    + destruct m; inversion H; subst; simpl. destruct a; simpl; lia.
    + inversion H; subst; simpl. lia.
    + inversion H; subst; simpl. lia.
    + inversion H; subst; simpl. lia.
    + inversion H; subst; simpl. lia.
    + destruct (s_pc st) as [l|p| |[e|]] eqn:Epc.
      * destruct (stop_main st) as [st'|] eqn:Em; inversion H; subst; simpl.
        pose proof (stop_step_left Main st st' Em). lia.
      * destruct (stop_main st) as [st'|] eqn:Em; inversion H; subst; simpl.
        pose proof (stop_step_left Main st st' Em). lia.
      * destruct (stop_main st) as [st'|] eqn:Em; inversion H; subst; simpl.
        pose proof (stop_step_left Main st st' Em). lia.
      * inversion H; subst; simpl. lia.
      * inversion H; subst; simpl. lia.
    + destruct ch; inversion H; subst; simpl; lia.
    + inversion H; subst; simpl. lia.
  - unfold step, unit_turn in H; simpl in H.
    destruct cr; [discriminate H|].
    destruct cpc; simpl in H; try discriminate H.
    destruct (stop_unit i st) as [st'|] eqn:Eu; inversion H; subst; simpl.
    pose proof (stop_step_left (Unit i) st st' Eu). lia.
Qed.

(** So a call takes at most [call_left] steps of the caller and the
    units, however the goroutines are scheduled. *)
Lemma call_bounded (sched : list thread) :
  forall s s', exec w sched s = Some s' -> todo s' = todo s ->
    (sd_steps sched + call_left (caller s') <= call_left (caller s))%nat.
Proof.
  induction sched as [|t sched IH]; simpl; intros s s' H Htodo.
  - inversion H; subst. lia.
  - destruct (step w t s) as [s1|] eqn:E; [|discriminate H].
    pose proof (todo_exec sched s1 s' H) as Hle.
    destruct (todo_step t s s1 E) as [[_ [_ Hlt]]|[Hwho Heq]].
    { rewrite Htodo in Hle. lia. }
    assert (todo s' = todo s1) as Htodo1 by congruence.
    specialize (IH s1 s' H Htodo1).
    destruct t as [| |i].
    + destruct (run_step_frame s s1 E) as [Hsame _]. rewrite Hsame in IH. exact IH.
    + destruct Hwho as [Hc|Hc]; [|discriminate Hc].
      pose proof (call_left_step TCaller s s1 E ltac:(discriminate) Hc). lia.
    + assert (caller s <> Idle) as Hc.
      { intros Hi. unfold step, unit_turn in E. rewrite Hi in E.
        destruct (crashed s); discriminate E. }
      pose proof (call_left_step (TUnit i) s s1 E ltac:(discriminate) Hc). lia.
Qed.

(** During a call that began with the channel open, nothing panics and
    the channel is closed by that call, at its end. *)
Lemma call_inv_step (k : nat) (t : thread) (s s' : system) :
  call_inv k s -> step w t s = Some s' -> call_inv k s'.
Proof.
  unfold call_inv. intros [Hlt|[Hk [Hcr Hc]]] H.
  - left. pose proof (todo_exec [t] s s') as Hle. simpl in Hle. rewrite H in Hle.
    specialize (Hle eq_refl). lia.
  - destruct s as [ch m cr rpc tk cpc td lg]; simpl in *. subst cr.
    destruct t as [| |i].
    + right. step_cases H; repeat split; auto;
        destruct cpc; try exact Hc; destruct Hc as [Hc1 Hc2]; split; auto;
        apply in_or_app; now left.
    + unfold step, caller_step, close_ch in H; simpl in H.
      destruct cpc as [|a|[ns|e]|[|n rest]|name st rest| | |]; simpl in H.
      * destruct Hc as [-> Hc2]. left.
        destruct td as [|[|a] rest]; inversion H; subst; simpl in *; lia.
      * destruct m; inversion H; subst; simpl. right. repeat split; auto.
      * inversion H; subst; simpl. right. repeat split; auto.
      * inversion H; subst; simpl. right. repeat split; auto.
      * inversion H; subst; simpl. right. repeat split; auto.
      * inversion H; subst; simpl. right. repeat split; auto.
      * right. destruct (s_pc st) as [l|p| |[e|]]; [..|inversion H|inversion H];
          try (destruct (stop_main st); inversion H); subst; simpl; repeat split; auto.
      * subst ch. inversion H; subst; simpl. right. repeat split; auto.
        apply in_or_app. right. now left.
      * inversion H; subst; simpl. right. destruct Hc as [Hc1 Hc2].
        repeat split; auto. apply in_or_app. now left.
      * destruct Hc.
    + unfold step, unit_turn in H; simpl in H.
      destruct cpc; simpl in H; try discriminate H.
      destruct (stop_unit i st); inversion H; subst; simpl. right. repeat split; auto.
Qed.

Lemma call_inv_exec (k : nat) (sched : list thread) (s s' : system) :
  call_inv k s -> exec w sched s = Some s' -> call_inv k s'.
Proof. apply (exec_invariant (call_inv k)). intros t a b. apply call_inv_step. Qed.

(** Inside [Shutdown], the caller or one of the units can step, unless
    the caller waits for the mutex and [Run] holds it. *)
Lemma call_progress (s : system) :
  wf s -> crashed s = None -> caller s <> Idle -> caller s <> Unwound ->
  (exists t s', t <> TRun /\ step w t s = Some s') \/
  (exists answers, caller s = ShLock answers /\ mu s = Some RunLoop).
Proof.
  intros [[Hm Hex] [_ [_ Hst]]] Hcr Hi Hu.
  destruct s as [ch m cr rpc tk cpc td lg]; simpl in *. subst cr.
  unfold shutting_down in *; simpl in *.
  destruct cpc as [|a|[ns|e]|[|n rest]|name st rest| | |];
    try (now destruct Hi); try (now destruct Hu);
    try (left; exists TCaller; eexists; split; [discriminate|reflexivity]).
  - destruct (run_inside rpc); subst m.
    + right. exists a. now split.
    + left. exists TCaller. eexists. split; [discriminate|reflexivity].
  - destruct (Hst _ _ _ eq_refl) as [lst Hinv]. left.
    destruct (s_pc st) as [l|p| |err] eqn:Epc.
    4:{ exists TCaller. unfold step, caller_step; simpl. rewrite Epc.
        destruct err; eexists; (split; [discriminate|reflexivity]). }
    all: destruct (stop_progress lst st Hinv) as [t [st' Ht]];
      [intros err; rewrite Epc; discriminate|];
      destruct t as [|i]; simpl in Ht;
      [ exists TCaller; unfold step, caller_step; simpl; rewrite Epc, Ht
      | exists (TUnit i); unfold step, unit_turn; simpl; rewrite Ht ];
      eexists; (split; [discriminate|reflexivity]).
Qed.

(** From inside a reconcile pass [Run] gets to its sleep, the mutex
    released, by steps of its own. *)
Lemma run_to_sleep (s : system) :
  crashed s = None ->
  run s = AtNamespaces \/ (exists ns, run s = AtPass ns) \/ run s = AtUnlock ->
  exists n s',
    exec w (repeat TRun n) s = Some s' /\ run s' = AtSleep /\ mu s' = None /\
    crashed s' = None /\ shutdownCh s' = shutdownCh s /\
    caller s' = caller s /\ todo s' = todo s.
Proof.
  intros Hcr Hrun.
  assert (forall x ns, crashed x = None -> run x = AtPass ns ->
            exists n s', exec w (repeat TRun n) x = Some s' /\ run s' = AtSleep /\
              mu s' = None /\ crashed s' = None /\ shutdownCh s' = shutdownCh x /\
              caller s' = caller x /\ todo s' = todo x) as Hpass.
  { intros x ns Hx Hr. exists (2 + length ns)%nat. eexists.
    split; [apply run_pass_rest; assumption|]. repeat split. }
  assert (forall x, crashed x = None -> run x = AtUnlock ->
            exists n s', exec w (repeat TRun n) x = Some s' /\ run s' = AtSleep /\
              mu s' = None /\ crashed s' = None /\ shutdownCh s' = shutdownCh x /\
              caller s' = caller x /\ todo s' = todo x) as Hunlock.
  { intros x Hx Hr. exists 1%nat. destruct x as [ch m cr rpc tk cpc td lg]; simpl in *. subst.
    eexists. split; [run_steps; reflexivity|]. repeat split. }
  destruct Hrun as [Hr|[[ns Hr]|Hr]]; [|now apply (Hpass s ns)|now apply Hunlock].
  destruct s as [ch m cr rpc tk cpc td lg]; simpl in *. subst.
  destruct (passes w tk) as [ns|e] eqn:E.
  - destruct (Hpass {| shutdownCh := ch; mu := m; crashed := None; run := AtPass ns;
                       tick := S tk; caller := cpc; todo := td; log := lg ++ [] |} ns
                eq_refl eq_refl) as [n [s' [He Hrest]]].
    exists (S n), s'. split; [|exact Hrest].
    simpl. unfold step at 1; simpl. unfold run_step; simpl. rewrite E. exact He.
  - destruct (Hunlock {| shutdownCh := ch; mu := m; crashed := None; run := AtUnlock;
                         tick := S tk; caller := cpc; todo := td;
                         log := lg ++ [Logged "reconcile"] |}
                eq_refl eq_refl) as [n [s' [He Hrest]]].
    exists (S n), s'. split; [|exact Hrest].
    simpl. unfold step at 1; simpl. unfold run_step; simpl. rewrite E. exact He.
Qed.

(** While the channel is open, a mutex held by [Run] is released after
    finitely many steps of [Run]. *)
Lemma run_releases (s : system) :
  wf s -> crashed s = None -> shutdownCh s = Open -> mu s = Some RunLoop ->
  exists n s',
    exec w (repeat TRun n) s = Some s' /\ mu s' = None /\
    crashed s' = None /\ caller s' = caller s /\ todo s' = todo s.
Proof.
  intros [[Hm Hex] [Hexit _]] Hcr Hch Hmu.
  assert (run_inside (run s) = true) as Hin.
  { rewrite Hm in Hmu. destruct (run_inside (run s)); [reflexivity|].
    destruct (shutting_down s); discriminate Hmu. }
  assert (run s = AtSelectCh \/
          (run s = AtNamespaces \/ (exists ns, run s = AtPass ns) \/ run s = AtUnlock)) as Hcase.
  { destruct (run s) eqn:E; simpl in Hin; try discriminate Hin; eauto.
    specialize (Hexit eq_refl). congruence. }
  destruct Hcase as [Hsel|Hrest].
  - destruct s as [ch m cr rpc tk cpc td lg]; simpl in *. subst.
    destruct (run_to_sleep {| shutdownCh := Open; mu := Some RunLoop; crashed := None;
                              run := AtNamespaces; tick := tk; caller := cpc; todo := td;
                              log := lg ++ [] |} eq_refl (or_introl eq_refl))
      as [n [s' [He [_ [Hmu' [Hcr' [_ [Hc' Ht']]]]]]]].
    exists (S n), s'. split; [|now repeat split].
    change (repeat TRun (S n)) with (TRun :: repeat TRun n).
    eapply exec_cons; [|exact He]. reflexivity.
  - destruct (run_to_sleep s Hcr Hrest) as [n [s' [He [_ [Hmu' [Hcr' [_ [Hc' Ht']]]]]]]].
    exists n, s'. now repeat split.
Qed.

(** Once the channel is closed and no [Shutdown] holds the mutex,
    [Run] returns after finitely many steps of its own. *)
Lemma run_exits (s : system) :
  wf s -> crashed s = None -> shutdownCh s = Closed -> mu s <> Some ShutdownCall ->
  exists n s', exec w (repeat TRun n) s = Some s' /\ run s' = Exited.
Proof.
  intros [[Hm Hex] _] Hcr Hch Hmu.
  assert (forall x, run x = AtSleep -> mu x = None -> crashed x = None ->
            shutdownCh x = Closed ->
            exists n s', exec w (repeat TRun n) x = Some s' /\ run s' = Exited) as Hsleep.
  { intros x H1 H2 H3 H4. exists 3%nat. eexists.
    split; [now apply run_iteration_closed|reflexivity]. }
  assert (run_inside (run s) = false -> mu s = None) as Hfree.
  { intros Hout. rewrite Hm, Hout in *. destruct (shutting_down s); [now destruct Hmu|reflexivity]. }
  destruct (run s) eqn:Hrun.
  - apply Hsleep; auto.
  - specialize (Hfree eq_refl).
    destruct s as [ch m cr rpc tk cpc td lg]; simpl in *. subst.
    exists 2%nat. eexists. split; [run_steps; reflexivity|reflexivity].
  - destruct s as [ch m cr rpc tk cpc td lg]; simpl in *. subst.
    exists 1%nat. eexists. split; [run_steps; reflexivity|reflexivity].
  - destruct (run_to_sleep s Hcr (or_introl Hrun))
      as [n [s1 [He [Hr1 [Hmu1 [Hcr1 [Hch1 _]]]]]]].
    destruct (Hsleep s1 Hr1 Hmu1 Hcr1 ltac:(congruence)) as [k [s2 [He2 Hr2]]].
    exists (n + k)%nat, s2. split; [|exact Hr2]. now rewrite repeat_add, exec_app, He.
  - destruct (run_to_sleep s Hcr (or_intror (or_introl (ex_intro _ pending Hrun))))
      as [n [s1 [He [Hr1 [Hmu1 [Hcr1 [Hch1 _]]]]]]].
    destruct (Hsleep s1 Hr1 Hmu1 Hcr1 ltac:(congruence)) as [k [s2 [He2 Hr2]]].
    exists (n + k)%nat, s2. split; [|exact Hr2]. now rewrite repeat_add, exec_app, He.
  - destruct (run_to_sleep s Hcr (or_intror (or_intror Hrun)))
      as [n [s1 [He [Hr1 [Hmu1 [Hcr1 [Hch1 _]]]]]]].
    destruct (Hsleep s1 Hr1 Hmu1 Hcr1 ltac:(congruence)) as [k [s2 [He2 Hr2]]].
    exists (n + k)%nat, s2. split; [|exact Hr2]. now rewrite repeat_add, exec_app, He.
  - exists 0%nat, s. split; [reflexivity|exact Hrun].
Qed.

(** C2, amended. A [Shutdown] called while the channel is still open
    (no [Stop] and no [Shutdown] before it), whatever the client
    answers: until the next call begins nothing panics; the caller and
    the units take at most [call_left] steps; as long as the call has
    not returned, the caller or a unit can step, or the caller waits for
    the mutex, which [Run] releases after finitely many steps of its
    own, and can then take it; and when the call has returned the
    channel is closed, by [Shutdown], and [Run] then returns after
    finitely many steps of its own, for good. *)
Theorem shutdown_completes
  (prog : list call) (sched0 : list thread) (s0 : system) (answers : Client) :
  exec w sched0 (init prog) = Some s0 ->
  caller s0 = ShLock answers ->
  shutdownCh s0 = Open ->
  forall sched s,
    exec w sched s0 = Some s -> todo s = todo s0 ->
    crashed s = None /\
    (sd_steps sched + call_left (caller s) <= call_left (ShLock answers))%nat /\
    (caller s <> Idle ->
       (exists t s', t <> TRun /\ step w t s = Some s') \/
       (exists a n s',
          caller s = ShLock a /\ exec w (repeat TRun n) s = Some s' /\
          mu s' = None /\ caller s' = caller s /\
          exists s'', step w TCaller s' = Some s'')) /\
    (caller s = Idle ->
       shutdownCh s = Closed /\ In (ChanClosed FShutdown) (log s) /\
       exists n s', exec w (repeat TRun n) s = Some s' /\ run s' = Exited /\
         forall sched' s'', exec w sched' s' = Some s'' -> run s'' = Exited).
Proof.
  intros Hreach Hc0 Hch0 sched s Hexec Htodo.
  pose proof (wf_reachable prog sched0 s0 Hreach) as Hwf0.
  pose proof (wf_exec sched s0 s Hwf0 Hexec) as Hwf.
  assert (crashed s0 = None) as Hcr0.
  { destruct Hwf0 as [_ [_ [[H|H] _]]]; [exact H|congruence]. }
  assert (call_inv (length (todo s0)) s) as Hinv.
  { apply (call_inv_exec _ sched s0 s); [|exact Hexec].
    right. rewrite Hc0. now repeat split. }
  destruct Hinv as [Hlt|[_ [Hcr Hphase]]]; [rewrite Htodo in Hlt; lia|].
  split; [exact Hcr|]. split; [|split].
  - rewrite <- Hc0. now apply call_bounded.
  - intros Hidle.
    assert (caller s <> Unwound) as Hunw.
    { intros E. rewrite E in Hphase. exact Hphase. }
    destruct (call_progress s Hwf Hcr Hidle Hunw) as [Hstep|[a [Ha Hmu]]]; [now left|].
    right. rewrite Ha in Hphase.
    destruct (run_releases s Hwf Hcr Hphase Hmu) as [n [s' [He [Hmu' [Hcr' [Hc' _]]]]]].
    exists a, n, s'. repeat split; auto.
    rewrite Ha in Hc'.
    destruct s' as [ch m cr rpc tk cpc td lg]; simpl in *. subst.
    eexists. run_steps. reflexivity.
  - intros Hidle. rewrite Hidle in Hphase. destruct Hphase as [Hch Hlog].
    split; [exact Hch|]. split; [exact Hlog|].
    assert (mu s <> Some ShutdownCall) as Hmu.
    { destruct Hwf as [[Hm _] _]. rewrite Hm. unfold shutting_down. rewrite Hidle.
      destruct (run_inside (run s)); discriminate. }
    destruct (run_exits s Hwf Hcr Hch Hmu) as [n [s' [He Hr]]].
    exists n, s'. split; [exact He|]. split; [exact Hr|].
    intros sched' s''. now apply exited_exec.
Qed.

(** *** Closing the channel twice *)

Lemma closes_ok_init (prog : list call) : closes_ok prog (init prog).
Proof. intros _. simpl. lia. Qed.

Lemma closes_ok_step (prog : list call) (t : thread) (s s' : system) :
  closes_ok prog s -> step w t s = Some s' -> closes_ok prog s'.
Proof.
  unfold closes_ok. intros Hok H.
  destruct s as [ch m cr rpc tk cpc td lg]; simpl in *.
  destruct t; step_cases H; intros Hcr'; try discriminate Hcr';
    specialize (Hok eq_refl); simpl in *; lia.
Qed.

Lemma closes_ok_reachable (prog : list call) (sched : list thread) (s : system) :
  exec w sched (init prog) = Some s -> closes_ok prog s.
Proof.
  apply (exec_invariant (closes_ok prog)); [|apply closes_ok_init].
  intros t a b. apply closes_ok_step.
Qed.

(** With the mutex free and [Run] standing still, a [Shutdown] gets to
    its [close] by steps of its own and of its units. *)
Lemma reach_close (n : nat) :
  forall s,
    (call_left (caller s) <= n)%nat -> wf s -> crashed s = None ->
    before_close (caller s) = true ->
    (forall a, caller s = ShLock a -> mu s = None) ->
    exists sched s',
      exec w sched s = Some s' /\ caller s' = ShClose /\
      shutdownCh s' = shutdownCh s /\ crashed s' = None /\ todo s' = todo s /\
      run s' = run s /\ wf s'.
Proof.
  induction n as [|n IH]; intros s Hn Hwf Hcr Hb Hlock.
  - exfalso. destruct (caller s) as [|[?|?]|[?|?]|?|? ? ?| | |];
      simpl in *; try discriminate Hb; lia.
  - destruct (caller s) eqn:Hc; try discriminate Hb.
    5:{ exists [], s. simpl.
        repeat (split; [first [reflexivity|assumption]|]). exact Hwf. }
    all: destruct (call_progress s Hwf Hcr) as [[t [s1 [Ht Hs]]]|[a [Ha Hmu]]];
      try (rewrite Hc; discriminate);
      try (rewrite Hc in Ha; first [discriminate Ha | rewrite (Hlock _ Ha) in Hmu; discriminate Hmu]).
    all: pose proof (call_left_step t s s1 Hs Ht ltac:(rewrite Hc; discriminate)) as Hdec;
      pose proof (wf_step t s s1 Hwf Hs) as Hwf1;
      assert (before_close (caller s1) = true /\ shutdownCh s1 = shutdownCh s /\
              crashed s1 = None /\ todo s1 = todo s /\ run s1 = run s /\
              forall a, caller s1 <> ShLock a) as [Hb1 [Hch1 [Hcr1 [Htd1 [Hr1 Hn1]]]]];
      [ clear IH Hdec Hwf1 Hwf Hlock Hn;
        destruct s as [ch m cr rpc tk cpc td lg]; simpl in *; subst;
        destruct t; [now destruct Ht| |]; step_cases Hs; repeat split; discriminate
      | destruct (IH s1) as [sched [s' [He [Hc' [Hch' [Hcr' [Htd' [Hr' Hwf']]]]]]]];
        [ rewrite Hc in Hdec; lia | exact Hwf1 | exact Hcr1 | exact Hb1
        | intros a Ha; now destruct (Hn1 a) | ];
        exists (t :: sched), s'; split; [now apply (exec_cons t sched s s1)|];
        repeat (split; [congruence|]); exact Hwf' ].
Qed.

(** A [close] on the closed channel panics. *)
Lemma close_closed_panics (s : system) :
  crashed s = None -> shutdownCh s = Closed ->
  (exists rest, caller s = Idle /\ todo s = CallStop :: rest) \/ caller s = ShClose ->
  exists s', step w TCaller s = Some s' /\ crashed s' = Some CloseOfClosedChannel.
Proof.
  intros Hcr Hch Hc. destruct s as [ch m cr rpc tk cpc td lg]; simpl in *. subst.
  destruct Hc as [[rest [-> ->]]| ->]; eexists; (split; [run_steps; reflexivity|reflexivity]).
Qed.

(** A [Shutdown] that finds the mutex free and the channel closed runs
    to its [close] and panics there. *)
Lemma shutdown_on_closed_panics (s : system) (answers : Client) :
  wf s -> crashed s = None -> caller s = ShLock answers -> mu s = None ->
  shutdownCh s = Closed ->
  exists sched s', exec w sched s = Some s' /\ crashed s' = Some CloseOfClosedChannel.
Proof.
  intros Hwf Hcr Hc Hmu Hch.
  destruct (reach_close (call_left (caller s)) s) as [sched [s1 [He [Hc1 [Hch1 [Hcr1 _]]]]]];
    auto; [now rewrite Hc|].
  destruct (close_closed_panics s1 Hcr1 ltac:(congruence) (or_intror Hc1)) as [s2 [Hs Hp]].
  exists (sched ++ [TCaller]), s2. split; [|exact Hp].
  rewrite exec_app, He. simpl. now rewrite Hs.
Qed.

(** C9. A [close] of the channel once it is closed panics, be it the
    one of [Stop] or the one at the end of [Shutdown]; so in no state
    reached without a panic have two calls of [Stop] or [Shutdown]
    returned; and [Stop] followed by [Shutdown], [Stop] twice, and
    [Shutdown] twice, each have a run that ends in the panic "close of
    closed channel". *)
Theorem second_close_panics :
  (forall prog sched s,
     exec w sched (init prog) = Some s -> crashed s = None ->
     (shutdownCh s = Closed ->
        (exists rest, caller s = Idle /\ todo s = CallStop :: rest) \/ caller s = ShClose ->
        exists s', step w TCaller s = Some s' /\ crashed s' = Some CloseOfClosedChannel) /\
     (caller s = Idle -> (length prog <= length (todo s) + 1)%nat)) /\
  (forall answers, exists sched s,
     exec w sched (init [CallStop; CallShutdown answers]) = Some s /\
     crashed s = Some CloseOfClosedChannel) /\
  (exists sched s,
     exec w sched (init [CallStop; CallStop]) = Some s /\
     crashed s = Some CloseOfClosedChannel) /\
  (forall a1 a2, exists sched s,
     exec w sched (init [CallShutdown a1; CallShutdown a2]) = Some s /\
     crashed s = Some CloseOfClosedChannel).
Proof.
  split; [|split; [|split]].
  - intros prog sched s Hreach Hcr. split.
    + intros Hch Hc. now apply close_closed_panics.
    + intros Hidle. pose proof (closes_ok_reachable prog sched s Hreach Hcr) as Hok.
      rewrite Hidle in Hok. simpl in Hok. destruct (shutdownCh s); lia.
  - intros answers.
    destruct (exec w [TCaller; TCaller] (init [CallStop; CallShutdown answers]))
      as [s1|] eqn:E1; [|discriminate E1].
    pose proof (wf_reachable _ _ _ E1) as Hwf1.
    injection E1 as E1.
    destruct (shutdown_on_closed_panics s1 answers Hwf1) as [sched [s2 [He Hp]]];
      try (now rewrite <- E1).
    exists ([TCaller; TCaller] ++ sched), s2. split; [|exact Hp].
    rewrite exec_app. change (exec w [TCaller; TCaller] (init [CallStop; CallShutdown answers]))
      with (Some s1) || (simpl; rewrite E1). exact He.
  - eexists [TCaller; TCaller]. eexists. split; reflexivity.
  - intros a1 a2.
    destruct (exec w [TCaller] (init [CallShutdown a1; CallShutdown a2]))
      as [s1|] eqn:E1; [|discriminate E1].
    pose proof (wf_reachable _ _ _ E1) as Hwf1.
    assert (crashed s1 = None /\ caller s1 = ShLock a1 /\ mu s1 = None /\
            shutdownCh s1 = Open /\ todo s1 = [CallShutdown a2] /\ run s1 = AtSleep)
      as [Hcr1 [Hc1 [Hmu1 [Hch1 [Htd1 Hr1]]]]].
    { injection E1 as <-. now repeat split. }
    assert (before_close (caller s1) = true) as Hb1 by now rewrite Hc1.
    destruct (reach_close (call_left (caller s1)) s1 (le_n _) Hwf1 Hcr1 Hb1 (fun a _ => Hmu1))
      as [sched1 [s2 [He2 [Hc2 [Hch2 [Hcr2 [Htd2 [Hr2 Hwf2]]]]]]]].
    rewrite Hch1 in Hch2. rewrite Htd1 in Htd2. clear Hr2.
    assert (exists s3, exec w [TCaller; TCaller; TCaller] s2 = Some s3 /\
              crashed s3 = None /\ caller s3 = ShLock a2 /\ mu s3 = None /\
              shutdownCh s3 = Closed) as [s3 [E3 [Hcr3 [Hc3 [Hmu3 Hch3]]]]].
    { clear -Hc2 Hch2 Hcr2 Htd2.
      destruct s2 as [ch m cr rpc tk cpc td lg]; simpl in *. subst.
      eexists. split; [run_steps; reflexivity|]. now repeat split. }
    pose proof (wf_exec _ _ _ Hwf2 E3) as Hwf3.
    destruct (shutdown_on_closed_panics s3 a2 Hwf3 Hcr3 Hc3 Hmu3 Hch3) as [sched3 [s4 [He4 Hp]]].
    exists ([TCaller] ++ sched1 ++ [TCaller; TCaller; TCaller] ++ sched3), s4.
    split; [|exact Hp].
    rewrite exec_app, E1, exec_app, He2, exec_app, E3. exact He4.
Qed.

End World.

(** C1, as stated, fails on the sample world: after [Stop], [Run]
    wakes, finds the stop requested and returns, and [Shutdown] has not
    been entered by anybody, although the client lists live tasks. *)
Lemma run_exits_without_shutdown :
  exists s,
    exec world1 [TCaller; TRun; TRun; TRun] (init [CallStop]) = Some s /\
    shutdownCh s = Closed /\ run s = Exited /\
    ~ entered_shutdown (log s) /\
    log s = [Entered FStop; ChanClosed FStop; Slept 10000000000; Locked RunLoop;
             Logged "ending reconcile loop for shutdown"] /\
    launched [web1; web2; db1] <> [].
Proof.
  eexists. split; [vm_compute; reflexivity|].
  split; [reflexivity|]. split; [reflexivity|]. split; [|split; [reflexivity|discriminate]].
  unfold entered_shutdown. simpl. intros H.
  repeat (destruct H as [H|H]; [discriminate H|]). exact H.
Qed.

(** The theorem on the sample world: from the start, channel open, one
    iteration applies the Start change of [web1]; after a [Stop], the
    iteration returns. *)
Lemma run_iteration_witness :
  (exists s', exec world1 (repeat TRun 7) (init []) = Some s' /\ run s' = AtSleep /\
     mu s' = None /\
     log s' = [Slept 10000000000; Locked RunLoop;
               Applied "default" (startChange web1); Unlocked RunLoop]) /\
  (exists s s', exec world1 [TCaller] (init [CallStop]) = Some s /\
     exec world1 [TRun; TRun; TRun] s = Some s' /\ run s' = Exited).
Proof.
  split.
  - destruct (run_iteration world1 (init []) eq_refl eq_refl eq_refl) as [_ [Hopen _]].
    destruct (Hopen eq_refl) as [s' [He [Hr [Hm [_ Hl]]]]].
    exists s'. split; [exact He|]. split; [exact Hr|]. split; [exact Hm|].
    rewrite Hl. vm_compute. reflexivity.
  - eexists. 
    destruct (run_iteration world1
                (close_ch (with_caller (with_todo (init [CallStop]) []) Idle [Entered FStop])
                          FStop false Idle) eq_refl eq_refl eq_refl) as [Hclosed _].
    destruct (Hclosed eq_refl) as [s' [evs [He [Hr _]]]].
    exists s'. split; [reflexivity|]. split; [exact He|exact Hr].
Defined.

(** The theorem on the sample world: [Stop], then [Run] returns; the
    [Shutdown] called next waits for the mutex and cannot step. *)
Lemma run_returns_holding_the_mutex_witness :
  exists s s',
    exec world1 [TCaller; TRun; TRun; TRun] (init [CallStop; CallShutdown client1]) = Some s /\
    run s = Exited /\ mu s = Some RunLoop /\
    exec world1 [TCaller] s = Some s' /\
    caller s' = ShLock client1 /\ step world1 TCaller s' = None.
Proof.
  destruct (exec world1 [TCaller; TRun; TRun; TRun] (init [CallStop; CallShutdown client1]))
    as [s|] eqn:E; [|vm_compute in E; discriminate E].
  destruct (exec world1 [TCaller] s) as [s'|] eqn:E';
    [|vm_compute in E; injection E as <-; vm_compute in E'; discriminate E'].
  exists s, s'.
  assert (run s = Exited) as Hr by (vm_compute in E; injection E as <-; reflexivity).
  assert (caller s' = ShLock client1) as Hc.
  { vm_compute in E; injection E as <-. vm_compute in E'. injection E' as <-. reflexivity. }
  destruct (run_returns_holding_the_mutex world1 _ _ _ E) as [_ H].
  destruct (H Hr) as [Hm Hlater]. destruct (Hlater _ _ E') as [_ [_ [Hblocked _]]].
  split; [reflexivity|]. split; [exact Hr|]. split; [exact Hm|].
  split; [exact E'|]. split; [exact Hc|]. exact (Hblocked client1 Hc).
Defined.

(** C2, as stated, fails on the sample world: after a [Stop], the
    [Shutdown] that follows stops the containers and then, instead of
    returning and closing the channel, panics at its [close]. *)
Lemma shutdown_after_stop_panics :
  exists s,
    exec world1 (stop_then_shutdown_sched ++ [TCaller])
      (init [CallStop; CallShutdown client1]) = Some s /\
    crashed s = Some CloseOfClosedChannel /\
    caller s = Unwound /\
    ~ In (ChanClosed FShutdown) (log s).
Proof.
  eexists. split; [vm_compute; reflexivity|].
  split; [reflexivity|]. split; [reflexivity|].
  simpl. intros H. repeat (destruct H as [H|H]; [discriminate H|]). exact H.
Qed.

(** The theorem on the sample world: a [Shutdown] called first runs
    [shutdown_sched] without a panic and ends with the channel
    closed. *)
Lemma shutdown_completes_witness :
  exists s0 s,
    exec world1 [TCaller] (init [CallShutdown client1]) = Some s0 /\
    caller s0 = ShLock client1 /\ shutdownCh s0 = Open /\
    exec world1 shutdown_sched s0 = Some s /\ todo s = todo s0 /\
    crashed s = None /\ caller s = Idle /\ shutdownCh s = Closed.
Proof.
  destruct (exec world1 [TCaller] (init [CallShutdown client1])) as [s0|] eqn:E0;
    [|vm_compute in E0; discriminate E0].
  assert (caller s0 = ShLock client1 /\ shutdownCh s0 = Open /\ todo s0 = [])
    as [Hc0 [Hch0 Htd0]].
  { vm_compute in E0. injection E0 as <-. now repeat split. }
  destruct (exec world1 shutdown_sched s0) as [s|] eqn:E.
  2:{ vm_compute in E0. injection E0 as <-. vm_compute in E. discriminate E. }
  assert (todo s = todo s0 /\ caller s = Idle) as [Htd Hidle].
  { vm_compute in E0. injection E0 as <-. vm_compute in E. injection E as <-. now split. }
  destruct (shutdown_completes world1 _ _ _ _ E0 Hc0 Hch0 _ _ E Htd) as [Hcr [_ [_ Hret]]].
  destruct (Hret Hidle) as [Hch _].
  exists s0, s. repeat (split; [first [reflexivity|assumption]|]). exact Hch.
Defined.

(** The theorem on the sample world: [Stop], then [Shutdown] up to its
    [close], whose step panics. *)
Lemma second_close_panics_witness :
  exists s s',
    exec world1 stop_then_shutdown_sched (init [CallStop; CallShutdown client1]) = Some s /\
    crashed s = None /\ shutdownCh s = Closed /\ caller s = ShClose /\
    step world1 TCaller s = Some s' /\ crashed s' = Some CloseOfClosedChannel.
Proof.
  destruct (exec world1 stop_then_shutdown_sched (init [CallStop; CallShutdown client1]))
    as [s|] eqn:E; [|vm_compute in E; discriminate E].
  assert (crashed s = None /\ shutdownCh s = Closed /\ caller s = ShClose)
    as [Hcr [Hch Hc]].
  { vm_compute in E. injection E as <-. now repeat split. }
  destruct (second_close_panics world1) as [Hgen _].
  destruct (Hgen _ _ _ E Hcr) as [Hpanic _].
  destruct (Hpanic Hch (or_intror Hc)) as [s' [Hs Hp]].
  exists s, s'. repeat (split; [first [reflexivity|assumption]|]). exact Hp.
Defined.

End LifecycleFacts.

(** ** More on labels *)
Module LabelFacts.
Import Config ConfigFacts.

Lemma cut_kv_inv (s k v : string) : cut "="%char s = Some (k, v) -> s = kv k v /\ sep_free k.
Proof.
  revert k v. induction s as [|a s IH]; simpl; intros k v H; [discriminate H|].
  destruct (Ascii.eqb a "="%char) eqn:E.
  - apply Ascii.eqb_eq in E. subst a. injection H as <- <-. split; [reflexivity|].
    intros [].
  - destruct (cut "="%char s) as [[k0 v0]|]; [|discriminate H].
    injection H as <- <-. destruct (IH k0 v0 eq_refl) as [-> Hk]. split; [reflexivity|].
    unfold sep_free, chars in *. simpl. intros [Ha|Hin]; [|now apply Hk].
    apply Ascii.eqb_neq in E. congruence.
Qed.

(** [strings.SplitN(s, "=", 2)] loses nothing: either the label has no
    '=' and comes back whole, or it comes back as a key without '=' and
    a value which, joined by '=', give the label again. *)
Lemma SplitN2_joins_back (s : string) :
  (sep_free s /\ SplitN2 s = [s]) \/
  (exists k v, SplitN2 s = [k; v] /\ sep_free k /\ s = kv k v).
Proof.
  unfold SplitN2. destruct (cut "="%char s) as [[k v]|] eqn:E.
  - right. exists k, v. destruct (cut_kv_inv s k v E) as [Hs Hk]. now repeat split.
  - left. split; [now apply cut_none_sep_free|reflexivity].
Qed.

(** X1. What [toStrings] stores for a label gives the label back: the
    map of a single label has one entry, whose key has no '=' and
    whose key and value joined by '=' are the label. *)
Theorem toStrings_entry_joins_back (s : string) (m : gmap string string) :
  toStrings [s] = Done m ->
  exists k v, m = {[ k := v ]} /\ sep_free k /\ s = kv k v.
Proof.
  unfold toStrings. simpl.
  destruct (SplitN2_joins_back s) as [[_ ->]|[k [v [-> [Hk Hs]]]]]; simpl.
  - intros H. discriminate H.
  - intros H. injection H as <-. exists k, v. now rewrite insert_empty.
Qed.

(** The theorem at the label a=b=c. *)
Lemma toStrings_entry_joins_back_witness :
  exists k v, toStrings ["a=b=c"] = Done {[ k := v ]} /\ "a=b=c" = kv k v.
Proof.
  destruct (toStrings ["a=b=c"]) as [m|] eqn:E; [|vm_compute in E; discriminate E].
  destruct (toStrings_entry_joins_back _ _ E) as [k [v [-> [_ Hs]]]].
  exists k, v. split; [reflexivity|exact Hs].
Defined.

Lemma toStrings_range_app (ss1 ss2 : list string) (m : gmap string string) :
  toStrings_range (ss1 ++ ss2) m =
  match toStrings_range ss1 m with
  | Done m1 => toStrings_range ss2 m1
  | Panic p => Panic p
  end.
Proof.
  revert m. induction ss1 as [|s ss1 IH]; intros m; [reflexivity|].
  simpl. destruct (index (SplitN2 s) 0); [|reflexivity].
  destruct (index (SplitN2 s) 1); [apply IH|reflexivity].
Qed.

(** Filling a map that already has entries: the new entries win. *)
Lemma toStrings_range_union (ss : list string) (m : gmap string string) :
  toStrings_range ss m =
  match toStrings_range ss ∅ with
  | Done m0 => Done (m0 ∪ m)
  | Panic p => Panic p
  end.
Proof.
  revert m. induction ss as [|s ss IH]; intros m.
  - simpl. now rewrite (left_id_L ∅ (∪)).
  - destruct (cut "="%char s) as [[k v]|] eqn:E.
    + rewrite !(toStrings_range_cons_sep _ _ _ _ _ E).
      rewrite (IH (<[k:=v]> m)), (IH (<[k:=v]> ∅)).
      destruct (toStrings_range ss ∅) as [m1|p]; [|reflexivity].
      f_equal. rewrite insert_empty, (insert_union_singleton_l m).
      now rewrite (assoc_L (∪)).
    + apply cut_none_sep_free in E.
      now rewrite !(toStrings_range_cons_whole _ _ _ E).
Qed.

(** X2. The labels of two lists put one after the other give the map
    of the first list overridden by the map of the second; and the
    panic of either list is the panic of the whole. *)
Theorem toStrings_of_appended (ss1 ss2 : list string) :
  toStrings (ss1 ++ ss2) =
  match toStrings ss1, toStrings ss2 with
  | Done m1, Done m2 => Done (m2 ∪ m1)
  | Done _, Panic p => Panic p
  | Panic p, _ => Panic p
  end.
Proof.
  unfold toStrings. rewrite toStrings_range_app.
  destruct (toStrings_range ss1 ∅) as [m1|p]; [|reflexivity].
  rewrite toStrings_range_union. destruct (toStrings_range ss2 ∅); reflexivity.
Qed.

Lemma toStrings_range_dom (ss : list string) :
  forall m m' : gmap string string,
    toStrings_range ss m = Done m' ->
    dom m' = list_to_set (key_of <$> ss) ∪ dom m.
Proof.
  induction ss as [|s ss IH]; intros m m' H.
  - simpl in H. injection H as <-.
    change (list_to_set (key_of <$> [])) with (∅ : gset string).
    now rewrite (left_id_L ∅ (∪)).
  - destruct (cut "="%char s) as [[k v]|] eqn:E.
    + rewrite (toStrings_range_cons_sep _ _ _ _ _ E) in H.
      rewrite (IH _ _ H), dom_insert_L, fmap_cons, list_to_set_cons.
      unfold key_of at 2. rewrite E.
      now rewrite (assoc_L (∪)), (comm_L (∪) _ {[k]}).
    + apply cut_none_sep_free in E.
      rewrite (toStrings_range_cons_whole _ _ _ E) in H. discriminate H.
Qed.

(** X3. When [toStrings] returns, the keys of its map are exactly the
    keys of the labels, so there are at most as many as labels; and no
    label was without '='. *)
Theorem toStrings_keys (ss : list string) (m : gmap string string) :
  toStrings ss = Done m ->
  dom m = list_to_set (key_of <$> ss) /\
  size m <= length ss /\
  (forall s, In s ss -> ~ sep_free s).
Proof.
  intros H. assert (dom m = list_to_set (key_of <$> ss)) as Hdom.
  { rewrite (toStrings_range_dom ss ∅ m H).
    now rewrite dom_empty_L, (right_id_L ∅ (∪)). }
  split; [exact Hdom|]. split.
  - assert (forall l : list string, size (list_to_set l : gset string) <= length l) as Hgen.
    { induction l as [|x l IHl]; [rewrite list_to_set_nil, size_empty; simpl; lia|].
      rewrite list_to_set_cons. simpl.
      pose proof (size_union_alt {[x]} (list_to_set l : gset string)) as Hu.
      assert (list_to_set l ∖ {[x]} ⊆ (list_to_set l : gset string)) as Hsub
        by apply subseteq_difference_l, reflexivity.
      apply subseteq_size in Hsub. rewrite size_singleton in Hu. lia. }
    rewrite <- size_dom, Hdom. etransitivity; [apply Hgen|]. now rewrite length_fmap.
  - intros s Hin Hfree. unfold toStrings in H.
    rewrite (toStrings_range_panics ss) in H; [discriminate H|]. eauto.
Qed.

(** The theorem at the labels a=1, b=2, a=3: two keys. *)
Lemma toStrings_keys_witness :
  exists m, toStrings ["a=1"; "b=2"; "a=3"] = Done m /\
    dom m = list_to_set ["a"; "b"; "a"] /\ size m <= 3.
Proof.
  destruct (toStrings ["a=1"; "b=2"; "a=3"]) as [m|] eqn:E;
    [|vm_compute in E; discriminate E].
  exists m. split; [reflexivity|].
  destruct (toStrings_keys _ _ E) as [Hdom [Hsize _]]. split; [exact Hdom|exact Hsize].
Defined.

End LabelFacts.

(** ** The options that edit the OCI spec *)
Module SpecOptsFacts.
Import SpecOpts.

Lemma int64_small (z : Z) : (- 2 ^ 63 <= z < 2 ^ 63)%Z -> int64 z = z.
Proof. intros H. unfold int64. rewrite Z.mod_small; lia. Qed.

Lemma int64_bound (z : Z) : (- 2 ^ 63 <= int64 z < 2 ^ 63)%Z.
Proof.
  unfold int64. pose proof (Z.mod_pos_bound (z + 2 ^ 63) (2 ^ 64) ltac:(lia)). lia.
Qed.

(** Wrapping after each product is wrapping once at the end. *)
Lemma int64_mul (a b : Z) : int64 (int64 a * b) = int64 (a * b).
Proof.
  unfold int64 at 2. rewrite Z.mod_eq by lia.
  set (q := ((a + 2 ^ 63) / 2 ^ 64)%Z).
  replace ((a + 2 ^ 63 - 2 ^ 64 * q - 2 ^ 63) * b)%Z with (a * b + (- q * b) * 2 ^ 64)%Z by ring.
  unfold int64. replace (a * b + - q * b * 2 ^ 64 + 2 ^ 63)%Z
    with (a * b + 2 ^ 63 + (- q * b) * 2 ^ 64)%Z by ring.
  now rewrite Z.mod_add by lia.
Qed.

Section Float64.
Variable float64 : Type.
Variable positive : float64 -> bool.
Variable quota : float64 -> Z.

(** X4. [withResources]: a memory of at most zero sets no limit; a
    memory below 2^43 MiB sets the limit to that many MiB in bytes;
    from 2^43 MiB on the int64 product has wrapped around and the limit
    set is below the memory asked for. A score of zero leaves the OOM
    score alone, any other score is set. The mounts and the hostname
    are never touched. *)
Theorem withResources_limits (r : Resources float64) (s : Spec) :
  (- 2 ^ 63 <= Memory float64 r < 2 ^ 63)%Z ->
  let s' := withResources float64 positive quota r s in
  ((Memory float64 r <= 0)%Z -> MemoryLimit s' = MemoryLimit s) /\
  ((0 < Memory float64 r < 2 ^ 43)%Z ->
     MemoryLimit s' = Some (Memory float64 r * 1048576)%Z) /\
  ((2 ^ 43 <= Memory float64 r)%Z ->
     exists limit, MemoryLimit s' = Some limit /\
                   (limit < Memory float64 r * 1048576)%Z) /\
  (Score float64 r = 0%Z -> OOMScoreAdj s' = OOMScoreAdj s) /\
  (Score float64 r <> 0%Z -> OOMScoreAdj s' = Some (Score float64 r)) /\
  (CPUQuota s' = if positive (CPU float64 r)
                 then Some (quota (CPU float64 r), 100000%Z) else CPUQuota s) /\
  Mounts s' = Mounts s /\ Hostname s' = Hostname s.
Proof.
  intros Hrange s'.
  assert (MemoryLimit s' =
          if Z.ltb 0 (Memory float64 r)
          then Some (int64 (Memory float64 r * 1048576)) else MemoryLimit s) as Hmem.
  { subst s'. unfold withResources.
    rewrite int64_mul, <- Z.mul_assoc. change (1024 * 1024)%Z with 1048576%Z.
    destruct (Z.ltb 0 (Memory float64 r)), (positive (CPU float64 r)),
      (Z.eqb (Score float64 r) 0); reflexivity. }
  assert (OOMScoreAdj s' =
          if Z.eqb (Score float64 r) 0 then OOMScoreAdj s
          else Some (Score float64 r)) as Hoom.
  { subst s'. unfold withResources.
    destruct (Z.ltb 0 (Memory float64 r)), (positive (CPU float64 r)),
      (Z.eqb (Score float64 r) 0); reflexivity. }
  split; [|split; [|split; [|split; [|split; [|split; [|split]]]]]].
  - intros H. rewrite Hmem. destruct (Z.ltb_spec 0 (Memory float64 r)); [lia|reflexivity].
  - intros H. rewrite Hmem. destruct (Z.ltb_spec 0 (Memory float64 r)); [|lia].
    f_equal. apply int64_small. lia.
  - intros H. rewrite Hmem. destruct (Z.ltb_spec 0 (Memory float64 r)); [|lia].
    eexists. split; [reflexivity|].
    pose proof (int64_bound (Memory float64 r * 1048576)). lia.
  - intros H. rewrite Hoom, H. reflexivity.
  - intros H. rewrite Hoom. destruct (Z.eqb_spec (Score float64 r) 0); [congruence|reflexivity].
  - subst s'. unfold withResources.
    destruct (Z.ltb 0 (Memory float64 r)), (positive (CPU float64 r)),
      (Z.eqb (Score float64 r) 0); reflexivity.
  - subst s'. unfold withResources.
    destruct (Z.ltb 0 (Memory float64 r)), (positive (CPU float64 r)),
      (Z.eqb (Score float64 r) 0); reflexivity.
  - subst s'. unfold withResources.
    destruct (Z.ltb 0 (Memory float64 r)), (positive (CPU float64 r)),
      (Z.eqb (Score float64 r) 0); reflexivity.
Qed.
End Float64.

(** The theorem at 512 MiB with a score of -500 (the CPU left out). *)
Lemma withResources_limits_witness :
  MemoryLimit (withResources unit (fun _ => false) (fun _ => 0%Z)
                 SpecSamples.half_gib SpecSamples.spec0) = Some 536870912%Z /\
  OOMScoreAdj (withResources unit (fun _ => false) (fun _ => 0%Z)
                 SpecSamples.half_gib SpecSamples.spec0) = Some (-500)%Z.
Proof.
  destruct (withResources_limits unit (fun _ => false) (fun _ => 0%Z)
              SpecSamples.half_gib SpecSamples.spec0)
    as [_ [Hmem [_ [_ [Hscore _]]]]]; [simpl; lia|].
  split; [apply Hmem; simpl; lia|apply Hscore; discriminate].
Defined.

End SpecOptsFacts.

(** ** [withMounts] and [withContainerHostsFile] *)
Module MountFacts.
Import SpecOpts.

Section Paths.
Variable Dir : string -> string.
Variable Join : list string -> string.

(** What one turn of the loop asks of the file system. *)
Lemma prepare_bind_calls (cm : Mount) (a : bind_answers) (s : Spec) made err :
  prepare_bind Dir cm a s = (made, err) ->
  (forall p u g, In (CallChown p u g) made ->
     In (CallMkdir p Made) made /\ u = UID s /\ g = GID s) /\
  (forall e, err = Some e ->
     on_MkdirAll a = Some e \/ on_Mkdir a = MkdirError e \/
     (on_Mkdir a = Made /\ on_Chown a = Some e)).
Proof.
  unfold prepare_bind. intros H.
  assert (forall (p0 : string) (u0 g0 : Z) (l : list fs_call),
            In (CallChown p0 u0 g0) l ->
            l = [CallMkdirAll (Dir (Source cm)); CallMkdir (Source cm) Made;
                 CallChown (Source cm) (UID s) (GID s)] ->
            In (CallMkdir p0 Made) l /\ u0 = UID s /\ g0 = GID s) as Hthree.
  { intros p0 u0 g0 l Hin ->. simpl in Hin.
    destruct Hin as [Hin|[Hin|[Hin|[]]]]; try discriminate Hin.
    inversion Hin; subst. split; [right; now left|now split]. }
  destruct (on_MkdirAll a) as [e0|] eqn:E1.
  { inversion H; subst. split.
    - intros p0 u0 g0 [Hin|[]]. discriminate Hin.
    - intros e He. inversion He; subst. now left. }
  destruct (on_Mkdir a) as [| |e1] eqn:E2; inversion H; subst; split.
  - intros p0 u0 g0 Hin. now apply (Hthree p0 u0 g0 _ Hin).
  - intros e He. right. right. now split.
  - intros p0 u0 g0 [Hin|[Hin|[]]]; discriminate Hin.
  - intros e He. discriminate He.
  - intros p0 u0 g0 [Hin|[Hin|[]]]; discriminate Hin.
  - intros e He. inversion He; subst. right. now left.
Qed.

Lemma append_mount_frame (s : Spec) (m : SpecMount) :
  UID (append_mount s m) = UID s /\ GID (append_mount s m) = GID s /\
  Hostname (append_mount s m) = Hostname s /\
  OOMScoreAdj (append_mount s m) = OOMScoreAdj s /\
  MemoryLimit (append_mount s m) = MemoryLimit s /\
  CPUQuota (append_mount s m) = CPUQuota s.
Proof. repeat split. Qed.

(** The loop from any turn on. *)
Lemma withMounts_range_spec (mounts : list Mount) (answers : nat -> bind_answers) :
  forall i s calls s' calls' err,
    withMounts_range Dir mounts answers i s calls = (s', calls', err) ->
    UID s' = UID s /\ GID s' = GID s /\ Hostname s' = Hostname s /\
    (exists made, calls' = calls ++ made /\
       (forall p u g, In (CallChown p u g) made ->
          In (CallMkdir p Made) made /\ u = UID s /\ g = GID s) /\
       ((forall cm, In cm mounts -> Type_ cm <> "bind") -> made = [] /\ err = None)) /\
    (err = None -> Mounts s' = Mounts s ++ map toSpecMount mounts) /\
    (forall e, err = Some e ->
       exists done cm rest,
         mounts = done ++ cm :: rest /\ Type_ cm = "bind" /\
         Mounts s' = Mounts s ++ map toSpecMount done /\
         (on_MkdirAll (answers (i + length done)) = Some e \/
          on_Mkdir (answers (i + length done)) = MkdirError e \/
          (on_Mkdir (answers (i + length done)) = Made /\
           on_Chown (answers (i + length done)) = Some e))).
Proof.
  induction mounts as [|cm rest IH]; intros i s calls s' calls' err H.
  - simpl in H. inversion H; subst.
    split; [reflexivity|]. split; [reflexivity|]. split; [reflexivity|]. split; [|split].
    + exists []. split; [now rewrite app_nil_r|]. split; [intros p u g []|].
      intros _. now split.
    + intros _. now rewrite app_nil_r.
    + intros e He. discriminate He.
  - simpl in H.
    destruct (if String.eqb (Type_ cm) "bind" then prepare_bind Dir cm (answers i) s
              else ([], None)) as [made0 err0] eqn:E.
    assert ((forall p u g, In (CallChown p u g) made0 ->
               In (CallMkdir p Made) made0 /\ u = UID s /\ g = GID s) /\
            (forall e, err0 = Some e ->
               Type_ cm = "bind" /\
               (on_MkdirAll (answers i) = Some e \/ on_Mkdir (answers i) = MkdirError e \/
                (on_Mkdir (answers i) = Made /\ on_Chown (answers i) = Some e))) /\
            (Type_ cm <> "bind" -> made0 = [] /\ err0 = None)) as [Hch [Herr Hnb]].
    { destruct (String.eqb_spec (Type_ cm) "bind") as [Hb|Hb].
      - destruct (prepare_bind_calls cm (answers i) s made0 err0 E) as [H1 H2].
        split; [exact H1|]. split; [intros e He; split; [exact Hb|now apply H2]|].
        intros Hn. now destruct Hn.
      - inversion E; subst. split; [intros p u g []|].
        split; [intros e He; discriminate He|]. intros _. now split. }
    destruct err0 as [e0|].
    + inversion H; subst.
      split; [reflexivity|]. split; [reflexivity|]. split; [reflexivity|].
      split; [|split].
      * exists made0. split; [reflexivity|]. split; [exact Hch|].
        intros Hall. destruct (Hnb (Hall cm (or_introl eq_refl))) as [_ Hc]. discriminate Hc.
      * intros Hn. discriminate Hn.
      * intros e He. injection He as <-. destruct (Herr e0 eq_refl) as [Hb Hans].
        exists [], cm, rest. simpl. rewrite Nat.add_0_r, app_nil_r. now repeat split.
    + destruct (IH (S i) (append_mount s (toSpecMount cm)) (calls ++ made0) s' calls' err H)
        as [Hu [Hg [Hh [[made [Hcalls [Hch' Hnone]]] [Hok Hbad]]]]].
      simpl in Hu, Hg, Hh.
      split; [exact Hu|]. split; [exact Hg|]. split; [exact Hh|]. split; [|split].
      * exists (made0 ++ made). split; [now rewrite Hcalls, app_assoc|]. split.
        -- intros p u g Hin. apply in_app_or in Hin. destruct Hin as [Hin|Hin].
           ++ destruct (Hch p u g Hin) as [Hm Hug]. split; [|exact Hug].
              apply in_or_app. now left.
           ++ destruct (Hch' p u g Hin) as [Hm Hug]. split; [|exact Hug].
              apply in_or_app. now right.
        -- intros Hall. destruct (Hnb (Hall cm (or_introl eq_refl))) as [-> _].
           apply Hnone. intros c Hc. apply Hall. now right.
      * intros He. rewrite (Hok He). simpl. now rewrite <- app_assoc.
      * intros e He. destruct (Hbad e He) as [done [c [rest' [Hm [Hb [Hmo Hans]]]]]].
        exists (cm :: done), c, rest'. simpl. rewrite Hm. split; [reflexivity|].
        split; [exact Hb|]. split; [rewrite Hmo; simpl; now rewrite <- app_assoc|].
        replace (i + S (length done)) with (S i + length done) by lia. exact Hans.
Qed.

(** X5. When [withMounts] returns nil, the mounts of the spec are the
    ones it had followed by the configured mounts, each as a
    [specs.Mount], in their order; nothing else of the spec has
    changed. *)
Theorem withMounts_appends_all (mounts : list Mount) (answers : nat -> bind_answers)
  (s s' : Spec) (calls : list fs_call) :
  withMounts Dir mounts answers s = (s', calls, None) ->
  Mounts s' = Mounts s ++ map toSpecMount mounts /\
  Hostname s' = Hostname s /\ UID s' = UID s /\ GID s' = GID s.
Proof.
  intros H. destruct (withMounts_range_spec _ _ _ _ _ _ _ _ H)
    as [Hu [Hg [Hh [_ [Hok _]]]]].
  now repeat split; auto.
Qed.

(** X6. When [withMounts] returns an error, it is the error of the
    first bind mount whose directory could not be prepared (MkdirAll,
    Mkdir other than "exists", or Chown of the new directory); the
    mounts before it have been appended to the spec and stay, this
    mount and the later ones have not. *)
Theorem withMounts_stops_at_first_error (mounts : list Mount)
  (answers : nat -> bind_answers) (s s' : Spec) (calls : list fs_call) (e : error) :
  withMounts Dir mounts answers s = (s', calls, Some e) ->
  exists done cm rest,
    mounts = done ++ cm :: rest /\ Type_ cm = "bind" /\
    Mounts s' = Mounts s ++ map toSpecMount done /\
    (on_MkdirAll (answers (length done)) = Some e \/
     on_Mkdir (answers (length done)) = MkdirError e \/
     (on_Mkdir (answers (length done)) = Made /\
      on_Chown (answers (length done)) = Some e)).
Proof.
  intros H. destruct (withMounts_range_spec _ _ _ _ _ _ _ _ H)
    as [_ [_ [_ [_ [_ Hbad]]]]].
  exact (Hbad e eq_refl).
Qed.

(** X7. [withMounts] changes the owner only of directories it has
    just made, to the user of the process; a source that was there
    already is never chowned; and without a bind mount it makes no
    call to the file system and cannot fail. *)
Theorem withMounts_chowns_only_new (mounts : list Mount) (answers : nat -> bind_answers)
  (s s' : Spec) (calls : list fs_call) (err : option error) :
  withMounts Dir mounts answers s = (s', calls, err) ->
  (forall p u g, In (CallChown p u g) calls ->
     In (CallMkdir p Made) calls /\ u = UID s /\ g = GID s) /\
  ((forall i, on_Mkdir (answers i) <> Made) -> forall p u g, ~ In (CallChown p u g) calls) /\
  ((forall cm, In cm mounts -> Type_ cm <> "bind") -> calls = [] /\ err = None).
Proof.
  intros H. destruct (withMounts_range_spec _ _ _ _ _ _ _ _ H)
    as [_ [_ [_ [[made [Hcalls [Hch Hnone]]] _]]]].
  simpl in Hcalls. subst calls. split; [exact Hch|]. split; [|exact Hnone].
  intros Hnever.
  (* no answer [Made]: no [CallMkdir _ Made] is ever recorded *)
  assert (forall ms i s0 c0 s1 c1 e1,
            withMounts_range Dir ms answers i s0 c0 = (s1, c1, e1) ->
            (forall p, ~ In (CallMkdir p Made) c0) -> forall p, ~ In (CallMkdir p Made) c1)
    as Hmade.
  { induction ms as [|cm ms IH]; intros i s0 c0 s1 c1 e1 Hr Hc0 p.
    - simpl in Hr. inversion Hr; subst. apply Hc0.
    - simpl in Hr.
      destruct (if String.eqb (Type_ cm) "bind" then prepare_bind Dir cm (answers i) s0
                else ([], None)) as [made0 err0] eqn:E.
      assert (forall q, ~ In (CallMkdir q Made) (c0 ++ made0)) as Hc.
      { intros q Hin. apply in_app_or in Hin. destruct Hin as [Hin|Hin]; [now apply (Hc0 q)|].
        destruct (String.eqb (Type_ cm) "bind"); [|inversion E; subst; destruct Hin].
        unfold prepare_bind in E. specialize (Hnever i).
        destruct (on_MkdirAll (answers i)); [|destruct (on_Mkdir (answers i))];
          inversion E; subst; simpl in Hin;
          repeat (destruct Hin as [Hin|Hin]; [try discriminate Hin|]);
          try (now destruct Hin); now destruct Hnever. }
      destruct err0; [inversion Hr; subst; apply Hc|].
      exact (IH _ _ _ _ _ _ Hr Hc p). }
  intros p u g Hin. destruct (Hch p u g Hin) as [Hm _].
  exact (Hmade mounts 0 s [] s' made err H (fun q Hq => Hq) p Hm).
Qed.

(** X8. [withContainerHostsFile] returns nil exactly when the
    directory, the file and the three writes all succeed; then the file
    holds the localhost line, the line of the hostname (the container
    id when the spec has no hostname) and the IPv6 line, and the
    read-only bind mount of that file on /etc/hosts is the last mount
    of the spec. On any error the spec is left as it was. *)
Theorem hosts_file_written_before_mounted (id : string) (a : hosts_answers)
  (s s' : Spec) (written : list string) (err : option error) :
  withContainerHostsFile Join id a s = (s', written, err) ->
  (err = None <->
     h_MkdirAll a = None /\ h_Create a = None /\
     h_Write a 0 = None /\ h_Write a 1 = None /\ h_Write a 2 = None) /\
  (err = None ->
     written = [localhost_line;
                hostname_line (if String.eqb (Hostname s) "" then id else Hostname s);
                ip6_line] /\
     Mounts s' = Mounts s ++ [hosts_mount (Join [Root; id; "hosts"])] /\
     specs_Options (hosts_mount (Join [Root; id; "hosts"])) = ["rbind"; "ro"]) /\
  (err <> None -> s' = s /\ length written < 3).
Proof.
  unfold withContainerHostsFile. intros H.
  destruct (h_MkdirAll a) as [e0|]; [|destruct (h_Create a) as [e1|];
    [|destruct (h_Write a 0) as [e2|]; [|destruct (h_Write a 1) as [e3|];
      [|destruct (h_Write a 2) as [e4|]]]]];
    inversion H; subst; clear H;
    (split; [split; [intros He; try discriminate He; now repeat split
                    |intros [H1 [H2 [H3 [H4 H5]]]]; try discriminate; reflexivity]|]);
    (split; [intros He; try discriminate He; now repeat split|]);
    intros He; try (now destruct He); split; simpl; (reflexivity || lia).
Qed.

End Paths.

(** The theorem X5 on a tmpfs mount and a bind mount whose directory is
    new. *)
Lemma withMounts_appends_all_witness :
  exists s' calls,
    withMounts SpecSamples.srv [SpecSamples.tmp_mount; SpecSamples.data_mount]
      (fun _ => SpecSamples.fresh) SpecSamples.spec0 = (s', calls, None) /\
    Mounts s' = [toSpecMount SpecSamples.tmp_mount; toSpecMount SpecSamples.data_mount].
Proof.
  destruct (withMounts SpecSamples.srv [SpecSamples.tmp_mount; SpecSamples.data_mount]
              (fun _ => SpecSamples.fresh) SpecSamples.spec0) as [[s' calls] err] eqn:E.
  assert (err = None) as -> by (vm_compute in E; now inversion E).
  exists s', calls. split; [reflexivity|].
  destruct (withMounts_appends_all _ _ _ _ _ _ E) as [Hm _]. exact Hm.
Defined.

(** The theorem X6 on three mounts, the directory of the third
    denied: the first two are in the spec. *)
Lemma withMounts_stops_at_first_error_witness :
  exists s' calls e,
    withMounts SpecSamples.srv
      [SpecSamples.tmp_mount; SpecSamples.data_mount; SpecSamples.logs_mount]
      SpecSamples.third_denied SpecSamples.spec0 = (s', calls, Some e) /\
    exists done cm rest,
      [SpecSamples.tmp_mount; SpecSamples.data_mount; SpecSamples.logs_mount] =
        done ++ cm :: rest /\
      Mounts s' = Mounts SpecSamples.spec0 ++ map toSpecMount done.
Proof.
  destruct (withMounts SpecSamples.srv
              [SpecSamples.tmp_mount; SpecSamples.data_mount; SpecSamples.logs_mount]
              SpecSamples.third_denied SpecSamples.spec0) as [[s' calls] err] eqn:E.
  assert (err = Some "permission denied") as -> by (vm_compute in E; now inversion E).
  exists s', calls, "permission denied". split; [reflexivity|].
  destruct (withMounts_stops_at_first_error _ _ _ _ _ _ _ E)
    as [done [cm [rest [Hm [_ [Hmo _]]]]]].
  exists done, cm, rest. split; [exact Hm|exact Hmo].
Defined.

(** The theorem X7 on the same three mounts: the only chown is the one
    of /srv/data, made just before, to the user 1000. *)
Lemma withMounts_chowns_only_new_witness :
  exists s' calls err,
    withMounts SpecSamples.srv
      [SpecSamples.tmp_mount; SpecSamples.data_mount; SpecSamples.logs_mount]
      SpecSamples.third_denied SpecSamples.spec0 = (s', calls, err) /\
    In (CallChown "/srv/data" 1000 1000) calls /\
    In (CallMkdir "/srv/data" Made) calls.
Proof.
  destruct (withMounts SpecSamples.srv
              [SpecSamples.tmp_mount; SpecSamples.data_mount; SpecSamples.logs_mount]
              SpecSamples.third_denied SpecSamples.spec0) as [[s' calls] err] eqn:E.
  exists s', calls, err. split; [reflexivity|].
  assert (In (CallChown "/srv/data" 1000 1000) calls) as Hin.
  { vm_compute in E. inversion E; subst. simpl. tauto. }
  split; [exact Hin|].
  destruct (withMounts_chowns_only_new _ _ _ _ _ _ _ E) as [Hch _].
  exact (proj1 (Hch _ _ _ Hin)).
Defined.

(** The theorem X8 for the container web1 without hostname, every
    write succeeding. *)
Lemma hosts_file_written_before_mounted_witness :
  exists s' written,
    withContainerHostsFile SpecSamples.slashes "web1" SpecSamples.all_written
      SpecSamples.spec0 = (s', written, None) /\
    written = [localhost_line; hostname_line "web1"; ip6_line] /\
    Mounts s' = [hosts_mount "/var/lib/boss/web1/hosts"].
Proof.
  destruct (withContainerHostsFile SpecSamples.slashes "web1" SpecSamples.all_written
              SpecSamples.spec0) as [[s' written] err] eqn:E.
  assert (err = None) as -> by (vm_compute in E; now inversion E).
  exists s', written. split; [reflexivity|].
  destruct (hosts_file_written_before_mounted _ _ _ _ _ _ _ E) as [_ [Hok _]].
  destruct (Hok eq_refl) as [Hw [Hm _]]. split; [exact Hw|exact Hm].
Defined.

End MountFacts.

(** ** [Attach] *)
Module AttacherFacts.
Import Runtime Attacher Samples.

Section Attach.
Variable AttachTask : Container -> task_load.

Lemma attached_app (l1 l2 : list attach_log) : attached (l1 ++ l2) = attached l1 ++ attached l2.
Proof. apply flat_map_app. Qed.

Lemma failures_app (l1 l2 : list attach_log) :
  failures (l1 ++ l2) = failures l1 + failures l2.
Proof. unfold failures. now rewrite flat_map_app, length_app. Qed.

(** The loop over the containers only appends: the task of each
    container that has one, a failure for each load that failed other
    than by NotFound. *)
Lemma attach_containers_fold (cs : list Container) (logs : list attach_log) :
  exists more,
    fold_left (attach_visit AttachTask) cs logs = logs ++ more /\
    attached more =
      flat_map (fun c => match AttachTask c with
                         | Loaded task => [(ID c, task)]
                         | _ => []
                         end) cs /\
    ((forall c e, In c cs -> AttachTask c <> LoadFailed e) -> failures more = 0).
Proof.
  revert logs. induction cs as [|c cs IH]; intros logs.
  - exists []. simpl. rewrite app_nil_r. now repeat split.
  - simpl. destruct (IH (attach_visit AttachTask logs c)) as [more [Hf [Ha Hn]]].
    unfold attach_visit in *. destruct (AttachTask c) as [|e|task] eqn:E.
    + exists more. split; [exact Hf|]. split; [exact Ha|].
      intros Hall. apply Hn. intros c0 e0 Hin. apply Hall. now right.
    + exists (ErrorLoad (ID c) e :: more). split; [now rewrite Hf, <- app_assoc|].
      split; [exact Ha|]. intros Hall. now destruct (Hall c e (or_introl eq_refl)).
    + exists (InfoAttach (ID c) task :: more). split; [now rewrite Hf, <- app_assoc|].
      split; [simpl; now rewrite Ha|].
      intros Hall. apply Hn. intros c0 e0 Hin. apply Hall. now right.
Qed.

(** One namespace only appends as well, and its failure is logged. *)
Lemma attach_namespace_appends (n : Namespace) (logs : list attach_log) :
  exists more,
    attach_namespace AttachTask logs n = logs ++ more /\
    attached more = attachable AttachTask [n] /\
    ((exists cs, Containers n = Ok cs /\
        forall c e, In c cs -> AttachTask c <> LoadFailed e) -> failures more = 0).
Proof.
  unfold attach_namespace, attachContainers, attachable. simpl. rewrite app_nil_r.
  destruct (Containers n) as [cs|e].
  - destruct (attach_containers_fold cs logs) as [more [Hf [Ha Hn]]].
    exists more. split; [exact Hf|]. split; [exact Ha|].
    intros [cs' [Hcs Hok]]. injection Hcs as <-. now apply Hn.
  - exists [ErrorNamespace (Name n) e]. split; [reflexivity|]. split; [reflexivity|].
    intros [cs [Hcs _]]. discriminate Hcs.
Qed.

Lemma attach_namespaces_fold (ns : list Namespace) (logs : list attach_log) :
  exists more,
    fold_left (attach_namespace AttachTask) ns logs = logs ++ more /\
    attached more = attachable AttachTask ns /\
    ((forall n, In n ns -> exists cs, Containers n = Ok cs /\
        forall c e, In c cs -> AttachTask c <> LoadFailed e) -> failures more = 0).
Proof.
  revert logs. induction ns as [|n ns IH]; intros logs.
  - exists []. simpl. rewrite app_nil_r. now repeat split.
  - simpl. destruct (attach_namespace_appends n logs) as [more0 [Hf0 [Ha0 Hn0]]].
    rewrite Hf0. destruct (IH (logs ++ more0)) as [more [Hf [Ha Hn]]].
    exists (more0 ++ more). split; [now rewrite Hf, <- app_assoc|]. split.
    + rewrite attached_app, Ha0, Ha. unfold attachable. simpl. now rewrite app_nil_r.
    + intros Hall. rewrite failures_app, Hn0, Hn; [reflexivity| |].
      * intros n0 Hin. apply Hall. now right.
      * apply Hall. now left.
Qed.

(** X9. [Attach] fails only when the namespaces cannot be listed, and
    then attaches nothing. Otherwise it returns nil whatever else goes
    wrong, and the tasks it attaches to are, namespace by namespace and
    in the order of the listings, exactly the tasks that load: a
    namespace whose containers cannot be listed and a container whose
    task does not load take nothing away from the others. A task that
    is not found is no failure: without listing errors and load errors
    other than NotFound the log reports none. *)
Theorem Attach_reaches_every_loaded_task (client : Client) :
  match client with
  | Err e => Attach AttachTask client = ([], Some e)
  | Ok ns =>
      exists logs,
        Attach AttachTask client = (logs, None) /\
        attached logs = attachable AttachTask ns /\
        ((forall n, In n ns -> exists cs, Containers n = Ok cs /\
            forall c e, In c cs -> AttachTask c <> LoadFailed e) -> failures logs = 0)
  end.
Proof.
  destruct client as [ns|e]; [|reflexivity].
  destruct (attach_namespaces_fold ns []) as [more [Hf [Ha Hn]]].
  exists more. unfold Attach. rewrite Hf. now repeat split.
Qed.
End Attach.

(** The theorem on the sample client, the attaching load answering as
    the plain load: web1 has no task, web2 and db1 are attached to. *)
Lemma Attach_reaches_every_loaded_task_witness :
  exists logs,
    Attach LoadTask client1 = (logs, None) /\
    attached logs = [("web2", running_task); ("db1", stubborn_task)] /\
    failures logs = 0.
Proof.
  destruct (Attach_reaches_every_loaded_task LoadTask client1) as [logs [Hl [Ha Hf]]].
  exists logs. split; [exact Hl|]. split; [exact Ha|].
  apply Hf. intros n [<-|[]]. exists [web1; web2; db1]. split; [reflexivity|].
  intros c e [<-|[<-|[<-|[]]]]; discriminate.
Defined.

End AttacherFacts.

(** ** More on the reconcile pass *)
Module ReconcilerMoreFacts.
Import Runtime Reconciler Views Samples ReconcilerFacts.

(** The changes of one container: none, or one, about that container
    and of the kind its label names. *)
Lemma changes_of_shape (c : Container) :
  changes_of c = [] \/
  exists ch labels,
    changes_of c = [ch] /\ container_of ch = c /\ Labels c = Ok labels /\
    label_value labels <> actualStatus c /\
    ((ch = startChange c /\ label_value labels = Running) \/
     (ch = stopChange c /\ label_value labels = Stopped) \/
     (ch = deleteChange c /\ label_value labels = DeleteStatus)).
Proof.
  destruct (Labels c) as [labels|e] eqn:HL.
  2:{ left. unfold changes_of, monitor_visit. now rewrite HL. }
  rewrite (changes_of_cases c labels HL).
  destruct (String.eqb_spec (label_value labels) (actualStatus c)) as [|Hne]; [now left|].
  destruct (String.eqb_spec (label_value labels) Running) as [Hr|_].
  { right. exists (startChange c), labels. repeat split; auto. }
  destruct (String.eqb_spec (label_value labels) Stopped) as [Hs|_].
  { right. exists (stopChange c), labels. repeat split; auto. }
  destruct (String.eqb_spec (label_value labels) DeleteStatus) as [Hd|_].
  { right. exists (deleteChange c), labels. repeat split; auto. }
  now left.
Qed.

(** X10. [monitor] returns at most one change per listed container,
    in the order of the listing: the containers of the changes are a
    sublist of the listing. *)
Theorem monitor_one_change_per_container (cs : list Container) (changes : list change) :
  monitor (Ok cs) = Ok changes ->
  sublist (map container_of changes) cs /\ length changes <= length cs.
Proof.
  rewrite monitor_Ok. intros H. injection H as <-.
  assert (sublist (map container_of (flat_map changes_of cs)) cs) as Hsub.
  { induction cs as [|c cs IH]; simpl; [constructor|].
    rewrite map_app.
    destruct (changes_of_shape c) as [->|[ch [labels [-> [Hc _]]]]]; simpl.
    - now apply sublist_cons.
    - rewrite Hc. now apply sublist_skip. }
  split; [exact Hsub|]. apply sublist_length in Hsub. now rewrite length_map in Hsub.
Qed.

(** The theorem on the sample listing: only web1 needs a change. *)
Lemma monitor_one_change_per_container_witness :
  monitor (Ok [web1; web2; paused1]) = Ok [startChange web1] /\
  sublist (map container_of [startChange web1]) [web1; web2; paused1].
Proof.
  assert (monitor (Ok [web1; web2; paused1]) = Ok [startChange web1]) as H
    by (vm_compute; reflexivity).
  split; [exact H|]. exact (proj1 (monitor_one_change_per_container _ _ H)).
Defined.

(** X11. Every change [monitor] returns is called for: it is about a
    listed container whose label could be read, differs from the actual
    status, and reads [running] for a Start, [stopped] for a Stop,
    [delete] for a Delete. *)
Theorem monitor_changes_are_called_for (cs : list Container) (changes : list change)
  (ch : change) :
  monitor (Ok cs) = Ok changes -> In ch changes ->
  In (container_of ch) cs /\
  exists labels,
    Labels (container_of ch) = Ok labels /\
    label_value labels <> actualStatus (container_of ch) /\
    label_value labels =
      match ch with
      | startChange _ => Running
      | stopChange _ => Stopped
      | deleteChange _ => DeleteStatus
      end.
Proof.
  rewrite monitor_Ok. intros H Hin. injection H as <-.
  apply in_flat_map in Hin. destruct Hin as [c [Hc Hin]].
  destruct (changes_of_shape c) as [He|[ch0 [labels [He [Hco [HL [Hne Hkind]]]]]]];
    rewrite He in Hin; [destruct Hin|].
  destruct Hin as [<-|[]]. rewrite Hco. split; [exact Hc|].
  exists labels. split; [exact HL|]. split; [exact Hne|].
  destruct Hkind as [[-> Hv]|[[-> Hv]|[-> Hv]]]; exact Hv.
Qed.

(** The theorem on the sample listing. *)
Lemma monitor_changes_are_called_for_witness :
  In web1 [web1; web2; paused1] /\
  exists labels, Labels web1 = Ok labels /\ label_value labels = Running.
Proof.
  destruct (monitor_changes_are_called_for [web1; web2; paused1] [startChange web1]
              (startChange web1)) as [Hin [labels [HL [_ Hv]]]];
    [vm_compute; reflexivity|now left|].
  split; [exact Hin|]. exists labels. split; [exact HL|exact Hv].
Defined.

(** X12. A container whose labels cannot be read is passed over: the
    changes are the ones [monitor] returns without it, and the listing
    does not fail. *)
Theorem monitor_passes_over_unreadable (pre post : list Container) (c : Container)
  (e : error) :
  Labels c = Err e ->
  monitor (Ok (pre ++ c :: post)) = monitor (Ok (pre ++ post)) /\
  exists changes, monitor (Ok (pre ++ c :: post)) = Ok changes.
Proof.
  intros HL. rewrite monitor_split, !monitor_Ok, flat_map_app.
  assert (changes_of c = []) as -> by (unfold changes_of, monitor_visit; now rewrite HL).
  split; [reflexivity|]. eexists. reflexivity.
Qed.

(** The theorem with the container whose labels cannot be read between
    web1 and web2. *)
Lemma monitor_passes_over_unreadable_witness :
  monitor (Ok ([web1] ++ MoreSamples.unreadable :: [web2])) = Ok [startChange web1].
Proof.
  rewrite (proj1 (monitor_passes_over_unreadable [web1] [web2] MoreSamples.unreadable
                    "unavailable" eq_refl)).
  vm_compute. reflexivity.
Defined.

(** X13. The changes for a listing are the changes for its first part
    followed by the changes for the rest: what [monitor] decides for a
    container does not depend on the other containers. *)
Theorem monitor_of_appended (cs1 cs2 : list Container) :
  exists changes1 changes2,
    monitor (Ok cs1) = Ok changes1 /\ monitor (Ok cs2) = Ok changes2 /\
    monitor (Ok (cs1 ++ cs2)) = Ok (changes1 ++ changes2).
Proof.
  exists (flat_map changes_of cs1), (flat_map changes_of cs2).
  rewrite !monitor_Ok, flat_map_app. now repeat split.
Qed.

End ReconcilerMoreFacts.

(** ** More on [stopContainers] *)
Module StopMoreFacts.
Import Runtime StopContainers Samples StopFacts.

Lemma flying_le_length (ws : list worker) : flying ws <= length ws.
Proof.
  induction ws as [|x ws IH]; simpl; [lia|]. destruct (in_flight x); lia.
Qed.

Lemma flying_lookup_pos (ws : list worker) (i : nat) (w : worker) :
  ws !! i = Some w -> in_flight w = true -> 0 < flying ws.
Proof.
  revert i. induction ws as [|x ws IH]; intros [|i] Hi Hw; simpl in *; try discriminate Hi.
  - injection Hi as ->. rewrite Hw. lia.
  - specialize (IH i Hi Hw). destruct (in_flight x); lia.
Qed.

(** X14. All along [stopContainers] the counter of the WaitGroup is
    the number of units in flight: it is never negative, and it is at
    least one whenever a unit has its [wg.Done()] still to run, so that
    [wg.Done()] never takes it below zero. *)
Theorem waitgroup_counts_units_in_flight
  (listing : result (list Container)) (sched : list stop_thread) (st : stopping) :
  stop_exec sched (stop_init listing) = Some st ->
  s_wg st = Z.of_nat (flying (s_units st)) /\
  (0 <= s_wg st <= Z.of_nat (length (s_units st)))%Z /\
  (forall i w, s_units st !! i = Some w -> in_flight w = true -> (1 <= s_wg st)%Z).
Proof.
  intros Hexec.
  destruct (stop_exec_inv listing sched _ _ (stop_inv_init listing) Hexec) as [_ [Hwg _]].
  split; [exact Hwg|]. split.
  - pose proof (flying_le_length (s_units st)). lia.
  - intros i w Hi Hw. pose proof (flying_lookup_pos _ i w Hi Hw). lia.
Qed.

(** The theorem in the middle of [stop_sched]: both units launched,
    one of them returned. *)
Lemma waitgroup_counts_units_in_flight_witness :
  exists st,
    stop_exec [Main; Main; Main; Unit 0; Main; Unit 0; Unit 0]
      (stop_init (Ok [web1; web2; db1])) = Some st /\
    s_wg st = 1%Z.
Proof.
  destruct (stop_exec [Main; Main; Main; Unit 0; Main; Unit 0; Unit 0]
              (stop_init (Ok [web1; web2; db1]))) as [st|] eqn:E;
    [|vm_compute in E; discriminate E].
  exists st. split; [reflexivity|].
  destruct (waitgroup_counts_units_in_flight _ _ _ E) as [Hwg _]. rewrite Hwg.
  vm_compute in E. injection E as <-. reflexivity.
Defined.

Lemma stop_exec_left (sched : list stop_thread) :
  forall st st', stop_exec sched st = Some st' -> length sched + stop_left st' <= stop_left st.
Proof.
  induction sched as [|t sched IH]; simpl; intros st st' H.
  - inversion H; subst. lia.
  - destruct (stop_step t st) as [st1|] eqn:E; [|discriminate H].
    pose proof (stop_step_left t st st1 E). specialize (IH st1 st' H). lia.
Qed.

(** X15. [stopContainers] returns, however its goroutines are
    scheduled: over a listing of n containers the function and its
    units take at most 3 + 4 n steps in all (one step when the listing
    fails), and until the function has returned one of them can always
    step, so [wg.Wait()] is never stuck. *)
Theorem stopContainers_returns
  (listing : result (list Container)) (sched : list stop_thread) (st : stopping) :
  stop_exec sched (stop_init listing) = Some st ->
  length sched + stop_left st <=
    match listing with
    | Ok cs => 3 + 4 * length cs
    | Err _ => 1
    end /\
  ((forall err, s_pc st <> Returned err) -> exists t st', stop_step t st = Some st').
Proof.
  intros Hexec. split.
  - pose proof (stop_exec_left sched _ _ Hexec) as H.
    unfold stop_left at 2 in H. simpl in H. destruct listing; simpl in *; lia.
  - apply (stop_progress listing).
    exact (stop_exec_inv listing sched _ _ (stop_inv_init listing) Hexec).
Qed.

(** The theorem on [stop_sched], which has 11 steps for 3 containers. *)
Lemma stopContainers_returns_witness :
  exists st,
    stop_exec stop_sched (stop_init (Ok [web1; web2; db1])) = Some st /\
    length stop_sched + stop_left st <= 15.
Proof.
  destruct (stop_exec stop_sched (stop_init (Ok [web1; web2; db1]))) as [st|] eqn:E;
    [|vm_compute in E; discriminate E].
  exists st. split; [reflexivity|].
  exact (proj1 (stopContainers_returns _ _ _ E)).
Defined.

(** X16. A unit deletes only a task that it has signalled and whose
    exit came before the timer; and a unit whose SIGTERM failed makes
    no other call: it neither waits for the task nor deletes it. *)
Theorem unit_deletes_only_exited_task
  (listing : result (list Container)) (sched : list stop_thread) (st : stopping)
  (w : worker) :
  stop_exec sched (stop_init listing) = Some st ->
  In w (s_units st) ->
  (In Delete (w_did w) ->
     Task_Kill (w_task w) = None /\ Task_select (w_task w) = TaskExited /\
     w_pc w = UnitDone) /\
  (forall e, Task_Kill (w_task w) = Some e ->
     w_did w = [] \/ (w_did w = [Kill SIGTERM (Some e)] /\ w_pc w = UnitDone)).
Proof.
  intros Hexec Hin.
  destruct (stop_exec_inv listing sched _ _ (stop_inv_init listing) Hexec) as [Hok _].
  pose proof (proj1 (List.Forall_forall _ _) Hok w Hin) as Hw.
  unfold unit_ok, unit_calls in Hw. split.
  - intros Hdel. destruct (w_pc w) eqn:Epc.
    + rewrite Hw in Hdel. destruct Hdel.
    + destruct Hw as [_ Hd]. rewrite Hd in Hdel. simpl in Hdel.
      destruct Hdel as [Hdel|[]]. discriminate Hdel.
    + destruct Hw as [_ [_ Hd]]. rewrite Hd in Hdel. simpl in Hdel.
      destruct Hdel as [Hdel|[Hdel|[]]]; discriminate Hdel.
    + rewrite Hw in Hdel.
      destruct (Task_Kill (w_task w)); [simpl in Hdel; destruct Hdel as [Hdel|[]]; discriminate Hdel|].
      destruct (Task_select (w_task w)); [now repeat split|].
      simpl in Hdel. destruct Hdel as [Hdel|[Hdel|[]]]; discriminate Hdel.
  - intros e He. destruct (w_pc w) eqn:Epc.
    + now left.
    + destruct Hw as [Hk _]. congruence.
    + destruct Hw as [Hk _]. congruence.
    + right. rewrite Hw, He. now split.
Qed.

(** The theorem on [stop_sched]: the unit of db1, whose task did not
    exit in time, has not deleted it. *)
Lemma unit_deletes_only_exited_task_witness :
  exists st w,
    stop_exec stop_sched (stop_init (Ok [web1; web2; db1])) = Some st /\
    In w (s_units st) /\ w_id w = "db1" /\ ~ In Delete (w_did w).
Proof.
  destruct (stop_exec stop_sched (stop_init (Ok [web1; web2; db1]))) as [st|] eqn:E;
    [|vm_compute in E; discriminate E].
  exists st, (finished (spawn db1 stubborn_task)).
  assert (In (finished (spawn db1 stubborn_task)) (s_units st)) as Hin.
  { vm_compute in E. injection E as <-. right. now left. }
  split; [reflexivity|]. split; [exact Hin|]. split; [reflexivity|].
  intros Hdel. destruct (unit_deletes_only_exited_task _ _ _ _ E Hin) as [H _].
  destruct (H Hdel) as [_ [Hsel _]]. discriminate Hsel.
Defined.

(** X17. [stopContainers] returns an error only when the containers
    cannot be listed, and then it has launched no unit; a task that
    cannot be loaded, waited for or signalled never makes it fail. *)
Theorem stopContainers_fails_only_on_listing
  (listing : result (list Container)) (sched : list stop_thread) (st : stopping) :
  stop_exec sched (stop_init listing) = Some st ->
  (forall e, s_pc st = Returned (Some e) -> listing = Err e /\ s_units st = []) /\
  (s_pc st = Returned None -> exists cs, listing = Ok cs) /\
  (forall e, listing = Err e ->
     s_units st = [] /\ s_pc st <> Returned None /\ length sched <= 1).
Proof.
  intros Hexec.
  pose proof (stop_exec_inv listing sched _ _ (stop_inv_init listing) Hexec) as [_ [_ Hpc]].
  split; [|split].
  - intros e E. rewrite E in Hpc. exact Hpc.
  - intros E. rewrite E in Hpc. destruct Hpc as [_ [cs [Hl _]]]. eauto.
  - intros e ->. pose proof (stopContainers_returns _ _ _ Hexec) as [Hb _].
    split; [|split; [|lia]].
    + destruct (s_pc st) as [l|p| |[e'|]].
      * exact (proj2 Hpc).
      * destruct Hpc as [seen [Hl _]]. discriminate Hl.
      * destruct Hpc as [cs [Hl _]]. discriminate Hl.
      * exact (proj2 Hpc).
      * destruct Hpc as [_ [cs [Hl _]]]. discriminate Hl.
    + intros E. rewrite E in Hpc. destruct Hpc as [_ [cs [Hl _]]]. discriminate Hl.
Qed.

(** The theorem on a listing that fails. *)
Lemma stopContainers_fails_only_on_listing_witness :
  exists st,
    stop_exec [Main] (stop_init (Err "unavailable")) = Some st /\
    s_pc st = Returned (Some "unavailable") /\ s_units st = [].
Proof.
  destruct (stop_exec [Main] (stop_init (Err "unavailable"))) as [st|] eqn:E;
    [|vm_compute in E; discriminate E].
  exists st. split; [reflexivity|].
  assert (s_pc st = Returned (Some "unavailable")) as Hpc
    by (vm_compute in E; injection E as <-; reflexivity).
  split; [exact Hpc|].
  destruct (stopContainers_fails_only_on_listing _ _ _ E) as [H _].
  exact (proj2 (H _ Hpc)).
Defined.

End StopMoreFacts.

(** ** More on [Run], [Stop] and [Shutdown] *)
Module LifecycleMoreFacts.
Import Runtime Reconciler StopContainers Lifecycle Views Samples LifecycleFacts.

Section World.
Variable w : world.

(** Splits a step into the cases of the step function. *)
Ltac split_step H :=
  unfold step, run_step, caller_step, unit_turn, close_ch in H; simpl in H;
  repeat match type of H with
         | context [match ?x with _ => _ end] => destruct x eqn:?; simpl in H
         end;
  try discriminate H; inversion H; subst; clear H; simpl in *.

(** What a step adds to the log when it closes the channel or enters
    [Shutdown]. *)
Lemma step_log (t : thread) (s s' : system) :
  step w t s = Some s' ->
  exists evs, log s' = log s ++ evs /\
    (shutdownCh s' = Closed ->
       shutdownCh s = Closed \/
       exists f, In (ChanClosed f) evs /\
         (In (Entered f) evs \/ (f = FShutdown /\ before_close (caller s) = true))) /\
    (before_close (caller s') = true ->
       before_close (caller s) = true \/ In (Entered FShutdown) evs).
Proof.
  intros H. destruct s as [ch m cr rpc tk cpc td lg]; simpl in *.
  destruct t; split_step H; try rewrite <- app_assoc;
    (first [ eexists; split; [reflexivity|]
           | exists []; split; [now rewrite app_nil_r|] ]);
    (split; intros Hx;
     first [ left; exact Hx
           | left; reflexivity
           | discriminate Hx
           | solve [right; exists FStop; simpl; intuition (reflexivity || eauto)]
           | solve [right; exists FShutdown; simpl; intuition (reflexivity || eauto)]
           | solve [right; simpl; intuition (reflexivity || eauto)] ]).
Qed.

(** A closed channel has been closed by a call that was made, and
    while [Shutdown] is in progress its call is in the log. *)
Lemma closed_by_a_call (prog : list call) (sched : list thread) (s : system) :
  exec w sched (init prog) = Some s ->
  (shutdownCh s = Closed ->
     exists f, In (Entered f) (log s) /\ In (ChanClosed f) (log s)) /\
  (before_close (caller s) = true -> In (Entered FShutdown) (log s)).
Proof.
  apply (exec_invariant w
           (fun s => (shutdownCh s = Closed ->
                        exists f, In (Entered f) (log s) /\ In (ChanClosed f) (log s)) /\
                     (before_close (caller s) = true -> In (Entered FShutdown) (log s)))).
  2:{ split; intros H; discriminate H. }
  clear. intros t s s' [Hclosed Hin] H.
  destruct (step_log t s s' H) as [evs [Hl [Hch Hb]]]. rewrite Hl. split.
  - intros Hc. destruct (Hch Hc) as [Hold|[f [Hf [He|[-> Hbc]]]]].
    + destruct (Hclosed Hold) as [f [H1 H2]]. exists f. split; apply in_or_app; now left.
    + exists f. split; apply in_or_app; now right.
    + exists FShutdown. split; apply in_or_app; [left; now apply Hin|now right].
  - intros Hbc. apply in_or_app. destruct (Hb Hbc) as [Hold|Hnew]; [left; now apply Hin|now right].
Qed.

(** X18. [Run] returns only after [Stop] or [Shutdown] has been called
    and has closed the channel: no failure of the client, in listing or
    in a reconcile pass, ends the loop. *)
Theorem run_ends_only_after_close (prog : list call) (sched : list thread) (s : system) :
  exec w sched (init prog) = Some s ->
  run s = Exited ->
  shutdownCh s = Closed /\
  exists f, In (Entered f) (log s) /\ In (ChanClosed f) (log s).
Proof.
  intros Hreach Hrun.
  destruct (wf_reachable w prog sched s Hreach) as [_ [Hexit _]].
  specialize (Hexit Hrun). split; [exact Hexit|].
  now apply (closed_by_a_call prog sched s Hreach).
Qed.

(** X19. Whoever is about to unlock the mutex holds it: at the
    [m.mu.Unlock()] of [Run], and at the deferred one of [Shutdown]
    (also when its [close] is about to panic), the mutex is locked in
    the name of the one who unlocks, so an unlocked mutex is never
    unlocked. And the mutex is free whenever neither is between its
    Lock and its Unlock. *)
Theorem unlock_only_by_holder (prog : list call) (sched : list thread) (s : system) :
  exec w sched (init prog) = Some s ->
  (run s = AtUnlock -> mu s = Some RunLoop) /\
  (caller s = ShUnlock -> mu s = Some ShutdownCall) /\
  (caller s = ShClose -> mu s = Some ShutdownCall) /\
  (run_inside (run s) = false -> shutting_down s = false -> mu s = None).
Proof.
  intros Hreach. destruct (wf_reachable w prog sched s Hreach) as [[Hm Hex] _].
  unfold shutting_down in *.
  split; [|split; [|split]].
  - intros E. rewrite Hm, E. reflexivity.
  - intros E. rewrite E in *. rewrite andb_true_r in Hex. now rewrite Hm, Hex.
  - intros E. rewrite E in *. rewrite andb_true_r in Hex. now rewrite Hm, Hex.
  - intros E1 E2. now rewrite Hm, E1, E2.
Qed.

(** With the channel closed and [Run] before its select, a step starts
    no pass and applies nothing. *)
Lemma quiet_step (t : thread) (s s' : system) :
  shutdownCh s = Closed -> before_select (run s) = true ->
  step w t s = Some s' ->
  shutdownCh s' = Closed /\ before_select (run s') = true /\ tick s' = tick s /\
  exists evs, log s' = log s ++ evs /\ nothing_applied evs.
Proof.
  intros Hch Hq H. destruct s as [ch m cr rpc tk cpc td lg]; simpl in *. subst ch.
  destruct t; split_step H; try discriminate Hq;
    (split; [reflexivity|]); (split; [first [reflexivity|exact Hq]|]);
    (split; [reflexivity|]);
    try rewrite <- app_assoc;
    (first [ eexists; split; [reflexivity|]
           | exists []; split; [now rewrite app_nil_r|] ]);
    intros ns c Hin; simpl in Hin;
    repeat (destruct Hin as [Hin|Hin]; [discriminate Hin|]); exact Hin.
Qed.

Lemma quiet_exec (sched : list thread) :
  forall s s',
    shutdownCh s = Closed -> before_select (run s) = true ->
    exec w sched s = Some s' ->
    shutdownCh s' = Closed /\ before_select (run s') = true /\ tick s' = tick s /\
    exists evs, log s' = log s ++ evs /\ nothing_applied evs.
Proof.
  induction sched as [|t sched IH]; simpl; intros s s' Hch Hq H.
  - inversion H; subst. repeat split; auto. exists []. rewrite app_nil_r.
    split; [reflexivity|]. intros ns c [].
  - destruct (step w t s) as [s1|] eqn:E; [|discriminate H].
    destruct (quiet_step t s s1 Hch Hq E) as [Hch1 [Hq1 [Ht1 [evs1 [Hl1 Hn1]]]]].
    destruct (IH s1 s' Hch1 Hq1 H) as [Hch' [Hq' [Ht' [evs [Hl Hn]]]]].
    split; [exact Hch'|]. split; [exact Hq'|]. split; [congruence|].
    exists (evs1 ++ evs). split; [now rewrite Hl, Hl1, app_assoc|].
    intros ns c Hin. apply in_app_or in Hin. destruct Hin as [Hin|Hin].
    + now apply (Hn1 ns c).
    + now apply (Hn ns c).
Qed.

(** A namespace of a pass logs applied changes, or one failure. *)
Lemma pass_events_kinds (n : Namespace) (e : event) :
  In e (pass_events n) -> e = Logged "get changes" \/ exists c, e = Applied (Name n) c.
Proof.
  unfold pass_events. destruct (monitor (Containers n)) as [changes|err].
  - intros Hin. apply in_map_iff in Hin. destruct Hin as [c [<- _]]. right. eauto.
  - intros [<-|[]]. now left.
Qed.

(** Only the [close] of [Shutdown] logs that [Shutdown] closed the
    channel. *)
Lemma shutdown_close_step (t : thread) (s s' : system) :
  step w t s = Some s' ->
  exists evs, log s' = log s ++ evs /\
    (In (ChanClosed FShutdown) evs ->
     caller s = ShClose /\ shutdownCh s' = Closed /\ run s' = run s).
Proof.
  intros H. destruct s as [ch m cr rpc tk cpc td lg]; simpl in *.
  destruct t; split_step H;
    try rewrite <- app_assoc;
    try (eexists; split; [reflexivity|]; intros Hin; simpl in Hin;
         repeat (destruct Hin as [Hin|Hin]; [try discriminate Hin|]);
         try (now destruct Hin); now repeat split);
    first [ exists []; (split; [now rewrite app_nil_r|intros []])
          | eexists; split; [reflexivity|]; intros Hin;
            apply pass_events_kinds in Hin; destruct Hin as [Hin|[c Hin]];
            discriminate Hin ].
Qed.

(** Once [Shutdown] has closed the channel, [Run] is before its
    select. *)
Lemma shutdown_close_finds_run_outside (prog : list call) (sched : list thread)
  (s : system) :
  exec w sched (init prog) = Some s ->
  In (ChanClosed FShutdown) (log s) ->
  shutdownCh s = Closed /\ before_select (run s) = true.
Proof.
  intros Hreach.
  apply (exec_invariant w
           (fun s => wf s /\
                     (In (ChanClosed FShutdown) (log s) ->
                      shutdownCh s = Closed /\ before_select (run s) = true)))
    with (sched := sched) (s := init prog); [| |exact Hreach].
  2:{ split; [apply wf_init|]. intros []. }
  clear. intros t s s' [Hwf Hinv] H.
  split; [now apply (wf_step w t s)|].
  intros Hin. destruct (shutdown_close_step t s s' H) as [evs [Hl Hnew]].
  rewrite Hl in Hin. apply in_app_or in Hin. destruct Hin as [Hin|Hin].
  - destruct (Hinv Hin) as [Hch Hq].
    destruct (quiet_step t s s' Hch Hq H) as [Hch' [Hq' _]]. now split.
  - destruct (Hnew Hin) as [Hc [Hch' Hr]]. split; [exact Hch'|]. rewrite Hr.
    destruct Hwf as [[_ Hex] _]. unfold shutting_down in Hex. rewrite Hc in Hex.
    rewrite andb_true_r in Hex. destruct (run s); simpl in *; congruence.
Qed.

(** X20. Once [Shutdown] has closed the channel, no reconcile pass
    begins and no change is applied any more, whatever is scheduled:
    [Run] was outside its critical section at the close, and all it can
    still do is take the mutex, see the channel closed and return. *)
Theorem nothing_applied_after_shutdown
  (prog : list call) (sched : list thread) (s : system) :
  exec w sched (init prog) = Some s ->
  In (ChanClosed FShutdown) (log s) ->
  reconciling s = false /\
  forall sched' s',
    exec w sched' s = Some s' ->
    tick s' = tick s /\
    exists evs, log s' = log s ++ evs /\ nothing_applied evs.
Proof.
  intros Hreach Hin.
  destruct (shutdown_close_finds_run_outside prog sched s Hreach Hin) as [Hch Hq].
  split.
  - unfold reconciling. destruct (run s); simpl in *; congruence.
  - intros sched' s' Hexec.
    destruct (quiet_exec sched' s s' Hch Hq Hexec) as [_ [_ [Ht Hevs]]].
    split; [exact Ht|exact Hevs].
Qed.

End World.

(** The theorem X18 on the sample world: after [Stop], [Run] has
    returned, and the log has the call and the close of [Stop]. *)
Lemma run_ends_only_after_close_witness :
  exists s,
    exec world1 [TCaller; TRun; TRun; TRun] (init [CallStop]) = Some s /\
    run s = Exited /\
    exists f, In (Entered f) (log s) /\ In (ChanClosed f) (log s).
Proof.
  destruct (exec world1 [TCaller; TRun; TRun; TRun] (init [CallStop])) as [s|] eqn:E;
    [|vm_compute in E; discriminate E].
  assert (run s = Exited) as Hr by (vm_compute in E; injection E as <-; reflexivity).
  exists s. split; [reflexivity|]. split; [exact Hr|].
  exact (proj2 (run_ends_only_after_close world1 _ _ _ E Hr)).
Defined.

(** The theorem X19 on the sample world, [Run] at its unlock after a
    pass. *)
Lemma unlock_only_by_holder_witness :
  exists s,
    exec world1 (repeat TRun 6) (init []) = Some s /\
    run s = AtUnlock /\ mu s = Some RunLoop.
Proof.
  destruct (exec world1 (repeat TRun 6) (init [])) as [s|] eqn:E;
    [|vm_compute in E; discriminate E].
  assert (run s = AtUnlock) as Hr by (vm_compute in E; injection E as <-; reflexivity).
  exists s. split; [reflexivity|]. split; [exact Hr|].
  exact (proj1 (unlock_only_by_holder world1 _ _ _ E) Hr).
Defined.

(** The theorem X20 on the sample world: after a whole [Shutdown],
    three steps of [Run] apply nothing and [Run] has returned. *)
Lemma nothing_applied_after_shutdown_witness :
  exists s s',
    exec world1 (TCaller :: shutdown_sched) (init [CallShutdown client1]) = Some s /\
    In (ChanClosed FShutdown) (log s) /\
    exec world1 [TRun; TRun; TRun] s = Some s' /\
    tick s' = tick s /\ run s' = Exited.
Proof.
  destruct (exec world1 (TCaller :: shutdown_sched) (init [CallShutdown client1]))
    as [s|] eqn:E; [|vm_compute in E; discriminate E].
  assert (In (ChanClosed FShutdown) (log s)) as Hin.
  { vm_compute in E. injection E as <-. simpl. tauto. }
  destruct (exec world1 [TRun; TRun; TRun] s) as [s'|] eqn:E'.
  2:{ vm_compute in E. injection E as <-. vm_compute in E'. discriminate E'. }
  assert (run s' = Exited) as Hr.
  { vm_compute in E. injection E as <-. vm_compute in E'. injection E' as <-. reflexivity. }
  exists s, s'. split; [reflexivity|]. split; [exact Hin|]. split; [exact E'|].
  destruct (nothing_applied_after_shutdown world1 _ _ _ E Hin) as [_ Hlater].
  split; [exact (proj1 (Hlater _ _ E'))|exact Hr].
Defined.

End LifecycleMoreFacts.

(** ** A pass of [Shutdown] over the namespaces *)
Module ShutdownPassFacts.
Import Runtime Reconciler StopContainers Lifecycle Samples MoreSamples ShutdownPass.
Import StopFacts LifecycleFacts.

Lemma joined_app (a b : list event) : joined (a ++ b) = joined a ++ joined b.
Proof. apply flat_map_app. Qed.

Lemma stopped_units_app (a b : list Namespace) :
  stopped_units (a ++ b) = stopped_units a ++ stopped_units b.
Proof. apply flat_map_app. Qed.

Lemma stopped_by_app (a b : list call) : stopped_by (a ++ b) = stopped_by a ++ stopped_by b.
Proof. apply flat_map_app. Qed.

Lemma joined_pass_events (n : Namespace) : joined (pass_events n) = [].
Proof.
  unfold pass_events. destruct (monitor (Containers n)) as [changes|e]; [|reflexivity].
  induction changes as [|c changes IH]; [reflexivity|exact IH].
Qed.

(** When [stopContainers] has returned nil, its units are those of the
    listing, all returned. *)
Lemma returned_units (listing : result (list Container)) (st : stopping) :
  stop_inv listing st -> s_pc st = Returned None ->
  exists cs, listing = Ok cs /\ s_units st = map finished (launched cs).
Proof.
  intros [Hok [Hwg Hpc]] E. rewrite E in Hpc. destruct Hpc as [Hz [cs [-> Hm]]].
  exists cs. split; [reflexivity|]. rewrite <- Hm. apply all_done_finished; [exact Hok|].
  apply flying_zero_done. lia.
Qed.

Lemma failed_listing (listing : result (list Container)) (st : stopping) (e : error) :
  stop_inv listing st -> s_pc st = Returned (Some e) -> listing = Err e.
Proof. intros [_ [_ Hpc]] E. rewrite E in Hpc. now destruct Hpc. Qed.


Section World.
Variable w : world.

Lemma pass_inv_init (prog : list call) : pass_inv prog (init prog).
Proof. exists [], []. split; [reflexivity|]. split; reflexivity. Qed.

Ltac same_phase past cur Hprog Hph :=
  exists past, cur; cbn [todo caller log]; split; [exact Hprog|];
  rewrite ?joined_app, ?joined_pass_events; cbn [joined flat_map app];
  rewrite ?app_nil_r; exact Hph.

Lemma pass_inv_step (prog : list call) (t : thread) (s s' : system) :
  pass_inv prog s -> step w t s = Some s' -> pass_inv prog s'.
Proof.
  intros [past [cur [Hprog Hph]]] H.
  destruct s as [ch m cr rpc tk cpc td lg]; cbn [todo caller log] in Hprog, Hph.
  unfold step in H; cbn [crashed] in H. destruct cr; [discriminate H|].
  destruct t as [| |i].
  - unfold run_step, with_run, with_mu, with_tick in H; cbn in H.
    destruct rpc as [| | | |[|n pending]| |]; cbn in H;
      try destruct m; try destruct ch; try destruct (passes w tk);
      try discriminate H; injection H as <-; same_phase past cur Hprog Hph.
  - unfold caller_step, close_ch, with_caller, with_mu, with_todo in H; cbn in H.
    unfold pass_inv. cbn [pass_phase] in Hph.
    destruct cpc as [|a|[nss|e]|[|n rest]|name st rest| | |]; cbn in H.
    + (* the next call begins *)
      destruct Hph as [-> Hj].
      destruct td as [|[|a] td]; [discriminate H| |].
      * destruct ch; injection H as <-; cbn [todo caller log pass_phase].
        -- exists (past ++ [CallStop]), []. split; [now rewrite Hprog, <- app_assoc|].
           split; [reflexivity|]. rewrite !joined_app, stopped_by_app. cbn.
           now rewrite !app_nil_r.
        -- exists past, [CallStop]. split; [exact Hprog|].
           exists CallStop. split; [reflexivity|].
           rewrite joined_app, stopped_by_app. cbn. now rewrite !app_nil_r.
      * injection H as <-; cbn [todo caller log pass_phase]. exists past, [CallShutdown a].
        split; [exact Hprog|]. rewrite joined_app. cbn. rewrite app_nil_r. now split.
    + destruct m; [discriminate H|]. injection H as <-. same_phase past cur Hprog Hph.
    + injection H as <-. destruct Hph as [-> Hj]. exists past, [CallShutdown (Ok nss)].
      cbn [todo caller log pass_phase]. split; [exact Hprog|]. rewrite app_nil_r.
      exists nss, []. cbn. rewrite app_nil_r. auto.
    + injection H as <-. destruct Hph as [-> Hj]. exists past, [CallShutdown (Err e)].
      cbn [todo caller log pass_phase]. split; [exact Hprog|]. rewrite joined_app. cbn.
      rewrite app_nil_r. exists (Err e). split; [reflexivity|].
      rewrite stopped_by_app. cbn. now rewrite app_nil_r.
    + injection H as <-. destruct Hph as [nss [done [-> [-> Hj]]]].
      exists past, [CallShutdown (Ok (done ++ []))].
      cbn [todo caller log pass_phase]. split; [exact Hprog|]. rewrite app_nil_r in *.
      exists (Ok done). split; [reflexivity|].
      rewrite stopped_by_app. cbn. now rewrite !app_nil_r.
    + injection H as <-. destruct Hph as [nss [done [-> [-> Hj]]]].
      exists past, [CallShutdown (Ok (done ++ n :: rest))].
      cbn [todo caller log pass_phase]. split; [exact Hprog|]. rewrite app_nil_r.
      exists (done ++ n :: rest), done, n. repeat (split; [reflexivity|]).
      split; [apply stop_inv_init|exact Hj].
    + destruct Hph as [nss [done [n [-> [-> [-> [Hinv Hj]]]]]]].
      assert (done ++ n :: rest = (done ++ [n]) ++ rest) as Hsplit by now rewrite <- app_assoc.
      destruct (s_pc st) as [l|pending| |[e|]] eqn:Epc.
      * destruct (stop_main st) as [st'|] eqn:Em; [|discriminate H]. injection H as <-.
        exists past, [CallShutdown (Ok (done ++ n :: rest))].
        cbn [todo caller log pass_phase]. split; [exact Hprog|]. rewrite app_nil_r.
        exists (done ++ n :: rest), done, n. repeat (split; [reflexivity|]).
        split; [now apply (stop_main_inv _ st)|exact Hj].
      * destruct (stop_main st) as [st'|] eqn:Em; [|discriminate H]. injection H as <-.
        exists past, [CallShutdown (Ok (done ++ n :: rest))].
        cbn [todo caller log pass_phase]. split; [exact Hprog|]. rewrite app_nil_r.
        exists (done ++ n :: rest), done, n. repeat (split; [reflexivity|]).
        split; [now apply (stop_main_inv _ st)|exact Hj].
      * destruct (stop_main st) as [st'|] eqn:Em; [|discriminate H]. injection H as <-.
        exists past, [CallShutdown (Ok (done ++ n :: rest))].
        cbn [todo caller log pass_phase]. split; [exact Hprog|]. rewrite app_nil_r.
        exists (done ++ n :: rest), done, n. repeat (split; [reflexivity|]).
        split; [now apply (stop_main_inv _ st)|exact Hj].
      * injection H as <-. pose proof (failed_listing _ _ _ Hinv Epc) as Hl.
        exists past, [CallShutdown (Ok (done ++ n :: rest))].
        cbn [todo caller log pass_phase]. split; [exact Hprog|]. rewrite joined_app. cbn.
        rewrite app_nil_r. exists (done ++ n :: rest), (done ++ [n]).
        split; [reflexivity|]. split; [exact Hsplit|].
        rewrite stopped_units_app. cbn. rewrite Hl. cbn. now rewrite app_nil_r.
      * injection H as <-. destruct (returned_units _ _ Hinv Epc) as [cs [Hl Hu]].
        exists past, [CallShutdown (Ok (done ++ n :: rest))].
        cbn [todo caller log pass_phase]. split; [exact Hprog|]. rewrite joined_app. cbn.
        exists (done ++ n :: rest), (done ++ [n]).
        split; [reflexivity|]. split; [exact Hsplit|].
        rewrite stopped_units_app. cbn. rewrite Hl, Hu, Hj. cbn. now rewrite app_assoc.
    + destruct Hph as [a [-> Hj]].
      destruct ch; injection H as <-; cbn [todo caller log pass_phase].
      * exists past, [CallShutdown a]. split; [exact Hprog|].
        exists a. split; [reflexivity|]. rewrite joined_app. cbn.
        now rewrite app_nil_r.
      * exists past, [CallShutdown a]. split; [exact Hprog|].
        exists (CallShutdown a). split; [reflexivity|exact Hj].
    + injection H as <-. destruct Hph as [a [-> Hj]]. cbn [todo caller log pass_phase].
      exists (past ++ [CallShutdown a]), []. split; [now rewrite Hprog, <- app_assoc|].
      rewrite joined_app. cbn. rewrite app_nil_r. now split.
    + discriminate H.
  - unfold unit_turn, with_caller in H; cbn in H.
    destruct cpc as [|a|a|pending|name st rest| | |]; try discriminate H.
    destruct (stop_unit i st) as [st'|] eqn:Eu; [|discriminate H]. injection H as <-.
    cbn [pass_phase] in Hph.
    destruct Hph as [nss [done [n [-> [-> [-> [Hinv Hj]]]]]]].
    exists past, [CallShutdown (Ok (done ++ n :: rest))].
    cbn [todo caller log pass_phase]. split; [exact Hprog|]. rewrite app_nil_r.
    exists (done ++ n :: rest), done, n. repeat (split; [reflexivity|]).
    split; [now apply (stop_unit_inv _ i st)|exact Hj].
Qed.

Lemma pass_inv_reachable (prog : list call) (sched : list thread) (s : system) :
  exec w sched (init prog) = Some s -> pass_inv prog s.
Proof.
  apply (exec_invariant w (pass_inv prog)); [|apply pass_inv_init].
  intros t a b. apply pass_inv_step.
Qed.

(** The [stopContainers] in progress is that of one namespace of the
    [Shutdown] in progress, and the namespaces before it are done. *)
Lemma stopping_of_pass (prog : list call) (s : system)
    (name : string) (st : stopping) (rest : list Namespace) :
  pass_inv prog s -> caller s = ShStopping name st rest ->
  exists past nss done n,
    prog = past ++ CallShutdown (Ok nss) :: todo s /\ nss = done ++ n :: rest /\
    name = Name n /\ stop_inv (Containers n) st /\
    joined (log s) = stopped_by past ++ stopped_units done.
Proof.
  intros [past [cur [Hprog Hph]]] E. rewrite E in Hph. cbn [pass_phase] in Hph.
  destruct Hph as [nss [done [n [-> H]]]]. exists past, nss, done, n.
  split; [exact Hprog|exact H].
Qed.

End World.

Lemma stopped_units_In (nss : list Namespace) (name : string) (us : list worker) :
  In (name, us) (stopped_units nss) ->
  exists n cs, In n nss /\ name = Name n /\ Containers n = Ok cs /\
               us = map finished (launched cs).
Proof.
  unfold stopped_units. intros H. apply in_flat_map in H. destruct H as [n [Hn H]].
  destruct (Containers n) as [cs|e] eqn:E; [|destruct H].
  destruct H as [H|[]]. injection H as <- <-. now exists n, cs.
Qed.

Lemma stopped_by_In (calls : list call) (name : string) (us : list worker) :
  In (name, us) (stopped_by calls) ->
  exists nss, In (CallShutdown (Ok nss)) calls /\ In (name, us) (stopped_units nss).
Proof.
  unfold stopped_by. intros H. apply in_flat_map in H. destruct H as [c [Hc H]].
  destruct c as [|[nss|e]]; try now destruct H. now exists nss.
Qed.

(** Every return of [stopContainers] in the log is that of a namespace
    of a [Shutdown] of the program. *)
Lemma joined_sound (prog : list call) (s : system) (name : string) (us : list worker) :
  pass_inv prog s -> In (name, us) (joined (log s)) ->
  exists nss, In (CallShutdown (Ok nss)) prog /\ In (name, us) (stopped_units nss).
Proof.
  intros [past [cur [Hprog Hph]]] Hin.
  assert (forall c, In c (past ++ cur) -> In c prog) as Hsub.
  { intros c Hc. rewrite Hprog, app_assoc. apply in_or_app. now left. }
  assert (In (name, us) (stopped_by (past ++ cur)) ->
          exists nss, In (CallShutdown (Ok nss)) prog /\ In (name, us) (stopped_units nss))
    as Hall.
  { intros H. destruct (stopped_by_In _ _ _ H) as [nss [Hc Hu]]. exists nss. auto. }
  assert (forall nss done rest,
            cur = [CallShutdown (Ok nss)] -> nss = done ++ rest ->
            In (name, us) (stopped_by past ++ stopped_units done) ->
            exists nss, In (CallShutdown (Ok nss)) prog /\ In (name, us) (stopped_units nss))
    as Hpart.
  { intros nss done rest -> -> H. apply Hall. rewrite stopped_by_app.
    apply in_app_or in H. apply in_or_app. destruct H as [H|H]; [now left|right].
    cbn. rewrite app_nil_r, stopped_units_app. apply in_or_app. now left. }
  assert (In (name, us) (stopped_by past) ->
          exists nss, In (CallShutdown (Ok nss)) prog /\ In (name, us) (stopped_units nss))
    as Hpast.
  { intros H. apply Hall. rewrite stopped_by_app. apply in_or_app. now left. }
  destruct (caller s) as [|a|a|pending|nm st rest| | |]; cbn [pass_phase] in Hph.
  - destruct Hph as [_ Hj]. rewrite Hj in Hin. auto.
  - destruct Hph as [_ Hj]. rewrite Hj in Hin. auto.
  - destruct Hph as [_ Hj]. rewrite Hj in Hin. auto.
  - destruct Hph as [nss [done [Hc [Hn Hj]]]]. rewrite Hj in Hin. eauto.
  - destruct Hph as [nss [done [n [Hc [Hn [_ [_ Hj]]]]]]]. rewrite Hj in Hin. eauto.
  - destruct Hph as [a [_ Hj]]. rewrite Hj in Hin. auto.
  - destruct Hph as [a [_ Hj]]. rewrite Hj in Hin. auto.
  - destruct Hph as [c [_ Hj]]. rewrite Hj in Hin. auto.
Qed.

(** What the units of a returned [stopContainers] are. *)
Lemma finished_launched (cs : list Container) :
  (forall c task, In c cs -> LoadTask c = Loaded task -> Task_Wait task = None ->
     exists u, In u (map finished (launched cs)) /\ w_id u = ID c /\ w_task u = task) /\
  (forall u, In u (map finished (launched cs)) ->
     (exists c, In c cs /\ w_id u = ID c /\ LoadTask c = Loaded (w_task u) /\
                Task_Wait (w_task u) = None) /\
     w_pc u = UnitDone /\ w_did u = unit_calls (w_task u)).
Proof.
  split.
  - intros c task Hc Hl Hw. exists (finished (spawn c task)).
    split; [|now split]. apply in_map. now apply launched_In.
  - intros u Hu. apply in_map_iff in Hu. destruct Hu as [x [<- Hx]].
    split; [|now split]. unfold launched in Hx. apply in_flat_map in Hx.
    destruct Hx as [c [Hc Hlive]]. exists c. split; [exact Hc|]. unfold live in Hlive.
    destruct (LoadTask c) as [| |task] eqn:El; try now destruct Hlive.
    destruct (Task_Wait task) eqn:Ew; [now destruct Hlive|].
    destruct Hlive as [<-|[]]. cbn. auto.
Qed.

Section Reachable.
Variable w : world.

(** C3, amended. In every state the process can reach: a stop unit has
    sent no other signal than SIGTERM; every [stopContainers] that has
    returned nil was that of a namespace of a [Shutdown] of the
    program, and its units were, in the order of the listing, one for
    each listed container whose task loads and can be waited for, and
    no other, each returned after SIGTERM and, when the signal went
    through, the race of the task's exit against a timer of 10 seconds,
    then Delete if the exit came first, nothing more if the timer did;
    and no namespace is left out: the returns in the log are those of
    all the namespaces of the calls made so far, in order, and during a
    [stopContainers] those of all the namespaces before it. *)
Theorem shutdown_pass_signals_races_reaps
  (prog : list call) (sched : list thread) (s : system) :
  exec w sched (init prog) = Some s ->
  (forall u sig err, In u (units s) -> In (Kill sig err) (w_did u) -> sig = SIGTERM) /\
  (forall name us, In (name, us) (joined (log s)) ->
     exists nss n cs,
       In (CallShutdown (Ok nss)) prog /\ In n nss /\ name = Name n /\
       Containers n = Ok cs /\ us = map finished (launched cs) /\
       (forall c task, In c cs -> LoadTask c = Loaded task -> Task_Wait task = None ->
          exists u, In u us /\ w_id u = ID c /\ w_task u = task) /\
       (forall u, In u us ->
          (exists c, In c cs /\ w_id u = ID c /\ LoadTask c = Loaded (w_task u) /\
                     Task_Wait (w_task u) = None) /\
          w_pc u = UnitDone /\
          w_did u =
            Kill SIGTERM (Task_Kill (w_task u)) ::
            match Task_Kill (w_task u) with
            | Some _ => []
            | None =>
                Select (10 * 1000000000) (Task_select (w_task u)) ::
                match Task_select (w_task u) with
                | TaskExited => [Delete]
                | TimerFired => []
                end
            end)) /\
  (exists past cur,
     prog = past ++ cur ++ todo s /\
     (caller s = Idle -> cur = [] /\ joined (log s) = stopped_by past) /\
     (caller s = ShClose \/ caller s = ShUnlock \/ caller s = Unwound ->
        joined (log s) = stopped_by (past ++ cur)) /\
     (forall name st rest, caller s = ShStopping name st rest ->
        exists nss done n,
          cur = [CallShutdown (Ok nss)] /\ nss = done ++ n :: rest /\ name = Name n /\
          joined (log s) = stopped_by past ++ stopped_units done)).
Proof.
  intros Hreach. pose proof (pass_inv_reachable w prog sched s Hreach) as Hinv.
  split; [|split].
  - intros u sig err Hu. apply unit_ok_sigterm.
    unfold units in Hu. destruct (caller s) as [|a|a|pending|name st rest| | |] eqn:E;
      try now destruct Hu.
    destruct (stopping_of_pass prog s name st rest Hinv E)
      as [past [nss [done [n [_ [_ [_ [[Hok _] _]]]]]]]].
    exact (proj1 (List.Forall_forall _ _) Hok u Hu).
  - intros name us Hin.
    destruct (joined_sound prog s name us Hinv Hin) as [nss [Hc Hu]].
    destruct (stopped_units_In nss name us Hu) as [n [cs [Hn [Hname [Hl Hus]]]]].
    exists nss, n, cs. repeat (split; [assumption|]).
    destruct (finished_launched cs) as [Hall Honly]. rewrite Hus. split; [exact Hall|].
    intros u Hin'. destruct (Honly u Hin') as [Hc' [Hpc Hdid]].
    split; [exact Hc'|]. split; [exact Hpc|]. rewrite Hdid. reflexivity.
  - destruct Hinv as [past [cur [Hprog Hph]]]. exists past, cur.
    split; [exact Hprog|]. split; [|split].
    + intros E. rewrite E in Hph. exact Hph.
    + intros [E|[E|E]]; rewrite E in Hph; cbn [pass_phase] in Hph;
        destruct Hph as [x [_ Hj]]; exact Hj.
    + intros name st rest E. rewrite E in Hph. cbn [pass_phase] in Hph.
      destruct Hph as [nss [done [n [Hc [Hn [Hname [_ Hj]]]]]]]. now exists nss, done, n.
Qed.


End Reachable.

(** C3, as stated, fails on a namespace with [cache1] and [queue1],
    both with a task that loads and runs: the whole [Shutdown] returns
    and no unit was launched for [cache1], whose [task.Wait] fails, so
    that its task was sent no signal at all; and the unit of [queue1],
    whose [task.Kill] fails, returned at once, without the race and
    without Delete. *)
Lemma shutdown_leaves_live_tasks_unsignalled :
  exists s,
    exec world1 jobs_sched (init [CallShutdown client3]) = Some s /\
    caller s = Idle /\ crashed s = None /\ shutdownCh s = Closed /\
    LoadTask cache1 = Loaded unwaitable_task /\
    Task_Status unwaitable_task = Ok Running /\
    LoadTask queue1 = Loaded deaf_task /\
    Task_Status deaf_task = Ok Running /\
    joined (log s) =
      [("jobs", [{| w_id := "queue1"; w_task := deaf_task; w_pc := UnitDone;
                    w_did := [Kill SIGTERM (Some "no such process")] |}])].
Proof.
  eexists. split; [vm_compute; reflexivity|]. repeat split.
Qed.

(** The theorem on the sample world: after the whole [Shutdown] over
    [web1; web2; db1] the log holds the return of the one
    [stopContainers], with the unit of [web2], whose task exits, ended
    by Delete, and the unit of [db1], whose task does not, ended by the
    timer. *)
Lemma shutdown_pass_signals_races_reaps_witness :
  exists s,
    exec world1 (TCaller :: shutdown_sched) (init [CallShutdown client1]) = Some s /\
    caller s = Idle /\
    joined (log s) = stopped_by [CallShutdown client1] /\
    map (fun j => (fst j, map w_id (snd j), map w_did (snd j))) (joined (log s)) =
      [("default", ["web2"; "db1"],
        [[Kill SIGTERM None; Select 10000000000 TaskExited; Delete];
         [Kill SIGTERM None; Select 10000000000 TimerFired]])].
Proof.
  destruct (exec world1 (TCaller :: shutdown_sched) (init [CallShutdown client1]))
    as [s|] eqn:E; [|vm_compute in E; discriminate E].
  exists s. split; [reflexivity|].
  assert (caller s = Idle /\ todo s = []) as [Hidle Htodo].
  { vm_compute in E. injection E as <-. now split. }
  split; [exact Hidle|].
  destruct (shutdown_pass_signals_races_reaps world1 _ _ _ E)
    as [_ [_ [past [cur [Hprog [Hret _]]]]]].
  destruct (Hret Hidle) as [-> Hj]. rewrite Htodo, !app_nil_r in Hprog. subst past.
  split; [exact Hj|]. rewrite Hj. reflexivity.
Defined.



End ShutdownPassFacts.
